(** * ts-fibers: the bounded-concurrency engine of [src/index.ts]

    A shallow embedding of the [Fibers] class.  The class is written with
    [async] methods; here every method is cut at its [await]s into the
    synchronous segments that run between two suspensions, each segment being
    a function on the engine state.  A configuration then pairs the engine
    with the coroutines that are parked on an [await], and events (calls of
    the public methods, a promise settling, a parked coroutine continuing)
    drive it. *)

From Stdlib Require Import ZArith List Bool Lia.
Import ListNotations.
Open Scope Z_scope.

Set Implicit Arguments.
Set Warnings "-register-all".

(** ** Values, errors, promises *)

(** [TSource] and [TValue] are both taken to be numbers, and of the
    numbers of the host (IEEE 754 doubles) the model keeps the
    integer-valued ones, as integers. *)
Definition Src := Z.
Definition Val := Z.

(** The double nearest to the integer [z], ties going to the even
    significand.  A double has 53 significant bits: every integer up to
    [2^53] in absolute value is a double, and beyond that only the multiples
    of the power of two that leaves 53 bits are.  (The largest finite double
    is about [1.8e308]; the model does not go to Infinity beyond it.) *)
Definition number_round (z : Z) : Z :=
  let a := Z.abs z in
  if a <=? 2 ^ 53 then z
  else
    let e := Z.log2 a - 52 in
    let q := a / 2 ^ e in
    let r := a mod 2 ^ e in
    let half := 2 ^ (e - 1) in
    let q' := if r <? half then q
              else if half <? r then q + 1
              else if Z.even q then q else q + 1 in
    Z.sgn z * (q' * 2 ^ e).

(** [a + b] on numbers: the exact sum, rounded. *)
Definition number_add (a b : Z) : Z := number_round (a + b).

(** The three messages the class gives to [new FiberError(...)]:
    - "Concurrency level must be greater than 0: ${value}"
    - "Cannot start while iterating over fibers"
    - "Cannot iterate while generator is running in background". *)
Inductive FiberMessage :=
| ConcurrencyNotPositive (value : Z)
| CannotStartWhileIterating
| CannotIterateWhileRunning.

(** Anything that can be thrown. [Failure] stands for the values thrown by
    user code. *)
Inductive Err :=
| FiberError (message : FiberMessage)
| AggregateError (errors : list Err)
| Failure (code : Z).

(** How a promise ends once it settles. *)
Inductive Settled :=
| Fulfilled (v : Val)
| Rejected (e : Err).

(** What calling a task factory does: it throws before returning a promise,
    or it returns a new promise, which (if it ever settles) settles as
    given. *)
Inductive Launch :=
| Raises (e : Err)
| Promises (o : Settled).

(** [interface FiberTaskFactory<TSource, TPromise>] *)
Record FiberTaskFactory := {
  source : Src;
  factory : Src -> Launch
}.

(** A promise returned by a factory.  Two promises are the same object when
    their [task_id]s agree; the id is the number of factory calls made before
    the one that created it. *)
Record Task := {
  task_id : nat;
  task_source : Src;
  task_result : Settled
}.

Definition same_task (a b : Task) : bool := Nat.eqb (task_id a) (task_id b).

(** [Set.prototype.add], [delete] and [has] on an insertion-ordered set. *)
Definition pool_has (t : Task) (pool : list Task) : bool :=
  existsb (same_task t) pool.

Definition pool_add (t : Task) (pool : list Task) : list Task :=
  if pool_has t pool then pool else pool ++ [t].

Definition pool_delete (t : Task) (pool : list Task) : list Task :=
  filter (fun u => negb (same_task t u)) pool.

(** ** The work source *)

(** The suspended body of one of the two generator functions.  [Sequence]
    holds the loop variable of [_sequence] as it will next be tested against
    [end]; [Iterator] holds the items [_iterator] has not visited yet. *)
Inductive GenBody :=
| Sequence (i end_ step : Z) (f : Src -> Launch)
| Iterator (items : list Src) (f : Src -> Launch)
| Closed.

(** A generator object.  [hasDispose] tells whether the host gives generator
    objects a [Symbol.dispose] method, which [_cleanup] calls through
    [?.()]. *)
Record Generator := {
  body : GenBody;
  hasDispose : bool
}.

(** [static *_sequence(start, end, step, factory)]; the [factory] argument of
    the source is always [(source) => ({ source, factory })]. *)
Definition _sequence (start end_ step : Z) (f : Src -> Launch) : GenBody :=
  Sequence start end_ step f.

(** [static *_iterator(items, factory)] *)
Definition _iterator (items : list Src) (f : Src -> Launch) : GenBody :=
  Iterator items f.

(** [generator.next()]: [None] is [{ done: true }].  In [_sequence] the
    statement [i += step] adds numbers: the sum is rounded. *)
Definition gen_next (g : Generator) : option FiberTaskFactory * Generator :=
  match body g with
  | Sequence i end_ step f =>
      if i <? end_
      then (Some {| source := i; factory := f |},
            {| body := Sequence (number_add i step) end_ step f;
               hasDispose := hasDispose g |})
      else (None, {| body := Closed; hasDispose := hasDispose g |})
  | Iterator (x :: rest) f =>
      (Some {| source := x; factory := f |},
       {| body := Iterator rest f; hasDispose := hasDispose g |})
  | Iterator [] f => (None, {| body := Closed; hasDispose := hasDispose g |})
  | Closed => (None, g)
  end.

(** [generator[Symbol.dispose]?.()] *)
Definition gen_dispose (g : Generator) : Generator :=
  if hasDispose g then {| body := Closed; hasDispose := true |} else g.

(** ** The lifecycle promise *)

Inductive Settlement :=
| Resolved
| RejectedWith (e : Err).

(** [_fibersPromise] together with the two functions taken from its executor.
    [outcome] is the state of the promise; [calls] lists every call made to
    [_callbackResolve] or [_callbackReject], oldest first; [fault] is what
    such a call throws, if it throws at all (the functions of a native
    promise never do: the constructor below sets [None]). *)
Record Lifecycle := {
  outcome : option Settlement;
  calls : list Settlement;
  fault : option Err
}.

Definition settle (s : Settlement) (p : Lifecycle) : Lifecycle * option Err :=
  ({| outcome := match outcome p with None => Some s | Some o => Some o end;
      calls := calls p ++ [s];
      fault := fault p |},
   fault p).

(** ** The engine *)

(** ['stop' | 'skip' | 'default'] *)
Inductive Verdict := Stop | Skip | Default.

(** [FiberErrorHandler]: the handler is always called with reason ['next'],
    and is taken to decide on the error alone. *)
Definition FiberErrorHandler := Err -> Verdict.

(** The private fields of [class Fibers].  The last two fields are not fields
    of the class: [inflight] holds the promises that factories have returned
    and that have not settled yet, [invoked] the sources for which a factory
    has been called, oldest first. *)
Record Fibers := {
  _runningTaskPool : list Task;
  _finishedTaskPool : list Task;
  _generator : Generator;
  _isCompleted : bool;
  _isGeneratorConsuming : bool;
  _allowBackgroundJobRunning : bool;
  _activeBackgroundJob : bool;
  _isFailed : bool;
  _isResolvedOrRejected : bool;
  _fibersPromise : Lifecycle;
  b_concurrency : Z;
  b_errorHandler : option FiberErrorHandler;
  inflight : list Task;
  invoked : list Src
}.

Definition with_pools (r fin : list Task) (f : Fibers) : Fibers :=
  {| _runningTaskPool := r; _finishedTaskPool := fin;
     _generator := _generator f; _isCompleted := _isCompleted f;
     _isGeneratorConsuming := _isGeneratorConsuming f;
     _allowBackgroundJobRunning := _allowBackgroundJobRunning f;
     _activeBackgroundJob := _activeBackgroundJob f;
     _isFailed := _isFailed f; _isResolvedOrRejected := _isResolvedOrRejected f;
     _fibersPromise := _fibersPromise f; b_concurrency := b_concurrency f;
     b_errorHandler := b_errorHandler f;
     inflight := inflight f; invoked := invoked f |}.

Definition with_generator (g : Generator) (f : Fibers) : Fibers :=
  {| _runningTaskPool := _runningTaskPool f; _finishedTaskPool := _finishedTaskPool f;
     _generator := g; _isCompleted := _isCompleted f;
     _isGeneratorConsuming := _isGeneratorConsuming f;
     _allowBackgroundJobRunning := _allowBackgroundJobRunning f;
     _activeBackgroundJob := _activeBackgroundJob f;
     _isFailed := _isFailed f; _isResolvedOrRejected := _isResolvedOrRejected f;
     _fibersPromise := _fibersPromise f; b_concurrency := b_concurrency f;
     b_errorHandler := b_errorHandler f;
     inflight := inflight f; invoked := invoked f |}.

Definition with_consuming (b : bool) (f : Fibers) : Fibers :=
  {| _runningTaskPool := _runningTaskPool f; _finishedTaskPool := _finishedTaskPool f;
     _generator := _generator f; _isCompleted := _isCompleted f;
     _isGeneratorConsuming := b;
     _allowBackgroundJobRunning := _allowBackgroundJobRunning f;
     _activeBackgroundJob := _activeBackgroundJob f;
     _isFailed := _isFailed f; _isResolvedOrRejected := _isResolvedOrRejected f;
     _fibersPromise := _fibersPromise f; b_concurrency := b_concurrency f;
     b_errorHandler := b_errorHandler f;
     inflight := inflight f; invoked := invoked f |}.

Definition with_background (allow job : bool) (f : Fibers) : Fibers :=
  {| _runningTaskPool := _runningTaskPool f; _finishedTaskPool := _finishedTaskPool f;
     _generator := _generator f; _isCompleted := _isCompleted f;
     _isGeneratorConsuming := _isGeneratorConsuming f;
     _allowBackgroundJobRunning := allow;
     _activeBackgroundJob := job;
     _isFailed := _isFailed f; _isResolvedOrRejected := _isResolvedOrRejected f;
     _fibersPromise := _fibersPromise f; b_concurrency := b_concurrency f;
     b_errorHandler := b_errorHandler f;
     inflight := inflight f; invoked := invoked f |}.

Definition with_failed (f : Fibers) : Fibers :=
  {| _runningTaskPool := _runningTaskPool f; _finishedTaskPool := _finishedTaskPool f;
     _generator := _generator f; _isCompleted := _isCompleted f;
     _isGeneratorConsuming := _isGeneratorConsuming f;
     _allowBackgroundJobRunning := _allowBackgroundJobRunning f;
     _activeBackgroundJob := _activeBackgroundJob f;
     _isFailed := true; _isResolvedOrRejected := _isResolvedOrRejected f;
     _fibersPromise := _fibersPromise f; b_concurrency := b_concurrency f;
     b_errorHandler := b_errorHandler f;
     inflight := inflight f; invoked := invoked f |}.

Definition with_settled (p : Lifecycle) (f : Fibers) : Fibers :=
  {| _runningTaskPool := _runningTaskPool f; _finishedTaskPool := _finishedTaskPool f;
     _generator := _generator f; _isCompleted := _isCompleted f;
     _isGeneratorConsuming := _isGeneratorConsuming f;
     _allowBackgroundJobRunning := _allowBackgroundJobRunning f;
     _activeBackgroundJob := _activeBackgroundJob f;
     _isFailed := _isFailed f; _isResolvedOrRejected := true;
     _fibersPromise := p; b_concurrency := b_concurrency f;
     b_errorHandler := b_errorHandler f;
     inflight := inflight f; invoked := invoked f |}.

Definition with_concurrency (value : Z) (f : Fibers) : Fibers :=
  {| _runningTaskPool := _runningTaskPool f; _finishedTaskPool := _finishedTaskPool f;
     _generator := _generator f; _isCompleted := _isCompleted f;
     _isGeneratorConsuming := _isGeneratorConsuming f;
     _allowBackgroundJobRunning := _allowBackgroundJobRunning f;
     _activeBackgroundJob := _activeBackgroundJob f;
     _isFailed := _isFailed f; _isResolvedOrRejected := _isResolvedOrRejected f;
     _fibersPromise := _fibersPromise f; b_concurrency := value;
     b_errorHandler := b_errorHandler f;
     inflight := inflight f; invoked := invoked f |}.

Definition with_errorHandler (h : option FiberErrorHandler) (f : Fibers) : Fibers :=
  {| _runningTaskPool := _runningTaskPool f; _finishedTaskPool := _finishedTaskPool f;
     _generator := _generator f; _isCompleted := _isCompleted f;
     _isGeneratorConsuming := _isGeneratorConsuming f;
     _allowBackgroundJobRunning := _allowBackgroundJobRunning f;
     _activeBackgroundJob := _activeBackgroundJob f;
     _isFailed := _isFailed f; _isResolvedOrRejected := _isResolvedOrRejected f;
     _fibersPromise := _fibersPromise f; b_concurrency := b_concurrency f;
     b_errorHandler := h;
     inflight := inflight f; invoked := invoked f |}.

(** The factory of [item] has returned the new promise [t]:
    [runningPool.add(newTask)], and the host now has one more pending
    promise.  A new promise object is never in the pool already, so [add]
    appends. *)
Definition with_launched (g : Generator) (t : Task) (f : Fibers) : Fibers :=
  {| _runningTaskPool := _runningTaskPool f ++ [t];
     _finishedTaskPool := _finishedTaskPool f;
     _generator := g; _isCompleted := _isCompleted f;
     _isGeneratorConsuming := _isGeneratorConsuming f;
     _allowBackgroundJobRunning := _allowBackgroundJobRunning f;
     _activeBackgroundJob := _activeBackgroundJob f;
     _isFailed := _isFailed f; _isResolvedOrRejected := _isResolvedOrRejected f;
     _fibersPromise := _fibersPromise f; b_concurrency := b_concurrency f;
     b_errorHandler := b_errorHandler f;
     inflight := inflight f ++ [t]; invoked := invoked f ++ [task_source t] |}.

(** The factory of an item has thrown instead of returning a promise. *)
Definition with_raised (g : Generator) (s : Src) (f : Fibers) : Fibers :=
  {| _runningTaskPool := _runningTaskPool f; _finishedTaskPool := _finishedTaskPool f;
     _generator := g; _isCompleted := _isCompleted f;
     _isGeneratorConsuming := _isGeneratorConsuming f;
     _allowBackgroundJobRunning := _allowBackgroundJobRunning f;
     _activeBackgroundJob := _activeBackgroundJob f;
     _isFailed := _isFailed f; _isResolvedOrRejected := _isResolvedOrRejected f;
     _fibersPromise := _fibersPromise f; b_concurrency := b_concurrency f;
     b_errorHandler := b_errorHandler f;
     inflight := inflight f; invoked := invoked f ++ [s] |}.

(** The pending promise [t] settles; its [finally] observer runs
    [finishedPool.add(newTask)]. *)
Definition with_settlement (t : Task) (f : Fibers) : Fibers :=
  {| _runningTaskPool := _runningTaskPool f;
     _finishedTaskPool := pool_add t (_finishedTaskPool f);
     _generator := _generator f; _isCompleted := _isCompleted f;
     _isGeneratorConsuming := _isGeneratorConsuming f;
     _allowBackgroundJobRunning := _allowBackgroundJobRunning f;
     _activeBackgroundJob := _activeBackgroundJob f;
     _isFailed := _isFailed f; _isResolvedOrRejected := _isResolvedOrRejected f;
     _fibersPromise := _fibersPromise f; b_concurrency := b_concurrency f;
     b_errorHandler := b_errorHandler f;
     inflight := pool_delete t (inflight f); invoked := invoked f |}.

(** [set concurrency(value)] *)
Definition set_concurrency (value : Z) (f : Fibers) : Err + Fibers :=
  if value <=? 0
  then inl (FiberError (ConcurrencyNotPositive value))
  else inr (with_concurrency value f).

(** [setErrorHandler(handler)] *)
Definition setErrorHandler (h : option FiberErrorHandler) (f : Fibers) : Fibers :=
  with_errorHandler h f.

(** The getters [failed], [started], [completed]. *)
Definition failed (f : Fibers) : bool := _isFailed f.
Definition started (f : Fibers) : bool := _activeBackgroundJob f.
Definition completed (f : Fibers) : bool := _isCompleted f.

(** The getter [promise], read as the state of the promise. *)
Definition promise (f : Fibers) : option Settlement := outcome (_fibersPromise f).

(** The field initialisers of the class. *)
Definition blank (g : Generator) : Fibers :=
  {| _runningTaskPool := []; _finishedTaskPool := [];
     _generator := g; _isCompleted := false;
     _isGeneratorConsuming := false;
     _allowBackgroundJobRunning := false;
     _activeBackgroundJob := false;
     _isFailed := false; _isResolvedOrRejected := false;
     _fibersPromise := {| outcome := None; calls := []; fault := None |};
     b_concurrency := 1;
     b_errorHandler := None;
     inflight := []; invoked := [] |}.

(** [private constructor(concurrency, generator)] *)
Definition Fibers_new (concurrency : Z) (g : Generator) : Err + Fibers :=
  set_concurrency concurrency (blank g).

(** [static for(concurrency, start, end, step, factory)] *)
Definition Fibers_for (dispose : bool) (concurrency start end_ step : Z)
    (f : Src -> Launch) : Err + Fibers :=
  Fibers_new concurrency
    {| body := _sequence start end_ step f; hasDispose := dispose |}.

(** [static forEach(concurrency, items, factory)] *)
Definition Fibers_forEach (dispose : bool) (concurrency : Z) (items : list Src)
    (f : Src -> Launch) : Err + Fibers :=
  Fibers_new concurrency
    {| body := _iterator items f; hasDispose := dispose |}.

(** [_cleanup()] *)
Definition _cleanup (f : Fibers) : Fibers :=
  {| _runningTaskPool := []; _finishedTaskPool := [];
     _generator := gen_dispose (_generator f);
     _isCompleted := true;
     _isGeneratorConsuming := false;
     _allowBackgroundJobRunning := false;
     _activeBackgroundJob := false;
     _isFailed := _isFailed f; _isResolvedOrRejected := _isResolvedOrRejected f;
     _fibersPromise := _fibersPromise f; b_concurrency := b_concurrency f;
     b_errorHandler := b_errorHandler f;
     inflight := inflight f; invoked := invoked f |}.

(** [_resolveIfNotFailedAndCleanup()].  The second component is what the
    promise returned by the method rejects with, [None] when it fulfils.
    All effects on the engine happen before the first suspension of the
    method ([await this._cleanup()] comes after [_cleanup] has run). *)
Definition _resolveIfNotFailedAndCleanup (f : Fibers) : Fibers * option Err :=
  if _isResolvedOrRejected f
  then (_cleanup f, None)
  else
    let (p, thrown) := settle Resolved (_fibersPromise f) in
    (_cleanup (with_settled p f), thrown).

(** [_raiseErrorAndCleanup(e)], read like the method above. *)
Definition _raiseErrorAndCleanup (e : Err) (f : Fibers) : Fibers * option Err :=
  let f1 := with_failed f in
  if _isResolvedOrRejected f1
  then (_cleanup f1, None)
  else
    let (p, thrown) := settle (RejectedWith e) (_fibersPromise f1) in
    (_cleanup (with_settled p f1),
     match thrown with
     | Some other => Some (AggregateError [other; e])
     | None => None
     end).

(** ** [next()]

    [next] suspends at [await Promise.race(runningPool)], at each turn of
    the spin [await Promise.resolve()] and at [await activeTask].  The two
    remaining [await]s ([_resolveIfNotFailedAndCleanup] in the [finally]
    block, and [_cleanup] inside it) are followed by no effect on the
    engine. *)

(** Where a call of [next] is suspended.  [AwaitRace] keeps the promises the
    race was started over, and the one that settles it once that is known:
    at the call of [Promise.race] the first promise of the pool that has
    settled already, otherwise the first of them to settle later. *)
Inductive Await :=
| AwaitRace (snapshot : list Task) (winner : option Task) (activeTask : option Task)
| AwaitYield (activeTask : option Task)
| AwaitTask (activeTask : Task).

(** Where a segment of [next] starts. *)
Inductive Stage :=
| Enter
| AfterRace (winner : Task) (activeTask : option Task)
| AfterYield (activeTask : option Task)
| AfterTask (activeTask : Task).

(** How a segment leaves the [try] block. *)
Inductive TryOutcome :=
| Suspends (a : Await)
| Returns (v : Val)
| LoopFinished
| Raised (e : Err).

(** What the promise returned by [next], [return] or [throw] settles with. *)
Inductive IteratorResult :=
| Value (v : Val)
| Done
| Throws (e : Err).

(** How a segment of [next] ends: the call settles, it is suspended on an
    [await], or it has made more calls [return this.next()] in a row than
    the fuel allows. *)
Inductive Status :=
| Settles (r : IteratorResult)
| Parks (a : Await)
| Diverges.

(** The loop [while (runningPool.size < taskSize)].  Every turn that does
    not leave the loop makes the pool one larger, so [fuel] counts turns;
    [try_block] gives it [taskSize] of them. *)
Fixpoint refill (fuel : nat) (taskSize : Z) (activeTask : option Task) (f : Fibers)
  : Fibers * option Task * option Err :=
  match fuel with
  | O => (f, activeTask, None)
  | S fuel' =>
      if Z.of_nat (length (_runningTaskPool f)) <? taskSize
      then
        match gen_next (_generator f) with
        | (None, g) => (with_generator g f, activeTask, None)
        | (Some nextItem, g) =>
            match factory nextItem (source nextItem) with
            | Raises e => (with_raised g (source nextItem) f, activeTask, Some e)
            | Promises o =>
                let newTask := {| task_id := length (invoked f);
                                  task_source := source nextItem;
                                  task_result := o |} in
                refill fuel' taskSize (Some newTask) (with_launched g newTask f)
            end
        end
      else (f, activeTask, None)
  end.

Definition already_settled (f : Fibers) (t : Task) : bool :=
  negb (pool_has t (inflight f)).

(** After the race: the spin on [finishedPool.size === 0], then
    [finishedPool.values().next().value] and [await activeTask]. *)
Definition claim (activeTask : option Task) (f : Fibers)
  : Fibers * option Task * TryOutcome :=
  match _finishedTaskPool f with
  | [] => (f, activeTask, Suspends (AwaitYield activeTask))
  | finishedTask :: _ => (f, Some finishedTask, Suspends (AwaitTask finishedTask))
  end.

(** One segment of the [try] block, with the value of [activeTask] when the
    segment ends. *)
Definition try_block (stage : Stage) (f : Fibers)
  : Fibers * option Task * TryOutcome :=
  match stage with
  | Enter =>
      let taskSize := b_concurrency f in
      let '(f1, activeTask, thrown) := refill (Z.to_nat taskSize) taskSize None f in
      match thrown with
      | Some e => (f1, activeTask, Raised e)
      | None =>
          match _runningTaskPool f1 with
          | [] => (f1, activeTask, LoopFinished)
          | runningPool =>
              (f1, activeTask,
               Suspends (AwaitRace runningPool
                           (find (already_settled f1) runningPool) activeTask))
          end
      end
  | AfterRace winner activeTask =>
      match task_result winner with
      | Rejected e => (f, activeTask, Raised e)
      | Fulfilled _ => claim activeTask f
      end
  | AfterYield activeTask => claim activeTask f
  | AfterTask activeTask =>
      match task_result activeTask with
      | Fulfilled v => (f, Some activeTask, Returns v)
      | Rejected e => (f, Some activeTask, Raised e)
      end
  end.

(** [this.b_errorHandler?.(error, this, 'next')]; without a handler the
    [switch] takes its [default] branch. *)
Definition consult (f : Fibers) (error : Err) : Verdict :=
  match b_errorHandler f with
  | Some handler => handler error
  | None => Default
  end.

(** The [finally] block; the second component is what it throws. *)
Definition finally_block (activeTask : option Task) (loopFinished : bool) (f : Fibers)
  : Fibers * option Err :=
  let f1 :=
    match activeTask with
    | Some t => with_pools (pool_delete t (_runningTaskPool f))
                           (pool_delete t (_finishedTaskPool f)) f
    | None => f
    end in
  if loopFinished then _resolveIfNotFailedAndCleanup f1 else (f1, None).

(** What follows the [try] block: [catch], [finally] and the two [return]s
    at the end.  [again] is the call [this.next()] of the last line. *)
Definition after_try (again : Fibers -> Fibers * Status)
    (f1 : Fibers) (activeTask : option Task) (out : TryOutcome) : Fibers * Status :=
  match out with
  | Suspends a => (f1, Parks a)
  | Returns v =>
      let (f2, bad) := finally_block activeTask false f1 in
      (f2, Settles (match bad with Some x => Throws x | None => Value v end))
  | LoopFinished =>
      let (f2, bad) := finally_block activeTask true f1 in
      (f2, Settles (match bad with Some x => Throws x | None => Done end))
  | Raised error =>
      match consult f1 error with
      | Stop =>
          let (f2, bad) := finally_block activeTask true f1 in
          (f2, Settles (match bad with Some x => Throws x | None => Done end))
      | Skip =>
          let (f2, _) := finally_block activeTask false f1 in
          again f2
      | Default =>
          let f2 := fst (_raiseErrorAndCleanup error f1) in
          let (f3, _) := finally_block activeTask false f2 in
          (f3, Settles (Throws error))
      end
  end.

(** A segment of [next], from [stage] to the next suspension or to the end
    of the call.  [fuel] bounds the depth of the calls [return this.next()]
    made without a suspension in between. *)
Fixpoint next (fuel : nat) (stage : Stage) (f : Fibers) {struct fuel} : Fibers * Status :=
  let again :=
    match fuel with
    | O => fun f' => (f', Diverges)
    | S fuel' => fun f' => next fuel' Enter f'
    end in
  let '(f1, activeTask, out) := try_block stage f in
  after_try again f1 activeTask out.

(** ** The other methods *)

(** [[Symbol.asyncIterator]()] *)
Definition asyncIterator (f : Fibers) : Err + Fibers :=
  if _activeBackgroundJob f
  then inl (FiberError CannotIterateWhileRunning)
  else inr (with_consuming true f).

(** [throw(e)] *)
Definition throw (e : Err) (f : Fibers) : Fibers * IteratorResult :=
  let (f1, bad) := _raiseErrorAndCleanup e f in
  (f1, Throws (match bad with Some x => x | None => e end)).

(** [return(value)]; the value handed back is not kept. *)
Definition return_ (f : Fibers) : Fibers * IteratorResult :=
  let (f1, bad) := _resolveIfNotFailedAndCleanup f in
  (f1, match bad with Some x => Throws x | None => Done end).

(** [[Symbol.asyncDispose]()] *)
Definition asyncDispose (f : Fibers) : Fibers := _cleanup f.

(** [stop()] *)
Definition stop (f : Fibers) : Fibers :=
  with_background false (_activeBackgroundJob f) f.

(** ** Configurations and events *)

(** Who called [next]: the consumer of the iterator protocol, or the loop of
    [_runInBackground]. *)
Inductive Owner := Consumer | Background.

(** A suspended coroutine: a call of [next] parked on one of its [await]s,
    or [_runInBackground] parked on [await this.next()] after that call has
    settled with [r]. *)
Inductive Parked :=
| InNext (who : Owner) (a : Await)
| InBackground (r : IteratorResult).

(** The engine, the suspended coroutines, and what the consumer's calls of
    [next] have settled with so far. *)
Record Config := {
  engine : Fibers;
  parked : list Parked;
  results : list IteratorResult
}.

Definition idle (f : Fibers) : Config :=
  {| engine := f; parked := []; results := [] |}.

Definition with_engine (f : Fibers) (c : Config) : Config :=
  {| engine := f; parked := parked c; results := results c |}.

(** Files a segment of [next] that has run for [who]. *)
Definition land (who : Owner) (ps : list Parked) (rs : list IteratorResult)
    (st : Fibers * Status) : option Config :=
  match snd st with
  | Parks a => Some {| engine := fst st; parked := ps ++ [InNext who a]; results := rs |}
  | Settles r =>
      match who with
      | Consumer => Some {| engine := fst st; parked := ps; results := rs ++ [r] |}
      | Background => Some {| engine := fst st; parked := ps ++ [InBackground r]; results := rs |}
      end
  | Diverges => None
  end.

(** [_runInBackground()], from one test of the loop condition to
    [await this.next()], or through the [finally] block when the test
    fails. *)
Definition _runInBackground (fuel : nat) (ps : list Parked) (rs : list IteratorResult)
    (f : Fibers) : option Config :=
  if _allowBackgroundJobRunning f && negb (_isFailed f) && negb (_isCompleted f)
  then land Background ps rs (next fuel Enter f)
  else Some {| engine := with_background false false f; parked := ps; results := rs |}.

(** What [start()] hands back: it throws, it returns [Promise.resolve()], or
    it returns the promise of the background job. *)
Inductive Started :=
| StartThrows (e : Err)
| StartResolved
| StartJob.

(** [start()].  The job promise is stored only after [_runInBackground] has
    run up to its first suspension. *)
Definition start (fuel : nat) (c : Config) : option (Config * Started) :=
  let f := engine c in
  if _isGeneratorConsuming f
  then Some (c, StartThrows (FiberError CannotStartWhileIterating))
  else if _isCompleted f || _isFailed f
  then Some (c, StartResolved)
  else if _activeBackgroundJob f
  then Some (c, StartJob)
  else
    match _runInBackground fuel (parked c) (results c) (with_background true false f) with
    | Some c1 =>
        Some (with_engine
                (with_background (_allowBackgroundJobRunning (engine c1)) true (engine c1)) c1,
              StartJob)
    | None => None
    end.

(** What can happen to a configuration: a call of a public method or an
    assignment to [concurrency], the pending promise [id] settling, or the
    suspended coroutine at index [k] continuing. *)
Inductive Event :=
| CallNext
| CallIterator
| CallStart
| CallStop
| CallReturn
| CallThrow (e : Err)
| CallDispose
| SetConcurrency (value : Z)
| SetErrorHandler (h : option FiberErrorHandler)
| Settle (id : nat)
| Resume (k : nat).

Fixpoint drop_nth {A : Type} (k : nat) (l : list A) : list A :=
  match l, k with
  | [], _ => []
  | _ :: rest, O => rest
  | x :: rest, S k' => x :: drop_nth k' rest
  end.

(** A race that is still open is settled by the first of its promises to
    settle. *)
Definition notice (t : Task) (p : Parked) : Parked :=
  match p with
  | InNext who (AwaitRace snapshot None activeTask) =>
      if pool_has t snapshot
      then InNext who (AwaitRace snapshot (Some t) activeTask)
      else p
  | _ => p
  end.

(** One event.  [None] when the event cannot happen: no pending promise has
    the id, no coroutine is parked at the index or its promise has not
    settled, or a chain of [return this.next()] is longer than [fuel].  A
    call that throws leaves the configuration as it is; the functions
    [set_concurrency], [asyncIterator] and [start] tell what it throws. *)
Definition step (fuel : nat) (ev : Event) (c : Config) : option Config :=
  let f := engine c in
  match ev with
  | CallNext => land Consumer (parked c) (results c) (next fuel Enter f)
  | CallIterator =>
      match asyncIterator f with
      | inr f1 => Some (with_engine f1 c)
      | inl _ => Some c
      end
  | CallStart =>
      match start fuel c with
      | Some (c1, _) => Some c1
      | None => None
      end
  | CallStop => Some (with_engine (stop f) c)
  | CallReturn =>
      let (f1, r) := return_ f in
      Some {| engine := f1; parked := parked c; results := results c ++ [r] |}
  | CallThrow e =>
      let (f1, r) := throw e f in
      Some {| engine := f1; parked := parked c; results := results c ++ [r] |}
  | CallDispose => Some (with_engine (asyncDispose f) c)
  | SetConcurrency value =>
      match set_concurrency value f with
      | inr f1 => Some (with_engine f1 c)
      | inl _ => Some c
      end
  | SetErrorHandler h => Some (with_engine (setErrorHandler h f) c)
  | Settle id =>
      match find (fun t => Nat.eqb (task_id t) id) (inflight f) with
      | Some t =>
          Some {| engine := with_settlement t f;
                  parked := map (notice t) (parked c);
                  results := results c |}
      | None => None
      end
  | Resume k =>
      let rest := drop_nth k (parked c) in
      match nth_error (parked c) k with
      | Some (InNext who (AwaitRace _ (Some winner) activeTask)) =>
          land who rest (results c) (next fuel (AfterRace winner activeTask) f)
      | Some (InNext who (AwaitRace _ None _)) => None
      | Some (InNext who (AwaitYield activeTask)) =>
          land who rest (results c) (next fuel (AfterYield activeTask) f)
      | Some (InNext who (AwaitTask activeTask)) =>
          land who rest (results c) (next fuel (AfterTask activeTask) f)
      | Some (InBackground (Value _)) => _runInBackground fuel rest (results c) f
      | Some (InBackground _) =>
          Some {| engine := with_background false false f;
                  parked := rest; results := results c |}
      | None => None
      end
  end.

Fixpoint run (fuel : nat) (evs : list Event) (c : Config) : option Config :=
  match evs with
  | [] => Some c
  | ev :: rest =>
      match step fuel ev c with
      | Some c1 => run fuel rest c1
      | None => None
      end
  end.

(** ** Notions used by the properties *)

Definition poolSize (f : Fibers) : Z := Z.of_nat (length (_runningTaskPool f)).

(** A move never makes the pool larger than the larger of its size before
    and the concurrency level, and leaves the level alone. *)
Definition Bounded (f f' : Fibers) : Prop :=
  b_concurrency f' = b_concurrency f /\
  poolSize f' <= Z.max (poolSize f) (b_concurrency f).




(** The only fields a segment of the [try] block writes: the running pool,
    the generator, and the two host-side records. *)
Definition with_work (r : list Task) (g : Generator) (fl : list Task)
    (inv : list Src) (f : Fibers) : Fibers :=
  {| _runningTaskPool := r; _finishedTaskPool := _finishedTaskPool f;
     _generator := g; _isCompleted := _isCompleted f;
     _isGeneratorConsuming := _isGeneratorConsuming f;
     _allowBackgroundJobRunning := _allowBackgroundJobRunning f;
     _activeBackgroundJob := _activeBackgroundJob f;
     _isFailed := _isFailed f; _isResolvedOrRejected := _isResolvedOrRejected f;
     _fibersPromise := _fibersPromise f; b_concurrency := b_concurrency f;
     b_errorHandler := b_errorHandler f;
     inflight := fl; invoked := inv |}.

(** The flag [_isResolvedOrRejected] accounts for the calls made to the
    settle functions: none while it is clear, exactly one once it is set,
    and that call decided the promise. *)
Definition Accounted (f : Fibers) : Prop :=
  if _isResolvedOrRejected f
  then exists s, calls (_fibersPromise f) = [s] /\ outcome (_fibersPromise f) = Some s
  else calls (_fibersPromise f) = [] /\ outcome (_fibersPromise f) = None.

(** A move keeps the account, and leaves a settled promise as it is. *)
Definition Once (f f' : Fibers) : Prop :=
  Accounted f ->
  Accounted f' /\
  (forall s, promise f = Some s -> _fibersPromise f' = _fibersPromise f).

(** On a source that can be disposed of, a completed engine has an empty
    running pool and a closed source. *)
Definition TornDown (f : Fibers) : Prop :=
  _isCompleted f = true -> hasDispose (_generator f) = true ->
  _runningTaskPool f = [] /\ body (_generator f) = Closed.

(** What a move keeps of a torn-down engine built by the constructor. *)
Definition Tidy (f f' : Fibers) : Prop :=
  hasDispose (_generator f') = hasDispose (_generator f) /\
  fault (_fibersPromise f') = fault (_fibersPromise f) /\
  (_isCompleted f = true -> _isCompleted f' = true) /\
  (TornDown f -> TornDown f').



(** While [completed] is clear, the lifecycle promise has not been settled
    and the run has not failed. *)
Definition InProgress (f : Fibers) : Prop :=
  _isCompleted f = false ->
  _isResolvedOrRejected f = false /\ _isFailed f = false.

Definition Live (f f' : Fibers) : Prop := InProgress f -> InProgress f'.

(** A segment of [next] has not ended the call with done or with an error. *)
Definition goes_on (st : Status) : Prop :=
  match st with
  | Settles (Value _) => True
  | Parks _ => True
  | Diverges => True
  | Settles Done => False
  | Settles (Throws _) => False
  end.

(** ** [Fibers.delay] *)

Module Delay.

(** What [_createAbortError] makes: a [DOMException] named 'AbortError'
    where the host has that constructor, otherwise an [Error] renamed to
    'AbortError'. *)
Inductive AbortError :=
| DOMAbortError
| PlainAbortError.

Definition _createAbortError (hasDOMException : bool) : AbortError :=
  if hasDOMException then DOMAbortError else PlainAbortError.

(** How the returned promise settles: [resolve()] or [reject(error)]. *)
Inductive Outcome :=
| Elapsed
| Aborted (error : AbortError).

(** The promise returned by one call of [delay], and the part of the host
    the call touches.  [timer] is the pending timer with its duration;
    [signalAborted] is [ac.signal.aborted], [None] when no controller was
    passed; [listening] tells whether [onAbort] is registered on
    [ac.signal]. *)
Record World := {
  promise : option Outcome;
  timer : option Z;
  setTimeoutCalls : nat;
  clearTimeoutCalls : nat;
  signalAborted : option bool;
  listening : bool
}.

(** [resolve] and [reject] of the promise: the first call decides. *)
Definition decide (o : Outcome) (w : World) : World :=
  {| promise := match promise w with None => Some o | Some p => Some p end;
     timer := timer w;
     setTimeoutCalls := setTimeoutCalls w;
     clearTimeoutCalls := clearTimeoutCalls w;
     signalAborted := signalAborted w;
     listening := listening w |}.

(** [cleanup]: [clearTimeout(timeoutId)] and
    [ac?.signal.removeEventListener('abort', onAbort)]. *)
Definition cleanup (w : World) : World :=
  {| promise := promise w;
     timer := None;
     setTimeoutCalls := setTimeoutCalls w;
     clearTimeoutCalls := S (clearTimeoutCalls w);
     signalAborted := signalAborted w;
     listening := false |}.

(** [delay(milliseconds, ac)]: the executor of the promise.  [ac] is
    [None] for a missing controller, otherwise the [aborted] flag of its
    signal at the call. *)
Definition delay (hasDOMException : bool) (milliseconds : Z) (ac : option bool) : World :=
  match ac with
  | Some true =>
      {| promise := Some (Aborted (_createAbortError hasDOMException));
         timer := None; setTimeoutCalls := 0; clearTimeoutCalls := 0;
         signalAborted := ac; listening := false |}
  | _ =>
      {| promise := None;
         timer := Some milliseconds; setTimeoutCalls := 1; clearTimeoutCalls := 0;
         signalAborted := ac;
         listening := match ac with Some _ => true | None => false end |}
  end.

(** What can happen after the call: the host runs the timer callback, or
    someone calls [ac.abort()]. *)
Inductive Event := TimerFires | AbortCalled.

(** The callback given to [setTimeout]; the host runs it only for a
    pending timer, which is no longer pending then. *)
Definition fire (w : World) : option World :=
  match timer w with
  | Some _ => Some (decide Elapsed (cleanup w))
  | None => None
  end.

(** [ac.abort()]: a signal that is aborted already does nothing; otherwise
    it becomes aborted and the registered [onAbort] runs. *)
Definition abort (hasDOMException : bool) (w : World) : option World :=
  match signalAborted w with
  | None => None
  | Some true => Some w
  | Some false =>
      let w1 := {| promise := promise w; timer := timer w;
                   setTimeoutCalls := setTimeoutCalls w;
                   clearTimeoutCalls := clearTimeoutCalls w;
                   signalAborted := Some true;
                   listening := listening w |} in
      if listening w
      then Some (decide (Aborted (_createAbortError hasDOMException)) (cleanup w1))
      else Some w1
  end.

Definition step (hasDOMException : bool) (ev : Event) (w : World) : option World :=
  match ev with
  | TimerFires => fire w
  | AbortCalled => abort hasDOMException w
  end.

Fixpoint run (hasDOMException : bool) (evs : list Event) (w : World) : option World :=
  match evs with
  | [] => Some w
  | ev :: rest =>
      match step hasDOMException ev w with
      | Some w1 => run hasDOMException rest w1
      | None => None
      end
  end.

(** Once the promise has settled, no timer is pending and no listener is
    left on the signal. *)
Definition Released (w : World) : Prop :=
  promise w <> None -> timer w = None /\ listening w = false.

End Delay.

(** ** Engines used in the examples *)

(** A factory whose promises fulfil with twice the source. *)
Definition doubles : Src -> Launch :=
  fun s => Promises (Fulfilled (2 * s)).

(** A factory whose promise rejects for the source [k] and fulfils with the
    source otherwise. *)
Definition fails_at (k : Src) : Src -> Launch :=
  fun s => if s =? k then Promises (Rejected (Failure s)) else Promises (Fulfilled s).

(** [Fibers.forEach(1, [10, 20, 30], doubles)] *)
Definition three_items : Fibers :=
  with_concurrency 1
    (blank {| body := _iterator [10; 20; 30] doubles; hasDispose := true |}).

(** [Fibers.for(3, 0, 5, 1, doubles)] *)
Definition five_items_three_wide : Fibers :=
  with_concurrency 3
    (blank {| body := _sequence 0 5 1 doubles; hasDispose := true |}).


(** [Fibers.forEach(2, [0, 1], fails_at 0)] *)
Definition two_items : Fibers :=
  with_concurrency 2
    (blank {| body := _iterator [0; 1] (fails_at 0); hasDispose := true |}).

(** The same engine after [setErrorHandler(() => 'skip')]. *)
Definition first_of_two_fails : Fibers :=
  setErrorHandler (Some (fun _ => Skip)) two_items.

(** [Fibers.forEach(1, [7, 8], fails_at 7)], without a handler. *)
Definition first_fails : Fibers :=
  with_concurrency 1
    (blank {| body := _iterator [7; 8] (fails_at 7); hasDispose := true |}).


(** The two promises of [first_of_two_fails]. *)
Definition unit0 : Task :=
  {| task_id := 0; task_source := 0; task_result := Rejected (Failure 0) |}.
Definition unit1 : Task :=
  {| task_id := 1; task_source := 1; task_result := Fulfilled 1 |}.



(** [Fibers.forEach(1, [7, 8], fails_at 7)] on a host whose generators have
    no [Symbol.dispose], after [setErrorHandler(() => 'stop')]. *)
Definition first_fails_undisposable : Fibers :=
  setErrorHandler (Some (fun _ => Stop))
    (with_concurrency 1
       (blank {| body := _iterator [7; 8] (fails_at 7); hasDispose := false |})).

(** ** How one event changes the engine *)

(** The changes of the engine that an event can make: [step] makes no
    other ([step_move] below). *)
Inductive Move (fuel : nat) : Fibers -> Fibers -> Prop :=
| MoveNone f : Move fuel f f
| MoveNext stage f f' st :
    next fuel stage f = (f', st) -> Move fuel f f'
| MoveOpen f :
    _activeBackgroundJob f = false -> Move fuel f (with_consuming true f)
| MoveStart f f1 st :
    _isGeneratorConsuming f = false ->
    _isCompleted f = false -> _isFailed f = false ->
    _activeBackgroundJob f = false ->
    next fuel Enter (with_background true false f) = (f1, st) ->
    Move fuel f (with_background (_allowBackgroundJobRunning f1) true f1)
| MoveStop f : Move fuel f (stop f)
| MoveReturn f : Move fuel f (fst (_resolveIfNotFailedAndCleanup f))
| MoveThrow e f : Move fuel f (fst (_raiseErrorAndCleanup e f))
| MoveDispose f : Move fuel f (_cleanup f)
| MoveLevel value f : 0 < value -> Move fuel f (with_concurrency value f)
| MoveHandler h f : Move fuel f (with_errorHandler h f)
| MoveSettle t f : In t (inflight f) -> Move fuel f (with_settlement t f)
| MoveJobEnds f : Move fuel f (with_background false false f).

(** The level in force after the events: the last value an assignment to
    [concurrency] was accepted with, [level] if there was none. *)
Fixpoint level_after (level : Z) (evs : list Event) : Z :=
  match evs with
  | [] => level
  | SetConcurrency value :: rest =>
      level_after (if value <=? 0 then level else value) rest
  | _ :: rest => level_after level rest
  end.

(** A segment of [next] leaves the two flags of the consumption protocols
    alone, or clears both (through [_cleanup]). *)
Definition KeepsProtocol (f f' : Fibers) : Prop :=
  (_isGeneratorConsuming f' = _isGeneratorConsuming f /\
   _activeBackgroundJob f' = _activeBackgroundJob f) \/
  (_isGeneratorConsuming f' = false /\ _activeBackgroundJob f' = false).

(** The bookkeeping of the pools: a unit of the running pool is pending or
    in the finished pool; a unit of the finished pool is not pending; every
    unit was made by a factory call counted in [invoked]; no unit is twice
    in the running pool. *)
Definition Tracked (f : Fibers) : Prop :=
  (forall t, In t (_runningTaskPool f) ->
             pool_has t (inflight f) = true \/ pool_has t (_finishedTaskPool f) = true) /\
  (forall t, In t (_finishedTaskPool f) -> pool_has t (inflight f) = false) /\
  (forall t, In t (_runningTaskPool f ++ _finishedTaskPool f ++ inflight f) ->
             (task_id t < length (invoked f))%nat) /\
  NoDup (map task_id (_runningTaskPool f)).

(** The factory calls of an engine made by [forEach] over [items] have been
    made on a prefix of [items], and the generator holds the rest unless it
    is closed. *)
Definition PulledInOrder (items : list Src) (fn : Src -> Launch) (f : Fibers) : Prop :=
  exists rest,
    items = invoked f ++ rest /\
    (body (_generator f) = Iterator rest fn \/ body (_generator f) = Closed).

(** The indices of [Fibers.for] stay among the integers the host adds
    exactly: the step is not negative, the start is not below [-2^53], and
    [end + step] is not above [2^53]. *)
Definition ExactRange (start end_ step : Z) : Prop :=
  - 2 ^ 53 <= start /\ 0 <= step /\ end_ + step <= 2 ^ 53.

(** The factory calls of an engine made by [for] from [start] by [step]
    below [end_]: the [k]-th call was made on [start + k * step], which is
    below [end_], and the generator is at the next index unless it is
    closed. *)
Definition CountedInOrder (start end_ step : Z) (fn : Src -> Launch) (f : Fibers) : Prop :=
  invoked f = map (fun k => start + Z.of_nat k * step) (seq 0 (length (invoked f))) /\
  (forall s, In s (invoked f) -> s < end_) /\
  (body (_generator f)
     = Sequence (start + Z.of_nat (length (invoked f)) * step) end_ step fn \/
   body (_generator f) = Closed).


(** A rejected lifecycle promise goes with [failed]; stated together with
    [Accounted], which it needs to be kept by the moves. *)
Definition Blamed (f : Fibers) : Prop :=
  Accounted f /\
  forall e, promise f = Some (RejectedWith e) -> _isFailed f = true.

(** ** A consumer, a host, and the plain loop *)

(** The generator yields the items of [items] made with [fn], in order, and
    is done after them. *)
Fixpoint yields (fn : Src -> Launch) (items : list Src) (g : Generator) : Prop :=
  match items with
  | [] => fst (gen_next g) = None
  | x :: rest =>
      exists g', gen_next g = (Some {| source := x; factory := fn |}, g') /\
                 yields fn rest g'
  end.

(** The indices [_sequence] visits when [step] is positive. *)
Definition indices (start end_ step : Z) : list Src :=
  map (fun j => start + Z.of_nat j * step)
      (seq 0 (Z.to_nat ((end_ - start + step - 1) / step))).

(** One turn of the host on the oldest suspended coroutine: a race that is
    still open is settled by the oldest promise it waits for, any other
    coroutine continues.  With nothing suspended the turn does nothing. *)
Definition host_turn (fuel : nat) (c : Config) : option Config :=
  match parked c with
  | [] => Some c
  | InNext _ (AwaitRace (t :: _) None _) :: _ => step fuel (Settle (task_id t)) c
  | _ :: _ => step fuel (Resume 0) c
  end.

Fixpoint host_turns (n fuel : nat) (c : Config) : option Config :=
  match n with
  | O => Some c
  | S n' =>
      match host_turn fuel c with
      | Some c1 => host_turns n' fuel c1
      | None => None
      end
  end.

(** The consumer of [for await (const value of fibers) { }] waiting for the
    call of [next] it has made: the host takes [turns] turns, after which
    the call must have settled; on a value the loop goes round, on done or
    on an error it is left. *)
Definition await_call (loop : Config -> option Config) (turns fuel : nat) (c : Config)
  : option Config :=
  match host_turns turns fuel c with
  | Some c1 =>
      match parked c1 with
      | [] =>
          match last (results c1) Done with
          | Value _ => loop c1
          | _ => Some c1
          end
      | _ :: _ => None
      end
  | None => None
  end.

(** At most [rounds] rounds of the loop. *)
Fixpoint for_await (rounds turns fuel : nat) (c : Config) : option Config :=
  match rounds with
  | O => None
  | S rounds' =>
      match step fuel CallNext c with
      | Some c1 => await_call (for_await rounds' turns fuel) turns fuel c1
      | None => None
      end
  end.

(** [for await (const value of fibers) { }]: [None] when opening the
    iteration throws, or when the loop is not over within the rounds and
    turns given. *)
Definition forAwait (rounds turns fuel : nat) (f : Fibers) : option Config :=
  match asyncIterator f with
  | inr f1 => for_await rounds turns fuel (idle f1)
  | inl _ => None
  end.

(** [fibers.start()], after which the host takes [turns] turns. *)
Definition inBackground (turns fuel : nat) (f : Fibers) : option Config :=
  match step fuel CallStart (idle f) with
  | Some c1 => host_turns turns fuel c1
  | None => None
  end.

(** What the handler [h] says of [e]. *)
Definition verdict (h : option FiberErrorHandler) (e : Err) : Verdict :=
  match h with
  | Some handler => handler e
  | None => Default
  end.

(** The plain loop over [items], one unit after the other: what a consumer
    sees of it, step by step. *)
Fixpoint sequential (fn : Src -> Launch) (h : option FiberErrorHandler) (items : list Src)
  : list IteratorResult :=
  match items with
  | [] => [Done]
  | x :: rest =>
      match fn x with
      | Promises (Fulfilled v) => Value v :: sequential fn h rest
      | Promises (Rejected e) | Raises e =>
          match verdict h e with
          | Skip => sequential fn h rest
          | Stop => [Done]
          | Default => [Throws e]
          end
      end
  end.

(** The items the plain loop calls the factory on. *)
Fixpoint visited (fn : Src -> Launch) (h : option FiberErrorHandler) (items : list Src)
  : list Src :=
  match items with
  | [] => []
  | x :: rest =>
      x :: match fn x with
           | Promises (Fulfilled _) => visited fn h rest
           | Promises (Rejected e) | Raises e =>
               match verdict h e with
               | Skip => visited fn h rest
               | _ => []
               end
           end
  end.

(** How the run ends, given the last step of the loop: the outcome of the
    lifecycle promise and the value of [failed]. *)
Definition ending (r : IteratorResult) : Settlement * bool :=
  match r with
  | Throws e => (RejectedWith e, true)
  | _ => (Resolved, false)
  end.

(** An engine at concurrency level 1 that has neither completed nor failed,
    with its lifecycle promise pending. *)
Definition single (g : Generator) (h : option FiberErrorHandler) (cons allow job : bool)
    (r fin fl : list Task) (inv : list Src) : Fibers :=
  {| _runningTaskPool := r; _finishedTaskPool := fin;
     _generator := g; _isCompleted := false;
     _isGeneratorConsuming := cons;
     _allowBackgroundJobRunning := allow;
     _activeBackgroundJob := job;
     _isFailed := false; _isResolvedOrRejected := false;
     _fibersPromise := {| outcome := None; calls := []; fault := None |};
     b_concurrency := 1;
     b_errorHandler := h;
     inflight := fl; invoked := inv |}.

(** The promise the factory returns for [x] when [inv] lists the calls made
    before. *)
Definition unit_of (inv : list Src) (x : Src) (o : Settled) : Task :=
  {| task_id := length inv; task_source := x; task_result := o |}.

(** The engine after a run whose last step was [r], with the factory called
    on [called]. *)
Definition Ended (f : Fibers) (r : IteratorResult) (called : list Src) : Prop :=
  invoked f = called /\
  completed f = true /\
  _runningTaskPool f = [] /\
  _finishedTaskPool f = [] /\
  promise f = Some (fst (ending r)) /\
  failed f = snd (ending r).

(** The loop is over: what the consumer has seen, and the engine. *)
Definition Over (c : Config) (seen : list IteratorResult) (called : list Src) : Prop :=
  results c = seen /\
  parked c = [] /\
  _isGeneratorConsuming (engine c) = false /\
  Ended (engine c) (last seen Done) called.

(** The background job is over. *)
Definition JobOver (c : Config) (r : IteratorResult) (called : list Src) : Prop :=
  results c = [] /\
  parked c = [] /\
  started (engine c) = false /\
  Ended (engine c) r called.

(** A call of [next] by the consumer between two units, followed by the
    rest of the loop. *)
Definition pending (loop : Config -> option Config) (turns fuel fuel' : nat)
    (rs : list IteratorResult) (f : Fibers) : option Config :=
  match land Consumer [] rs (next fuel' Enter f) with
  | Some c1 => await_call loop turns fuel c1
  | None => None
  end.

(** [start()] stores the job promise. *)
Definition job_stored (c : Config) : Config :=
  with_engine (with_background (_allowBackgroundJobRunning (engine c)) true (engine c)) c.

(** A call of [next] by the background job between two units, followed by
    the turns of the host; [first] tells whether the call is the one made
    inside [start()]. *)
Definition pending_job (first : bool) (turns fuel fuel' : nat) (f : Fibers)
  : option Config :=
  match land Background [] [] (next fuel' Enter f) with
  | Some c1 => host_turns turns fuel (if first then job_stored c1 else c1)
  | None => None
  end.

(** ** Where the values come from *)

(** The unit [t] is what the factory [fn] returned for a source it was
    called on. *)
Definition MadeBy (fn : Src -> Launch) (called : list Src) (t : Task) : Prop :=
  In (task_source t) called /\ fn (task_source t) = Promises (task_result t).

(** The items of the generator carry the factory [fn]. *)
Definition FromFactory (fn : Src -> Launch) (g : Generator) : Prop :=
  match body g with
  | Sequence _ _ _ f => f = fn
  | Iterator _ f => f = fn
  | Closed => True
  end.

Definition option_tasks (o : option Task) : list Task :=
  match o with
  | Some t => [t]
  | None => []
  end.

(** The promises a suspended call of [next] holds on to. *)
Definition await_tasks (a : Await) : list Task :=
  match a with
  | AwaitRace snapshot winner activeTask =>
      snapshot ++ option_tasks winner ++ option_tasks activeTask
  | AwaitYield activeTask => option_tasks activeTask
  | AwaitTask activeTask => [activeTask]
  end.

Definition stage_tasks (s : Stage) : list Task :=
  match s with
  | Enter => []
  | AfterRace winner activeTask => winner :: option_tasks activeTask
  | AfterYield activeTask => option_tasks activeTask
  | AfterTask activeTask => [activeTask]
  end.

Definition HonestEngine (fn : Src -> Launch) (f : Fibers) : Prop :=
  FromFactory fn (_generator f) /\
  forall t, In t (_runningTaskPool f ++ _finishedTaskPool f ++ inflight f) ->
            MadeBy fn (invoked f) t.

(** A value handed to the consumer is what the promise of a unit fulfilled
    with. *)
Definition HonestResult (fn : Src -> Launch) (called : list Src) (r : IteratorResult)
  : Prop :=
  match r with
  | Value v => exists x, In x called /\ fn x = Promises (Fulfilled v)
  | _ => True
  end.

Definition HonestStatus (fn : Src -> Launch) (called : list Src) (st : Status) : Prop :=
  match st with
  | Parks a => forall t, In t (await_tasks a) -> MadeBy fn called t
  | Settles r => HonestResult fn called r
  | Diverges => True
  end.

Definition HonestParked (fn : Src -> Launch) (called : list Src) (p : Parked) : Prop :=
  match p with
  | InNext _ a => forall t, In t (await_tasks a) -> MadeBy fn called t
  | InBackground r => HonestResult fn called r
  end.

Definition Honest (fn : Src -> Launch) (c : Config) : Prop :=
  HonestEngine fn (engine c) /\
  Forall (HonestParked fn (invoked (engine c))) (parked c) /\
  Forall (HonestResult fn (invoked (engine c))) (results c).

(** The promise the factory returns for [x] fulfils. *)
Definition fulfils (fn : Src -> Launch) (x : Src) : Prop :=
  exists v, fn x = Promises (Fulfilled v).
(** * Properties *)

(** ** How the engine moves

    Every segment of [next], and every event, changes the engine by a
    handful of moves only.  A relation that is closed under them relates the
    engine before and after. *)

Section Moves.

Variable R : Fibers -> Fibers -> Prop.

Hypothesis R_refl : forall f, R f f.
Hypothesis R_trans : forall f g h, R f g -> R g h -> R f h.
Hypothesis R_refill :
  forall f, R f (fst (fst (refill (Z.to_nat (b_concurrency f)) (b_concurrency f) None f))).
Hypothesis R_delete :
  forall t f, R f (with_pools (pool_delete t (_runningTaskPool f))
                              (pool_delete t (_finishedTaskPool f)) f).
Hypothesis R_resolve : forall f, R f (fst (_resolveIfNotFailedAndCleanup f)).
Hypothesis R_raise : forall e f, R f (fst (_raiseErrorAndCleanup e f)).

Lemma claim_moves activeTask f f1 a out :
  claim activeTask f = (f1, a, out) -> f1 = f.
Proof.
  unfold claim. destruct (_finishedTaskPool f); intros H; inversion H; reflexivity.
Qed.

Lemma try_block_moves stage f f1 a out :
  try_block stage f = (f1, a, out) -> R f f1.
Proof.
  destruct stage as [|w act|act|t]; simpl.
  - pose proof (R_refill f) as M.
    destruct (refill (Z.to_nat (b_concurrency f)) (b_concurrency f) None f)
      as [[f0 act] thrown]; simpl in M.
    destruct thrown.
    + intros H; inversion H; subst; exact M.
    + destruct (_runningTaskPool f0); intros H; inversion H; subst; exact M.
  - destruct (task_result w).
    + intros H. apply claim_moves in H. subst. apply R_refl.
    + intros H; inversion H; subst. apply R_refl.
  - intros H. apply claim_moves in H. subst. apply R_refl.
  - destruct (task_result t); intros H; inversion H; subst; apply R_refl.
Qed.

Lemma finally_block_moves activeTask loopFinished f f1 bad :
  finally_block activeTask loopFinished f = (f1, bad) -> R f f1.
Proof.
  unfold finally_block.
  set (f0 := match activeTask with Some t => _ | None => f end).
  assert (M : R f f0) by (subst f0; destruct activeTask; auto).
  destruct loopFinished.
  - intros H. eapply R_trans; [exact M|].
    pose proof (R_resolve f0) as M2. rewrite H in M2. exact M2.
  - intros H; inversion H; subst; exact M.
Qed.

Lemma after_try_moves again f1 activeTask out f2 st :
  (forall x y s, again x = (y, s) -> R x y) ->
  after_try again f1 activeTask out = (f2, st) -> R f1 f2.
Proof.
  intros A. unfold after_try. destruct out as [a|v| |e].
  - intros H; inversion H; subst; apply R_refl.
  - destruct (finally_block activeTask false f1) as [f3 bad] eqn:F.
    intros H; inversion H; subst. eapply finally_block_moves; eauto.
  - destruct (finally_block activeTask true f1) as [f3 bad] eqn:F.
    intros H; inversion H; subst. eapply finally_block_moves; eauto.
  - destruct (consult f1 e).
    + destruct (finally_block activeTask true f1) as [f3 bad] eqn:F.
      intros H; inversion H; subst. eapply finally_block_moves; eauto.
    + destruct (finally_block activeTask false f1) as [f3 bad] eqn:F.
      intros H. eapply R_trans; [eapply finally_block_moves; eauto|].
      eapply A; eauto.
    + destruct (finally_block activeTask false (fst (_raiseErrorAndCleanup e f1)))
        as [f3 bad] eqn:F.
      intros H; inversion H; subst.
      eapply R_trans; [apply R_raise|]. eapply finally_block_moves; eauto.
Qed.

Lemma next_moves fuel : forall stage f f' st,
  next fuel stage f = (f', st) -> R f f'.
Proof.
  induction fuel as [|fuel IH]; intros stage f f' st H; simpl in H;
    destruct (try_block stage f) as [[f1 a] out] eqn:T;
    (eapply R_trans; [eapply try_block_moves; eauto|]);
    (eapply after_try_moves; [|exact H]).
  - intros x y s E; inversion E; subst; apply R_refl.
  - intros x y s E. eapply IH; eauto.
Qed.

Hypothesis R_consuming : forall f, R f (with_consuming true f).
Hypothesis R_background : forall a j f, R f (with_background a j f).
Hypothesis R_handler : forall h f, R f (with_errorHandler h f).
Hypothesis R_settlement : forall t f, R f (with_settlement t f).
Hypothesis R_cleanup : forall f, R f (_cleanup f).

Lemma land_moves who ps rs f f1 st c :
  R f f1 -> land who ps rs (f1, st) = Some c -> R f (engine c).
Proof.
  unfold land; simpl. intros M.
  destruct st as [r|a|]; [destruct who| |]; intros H; inversion H; subst; simpl; exact M.
Qed.

Lemma runInBackground_moves fuel ps rs f c :
  _runInBackground fuel ps rs f = Some c -> R f (engine c).
Proof.
  unfold _runInBackground.
  destruct (_allowBackgroundJobRunning f && negb (_isFailed f) && negb (_isCompleted f)).
  - destruct (next fuel Enter f) as [f1 st] eqn:N. intros H.
    eapply land_moves; [|exact H]. eapply next_moves; eauto.
  - intros H; inversion H; subst; simpl. apply R_background.
Qed.

Lemma start_moves fuel c c1 s :
  start fuel c = Some (c1, s) -> R (engine c) (engine c1).
Proof.
  unfold start.
  destruct (_isGeneratorConsuming (engine c)); [intros H; inversion H; subst; apply R_refl|].
  destruct (_isCompleted (engine c) || _isFailed (engine c));
    [intros H; inversion H; subst; apply R_refl|].
  destruct (_activeBackgroundJob (engine c)); [intros H; inversion H; subst; apply R_refl|].
  destruct (_runInBackground fuel (parked c) (results c)
              (with_background true false (engine c))) as [c2|] eqn:B; [|discriminate].
  intros H; inversion H; subst; simpl.
  eapply R_trans; [apply R_background|].
  eapply R_trans; [eapply runInBackground_moves; eauto|]. apply R_background.
Qed.

(** Every event but a change of the concurrency level. *)
Lemma step_moves fuel ev c c1 :
  (forall value, ev <> SetConcurrency value) ->
  step fuel ev c = Some c1 -> R (engine c) (engine c1).
Proof.
  intros NS. destruct ev; simpl.
  - destruct (next fuel Enter (engine c)) as [f1 st] eqn:N. intros H.
    eapply land_moves; [|exact H]. eapply next_moves; eauto.
  - unfold asyncIterator. destruct (_activeBackgroundJob (engine c));
      intros H; inversion H; subst; simpl; auto.
  - destruct (start fuel c) as [[c2 s]|] eqn:S; [|discriminate].
    intros H; inversion H; subst. eapply start_moves; eauto.
  - intros H; inversion H; subst; simpl. apply R_background.
  - unfold return_.
    pose proof (R_resolve (engine c)) as M.
    destruct (_resolveIfNotFailedAndCleanup (engine c)) as [f1 bad].
    intros H; inversion H; subst; simpl. exact M.
  - unfold throw.
    pose proof (R_raise e (engine c)) as M.
    destruct (_raiseErrorAndCleanup e (engine c)) as [f1 bad].
    intros H; inversion H; subst; simpl. exact M.
  - intros H; inversion H; subst; simpl. apply R_cleanup.
  - exfalso. eapply NS; reflexivity.
  - intros H; inversion H; subst; simpl. apply R_handler.
  - destruct (find (fun t => Nat.eqb (task_id t) id) (inflight (engine c)));
      [|discriminate].
    intros H; inversion H; subst; simpl. apply R_settlement.
  - destruct (nth_error (parked c) k) as [[who [snap [w|] act|act|t]|[v| |e]]|];
      try discriminate.
    + destruct (next fuel (AfterRace w act) (engine c)) as [f1 st] eqn:N. intros H.
      eapply land_moves; [|exact H]. eapply next_moves; eauto.
    + destruct (next fuel (AfterYield act) (engine c)) as [f1 st] eqn:N. intros H.
      eapply land_moves; [|exact H]. eapply next_moves; eauto.
    + destruct (next fuel (AfterTask t) (engine c)) as [f1 st] eqn:N. intros H.
      eapply land_moves; [|exact H]. eapply next_moves; eauto.
    + apply runInBackground_moves.
    + intros H; inversion H; subst; simpl. apply R_background.
    + intros H; inversion H; subst; simpl. apply R_background.
Qed.

Hypothesis R_concurrency : forall value f, R f (with_concurrency value f).

Lemma step_moves_all fuel ev c c1 :
  step fuel ev c = Some c1 -> R (engine c) (engine c1).
Proof.
  destruct ev; try (apply step_moves; intros; discriminate).
  simpl. unfold set_concurrency.
  destruct (value <=? 0); intros H; inversion H; subst; simpl; auto.
Qed.

Lemma run_moves fuel : forall evs c c1,
  run fuel evs c = Some c1 -> R (engine c) (engine c1).
Proof.
  induction evs as [|ev evs IH]; intros c c1 H; simpl in H.
  - inversion H; subst; apply R_refl.
  - destruct (step fuel ev c) as [c2|] eqn:E; [|discriminate].
    eapply R_trans; [eapply step_moves_all; eauto|]. apply IH; assumption.
Qed.

End Moves.

(** ** The size of the running pool *)

Lemma pool_delete_length t pool :
  (length (pool_delete t pool) <= length pool)%nat.
Proof. apply filter_length_le. Qed.

Lemma refill_bounded fuel : forall taskSize activeTask f,
  let f' := fst (fst (refill fuel taskSize activeTask f)) in
  b_concurrency f' = b_concurrency f /\
  poolSize f' <= Z.max (poolSize f) taskSize.
Proof.
  induction fuel as [|fuel IH]; intros taskSize activeTask f; simpl.
  - split; [reflexivity|lia].
  - destruct (Z.of_nat (length (_runningTaskPool f)) <? taskSize) eqn:L.
    + destruct (gen_next (_generator f)) as [[item|] g].
      * destruct (factory item (source item)) as [e|o]; simpl.
        -- unfold poolSize; simpl. split; [reflexivity|lia].
        -- match goal with |- context [refill fuel taskSize ?a ?x] =>
             destruct (IH taskSize a x) as [C S] end.
           split; [rewrite C; reflexivity|].
           apply Z.ltb_lt in L.
           unfold poolSize in *; simpl in S.
           rewrite length_app in S; simpl in S. lia.
      * unfold poolSize; simpl. split; [reflexivity|lia].
    + simpl. split; [reflexivity|lia].
Qed.

(** The fuel [try_block] gives to the loop is enough: more of it changes
    nothing. *)
Lemma refill_fuel fuel : forall extra taskSize activeTask f,
  (Z.to_nat (taskSize - poolSize f) <= fuel)%nat ->
  refill (fuel + extra) taskSize activeTask f = refill fuel taskSize activeTask f.
Proof.
  induction fuel as [|fuel IH]; intros extra taskSize activeTask f L.
  - destruct extra as [|extra]; [reflexivity|]. simpl.
    destruct (Z.of_nat (length (_runningTaskPool f)) <? taskSize) eqn:T; [|reflexivity].
    apply Z.ltb_lt in T. unfold poolSize in L. lia.
  - simpl.
    destruct (Z.of_nat (length (_runningTaskPool f)) <? taskSize) eqn:T; [|reflexivity].
    destruct (gen_next (_generator f)) as [[item|] g]; [|reflexivity].
    destruct (factory item (source item)) as [e|o]; [reflexivity|].
    apply IH. unfold poolSize in *; simpl. rewrite length_app; simpl.
    apply Z.ltb_lt in T. lia.
Qed.

Lemma refill_fuel_enough extra f :
  refill (Z.to_nat (b_concurrency f) + extra) (b_concurrency f) None f
  = refill (Z.to_nat (b_concurrency f)) (b_concurrency f) None f.
Proof. apply refill_fuel. unfold poolSize. lia. Qed.

Lemma Bounded_refl f : Bounded f f.
Proof. unfold Bounded. split; [reflexivity|lia]. Qed.

Lemma Bounded_trans f g h : Bounded f g -> Bounded g h -> Bounded f h.
Proof. unfold Bounded. intros [C1 S1] [C2 S2]. rewrite C1 in *. split; [assumption|lia]. Qed.

Lemma Bounded_refill f :
  Bounded f (fst (fst (refill (Z.to_nat (b_concurrency f)) (b_concurrency f) None f))).
Proof. apply refill_bounded. Qed.

Lemma Bounded_delete t f :
  Bounded f (with_pools (pool_delete t (_runningTaskPool f))
                        (pool_delete t (_finishedTaskPool f)) f).
Proof.
  unfold Bounded, poolSize; simpl. split; [reflexivity|].
  pose proof (pool_delete_length t (_runningTaskPool f)). lia.
Qed.

Lemma Bounded_cleanup f : Bounded f (_cleanup f).
Proof. unfold Bounded, poolSize; simpl. split; [reflexivity|lia]. Qed.

Lemma Bounded_resolve f : Bounded f (fst (_resolveIfNotFailedAndCleanup f)).
Proof.
  unfold _resolveIfNotFailedAndCleanup.
  destruct (_isResolvedOrRejected f); simpl;
    unfold Bounded, poolSize; simpl; (split; [reflexivity|lia]).
Qed.

Lemma Bounded_raise e f : Bounded f (fst (_raiseErrorAndCleanup e f)).
Proof.
  unfold _raiseErrorAndCleanup; simpl.
  destruct (_isResolvedOrRejected f); simpl;
    unfold Bounded, poolSize; simpl; (split; [reflexivity|lia]).
Qed.

Lemma step_bounded fuel ev c c1 :
  (forall value, ev <> SetConcurrency value) ->
  step fuel ev c = Some c1 -> Bounded (engine c) (engine c1).
Proof.
  apply step_moves.
  - apply Bounded_refl.
  - apply Bounded_trans.
  - apply Bounded_refill.
  - apply Bounded_delete.
  - apply Bounded_resolve.
  - apply Bounded_raise.
  - intros f; unfold Bounded, poolSize; simpl; split; [reflexivity|lia].
  - intros a j f; unfold Bounded, poolSize; simpl; split; [reflexivity|lia].
  - intros h f; unfold Bounded, poolSize; simpl; split; [reflexivity|lia].
  - intros t f; unfold Bounded, poolSize; simpl; split; [reflexivity|lia].
  - apply Bounded_cleanup.
Qed.

Lemma step_set_concurrency fuel value c c1 :
  step fuel (SetConcurrency value) c = Some c1 ->
  poolSize (engine c1) = poolSize (engine c) /\
  b_concurrency (engine c1) =
    (if value <=? 0 then b_concurrency (engine c) else value).
Proof.
  simpl. unfold set_concurrency.
  destruct (value <=? 0); intros H; inversion H; subst; simpl; auto.
Qed.



Lemma Fibers_new_level concurrency g f0 :
  Fibers_new concurrency g = inr f0 ->
  0 < concurrency /\ f0 = with_concurrency concurrency (blank g).
Proof.
  unfold Fibers_new, set_concurrency.
  destruct (concurrency <=? 0) eqn:L; [discriminate|].
  intros H; inversion H; subst. apply Z.leb_gt in L. auto.
Qed.


(** ** What the [try] block writes *)

Lemma with_work_self f :
  f = with_work (_runningTaskPool f) (_generator f) (inflight f) (invoked f) f.
Proof. destruct f; reflexivity. Qed.

Lemma gen_next_hasDispose g : hasDispose (snd (gen_next g)) = hasDispose g.
Proof.
  unfold gen_next. destruct (body g) as [i e s f|[|x rest] f|]; simpl; try reflexivity.
  destruct (i <? e); reflexivity.
Qed.

Lemma refill_shape fuel : forall taskSize activeTask f,
  let f' := fst (fst (refill fuel taskSize activeTask f)) in
  f' = with_work (_runningTaskPool f') (_generator f') (inflight f') (invoked f') f /\
  hasDispose (_generator f') = hasDispose (_generator f).
Proof.
  induction fuel as [|fuel IH]; intros taskSize activeTask f; simpl.
  - split; [apply with_work_self|reflexivity].
  - destruct (Z.of_nat (length (_runningTaskPool f)) <? taskSize).
    + pose proof (gen_next_hasDispose (_generator f)) as D.
      destruct (gen_next (_generator f)) as [[item|] g]; simpl in D.
      * destruct (factory item (source item)) as [e|o]; simpl.
        -- split; [reflexivity|exact D].
        -- match goal with |- context [refill fuel taskSize ?a ?x] =>
             destruct (IH taskSize a x) as [S H] end.
           split; [|rewrite H; exact D].
           rewrite S at 1. reflexivity.
      * simpl. split; [reflexivity|exact D].
    + simpl. split; [apply with_work_self|reflexivity].
Qed.

Lemma try_block_shape stage f f1 a out :
  try_block stage f = (f1, a, out) ->
  f1 = with_work (_runningTaskPool f1) (_generator f1) (inflight f1) (invoked f1) f /\
  hasDispose (_generator f1) = hasDispose (_generator f).
Proof.
  destruct stage as [|w act|act|t]; simpl.
  - pose proof (refill_shape (Z.to_nat (b_concurrency f)) (b_concurrency f) None f) as M.
    destruct (refill (Z.to_nat (b_concurrency f)) (b_concurrency f) None f)
      as [[f0 act] thrown]; simpl in M.
    destruct thrown.
    + intros H; inversion H; subst; exact M.
    + intros H.
      assert (E : f1 = f0) by (destruct (_runningTaskPool f0); inversion H; reflexivity).
      subst. exact M.
  - destruct (task_result w).
    + intros H. apply claim_moves in H. subst. split; [apply with_work_self|reflexivity].
    + intros H; inversion H; subst. split; [apply with_work_self|reflexivity].
  - intros H. apply claim_moves in H. subst. split; [apply with_work_self|reflexivity].
  - destruct (task_result t); intros H; inversion H; subst;
      (split; [apply with_work_self|reflexivity]).
Qed.

(** ** The lifecycle promise settles once *)

Lemma Once_same f f' :
  _isResolvedOrRejected f' = _isResolvedOrRejected f ->
  _fibersPromise f' = _fibersPromise f ->
  Once f f'.
Proof.
  unfold Once, Accounted. intros F P A. rewrite F, P. auto.
Qed.

Lemma Once_refl f : Once f f.
Proof. apply Once_same; reflexivity. Qed.

Lemma Once_trans f g h : Once f g -> Once g h -> Once f h.
Proof.
  unfold Once. intros M1 M2 A.
  destruct (M1 A) as [Ag K1]. destruct (M2 Ag) as [Ah K2].
  split; [exact Ah|].
  intros s S. rewrite <- (K1 s S). apply (K2 s).
  unfold promise. rewrite (K1 s S). exact S.
Qed.

Lemma Once_refill f :
  Once f (fst (fst (refill (Z.to_nat (b_concurrency f)) (b_concurrency f) None f))).
Proof.
  destruct (refill_shape (Z.to_nat (b_concurrency f)) (b_concurrency f) None f) as [S _].
  apply Once_same; rewrite S; reflexivity.
Qed.

Lemma Once_resolve f : Once f (fst (_resolveIfNotFailedAndCleanup f)).
Proof.
  unfold _resolveIfNotFailedAndCleanup.
  destruct (_isResolvedOrRejected f) eqn:F.
  - apply Once_same; simpl; auto.
  - unfold Once, Accounted, promise. rewrite F. simpl. intros [C O]. rewrite C, O.
    split; [eexists; split; reflexivity|discriminate].
Qed.

Lemma Once_raise e f : Once f (fst (_raiseErrorAndCleanup e f)).
Proof.
  unfold _raiseErrorAndCleanup. simpl.
  destruct (_isResolvedOrRejected f) eqn:F.
  - apply Once_same; simpl; auto.
  - unfold Once, Accounted, promise. rewrite F. simpl. intros [C O]. rewrite C, O.
    split; [eexists; split; reflexivity|discriminate].
Qed.

Lemma run_once fuel evs c c1 :
  run fuel evs c = Some c1 -> Once (engine c) (engine c1).
Proof.
  apply run_moves.
  - apply Once_refl.
  - apply Once_trans.
  - apply Once_refill.
  - intros; apply Once_same; reflexivity.
  - apply Once_resolve.
  - apply Once_raise.
  - intros; apply Once_same; reflexivity.
  - intros; apply Once_same; reflexivity.
  - intros; apply Once_same; reflexivity.
  - intros; apply Once_same; reflexivity.
  - intros; apply Once_same; reflexivity.
  - intros; apply Once_same; reflexivity.
Qed.

Lemma Accounted_new concurrency g f0 :
  Fibers_new concurrency g = inr f0 -> Accounted f0.
Proof.
  intros New. apply Fibers_new_level in New. destruct New as [_ ->].
  unfold Accounted; simpl. auto.
Qed.

(** C3: along every run of an engine built by the constructor, the settle
    functions of the lifecycle promise are called at most once in all; and
    once the promise has settled with [s], whatever happens next -- further
    steps, early exit through [return], injected errors through [throw],
    disposal, [start] and [stop] -- leaves it settled with [s] and makes no
    further call to them.  In particular the two methods that settle it do
    not touch it again. *)
Theorem lifecycle_settles_at_most_once :
  forall fuel concurrency g f0 evs c,
    Fibers_new concurrency g = inr f0 ->
    run fuel evs (idle f0) = Some c ->
    (length (calls (_fibersPromise (engine c))) <= 1)%nat /\
    forall s,
      promise (engine c) = Some s ->
      calls (_fibersPromise (engine c)) = [s] /\
      (forall evs' c',
          run fuel evs' c = Some c' ->
          promise (engine c') = Some s /\
          calls (_fibersPromise (engine c')) = [s]) /\
      _fibersPromise (fst (_resolveIfNotFailedAndCleanup (engine c)))
        = _fibersPromise (engine c) /\
      (forall e, _fibersPromise (fst (_raiseErrorAndCleanup e (engine c)))
                 = _fibersPromise (engine c)).
Proof.
  intros fuel concurrency g f0 evs c New Run.
  pose proof (Accounted_new _ _ New) as A0.
  destruct (run_once _ _ _ Run A0) as [A _]. simpl in A.
  assert (L : (length (calls (_fibersPromise (engine c))) <= 1)%nat).
  { unfold Accounted in A. destruct (_isResolvedOrRejected (engine c)).
    - destruct A as [s [C _]]. rewrite C. simpl. lia.
    - destruct A as [C _]. rewrite C. simpl. lia. }
  split; [exact L|].
  intros s S.
  assert (C : calls (_fibersPromise (engine c)) = [s]).
  { unfold Accounted, promise in *. destruct (_isResolvedOrRejected (engine c)).
    - destruct A as [s' [C O]]. rewrite O in S. inversion S; subst. exact C.
    - destruct A as [_ O]. rewrite O in S. discriminate. }
  split; [exact C|]. split; [|split].
  - intros evs' c' Run'.
    destruct (run_once _ _ _ Run' A) as [_ K].
    unfold promise. rewrite (K s S). split; [exact S|exact C].
  - destruct (Once_resolve (engine c) A) as [_ K]. apply (K s S).
  - intros e. destruct (Once_raise e (engine c) A) as [_ K]. apply (K s S).
Qed.

(** ** A step over a source that has nothing left *)

Lemma next_unfold fuel stage f :
  next fuel stage f =
  let '(f1, activeTask, out) := try_block stage f in
  after_try (match fuel with
             | O => fun f' => (f', Diverges)
             | S fuel' => fun f' => next fuel' Enter f'
             end) f1 activeTask out.
Proof. destruct fuel; reflexivity. Qed.



Lemma sequence_drained dispose start end_ step fn :
  end_ <= start ->
  fst (gen_next {| body := _sequence start end_ step fn; hasDispose := dispose |}) = None.
Proof.
  intros L. unfold gen_next, _sequence; simpl.
  destruct (start <? end_) eqn:E; [apply Z.ltb_lt in E; lia|reflexivity].
Qed.

Lemma iterator_drained dispose fn :
  fst (gen_next {| body := _iterator [] fn; hasDispose := dispose |}) = None.
Proof. reflexivity. Qed.


(** ** Errors raised in a step *)







(** ** After completion *)

Lemma gen_dispose_hasDispose g : hasDispose (gen_dispose g) = hasDispose g.
Proof. unfold gen_dispose. destruct (hasDispose g) eqn:D; [reflexivity|exact D]. Qed.

Lemma gen_dispose_closed g : hasDispose g = true -> body (gen_dispose g) = Closed.
Proof. unfold gen_dispose. intros ->. reflexivity. Qed.

Lemma Tidy_same f f' :
  _generator f' = _generator f ->
  _runningTaskPool f' = _runningTaskPool f ->
  _isCompleted f' = _isCompleted f ->
  _fibersPromise f' = _fibersPromise f ->
  Tidy f f'.
Proof.
  unfold Tidy, TornDown. intros -> -> -> ->. auto.
Qed.

Lemma Tidy_refl f : Tidy f f.
Proof. apply Tidy_same; reflexivity. Qed.

Lemma Tidy_trans f g h : Tidy f g -> Tidy g h -> Tidy f h.
Proof.
  unfold Tidy. intros [D1 [F1 [C1 T1]]] [D2 [F2 [C2 T2]]].
  split; [congruence|]. split; [congruence|]. split; [auto|].
  intros T. apply T2, T1, T.
Qed.

Lemma Tidy_cleanup f f' :
  _generator f' = _generator f ->
  fault (_fibersPromise f') = fault (_fibersPromise f) ->
  Tidy f (_cleanup f').
Proof.
  unfold Tidy, TornDown. simpl. intros -> Fa.
  split; [apply gen_dispose_hasDispose|]. split; [exact Fa|]. split; [auto|].
  intros _ _ D. split; [reflexivity|].
  rewrite gen_dispose_hasDispose in D. apply gen_dispose_closed. exact D.
Qed.

Lemma refill_closed fuel taskSize activeTask f :
  body (_generator f) = Closed ->
  _runningTaskPool f = [] ->
  let f' := fst (fst (refill fuel taskSize activeTask f)) in
  _runningTaskPool f' = [] /\ body (_generator f') = Closed.
Proof.
  intros B P. destruct fuel as [|fuel]; simpl; [auto|].
  destruct (Z.of_nat (length (_runningTaskPool f)) <? taskSize); simpl; [|auto].
  unfold gen_next. rewrite B. simpl. auto.
Qed.

Lemma Tidy_refill f :
  Tidy f (fst (fst (refill (Z.to_nat (b_concurrency f)) (b_concurrency f) None f))).
Proof.
  pose proof (refill_shape (Z.to_nat (b_concurrency f)) (b_concurrency f) None f) as [S HD].
  pose proof (refill_closed (Z.to_nat (b_concurrency f)) (b_concurrency f) None f) as RC.
  simpl in *.
  set (f' := fst (fst (refill (Z.to_nat (b_concurrency f)) (b_concurrency f) None f))) in *.
  assert (C : _isCompleted f' = _isCompleted f) by (rewrite S; reflexivity).
  assert (Fa : _fibersPromise f' = _fibersPromise f) by (rewrite S; reflexivity).
  unfold Tidy, TornDown. rewrite C, Fa, HD.
  split; [reflexivity|]. split; [reflexivity|]. split; [auto|].
  intros T Co D. destruct (T Co D) as [P B]. apply RC; assumption.
Qed.

Lemma Tidy_delete t f :
  Tidy f (with_pools (pool_delete t (_runningTaskPool f))
                     (pool_delete t (_finishedTaskPool f)) f).
Proof.
  unfold Tidy, TornDown; simpl.
  split; [reflexivity|]. split; [reflexivity|]. split; [auto|].
  intros T Co D. destruct (T Co D) as [P B]. rewrite P. auto.
Qed.

Lemma Tidy_resolve f : Tidy f (fst (_resolveIfNotFailedAndCleanup f)).
Proof.
  unfold _resolveIfNotFailedAndCleanup.
  destruct (_isResolvedOrRejected f); simpl; apply Tidy_cleanup; reflexivity.
Qed.

Lemma Tidy_raise e f : Tidy f (fst (_raiseErrorAndCleanup e f)).
Proof.
  unfold _raiseErrorAndCleanup. simpl.
  destruct (_isResolvedOrRejected f); simpl; apply Tidy_cleanup; reflexivity.
Qed.

Lemma run_tidy fuel evs c c1 :
  run fuel evs c = Some c1 -> Tidy (engine c) (engine c1).
Proof.
  apply run_moves.
  - apply Tidy_refl.
  - apply Tidy_trans.
  - apply Tidy_refill.
  - apply Tidy_delete.
  - apply Tidy_resolve.
  - apply Tidy_raise.
  - intros; apply Tidy_same; reflexivity.
  - intros; apply Tidy_same; reflexivity.
  - intros; apply Tidy_same; reflexivity.
  - intros; apply Tidy_same; reflexivity.
  - intros; apply Tidy_cleanup; reflexivity.
  - intros; apply Tidy_same; reflexivity.
Qed.

Lemma Live_same f f' :
  _isCompleted f' = _isCompleted f ->
  _isResolvedOrRejected f' = _isResolvedOrRejected f ->
  _isFailed f' = _isFailed f ->
  Live f f'.
Proof. unfold Live, InProgress. intros -> -> ->. auto. Qed.

Lemma Live_completed f f' : _isCompleted f' = true -> Live f f'.
Proof. unfold Live, InProgress. intros -> _ H. discriminate. Qed.

Lemma Live_refill f :
  Live f (fst (fst (refill (Z.to_nat (b_concurrency f)) (b_concurrency f) None f))).
Proof.
  destruct (refill_shape (Z.to_nat (b_concurrency f)) (b_concurrency f) None f) as [S _].
  apply Live_same; rewrite S; reflexivity.
Qed.

Lemma Live_resolve f : Live f (fst (_resolveIfNotFailedAndCleanup f)).
Proof.
  apply Live_completed. unfold _resolveIfNotFailedAndCleanup.
  destruct (_isResolvedOrRejected f); reflexivity.
Qed.

Lemma Live_raise e f : Live f (fst (_raiseErrorAndCleanup e f)).
Proof.
  apply Live_completed. unfold _raiseErrorAndCleanup. simpl.
  destruct (_isResolvedOrRejected f); reflexivity.
Qed.

Lemma run_live fuel evs c c1 :
  run fuel evs c = Some c1 -> Live (engine c) (engine c1).
Proof.
  apply run_moves.
  - intros f; apply Live_same; reflexivity.
  - unfold Live; auto.
  - apply Live_refill.
  - intros; apply Live_same; reflexivity.
  - apply Live_resolve.
  - apply Live_raise.
  - intros; apply Live_same; reflexivity.
  - intros; apply Live_same; reflexivity.
  - intros; apply Live_same; reflexivity.
  - intros; apply Live_same; reflexivity.
  - intros; apply Live_completed; reflexivity.
  - intros; apply Live_same; reflexivity.
Qed.









(** What holds of the engine at every point of every run that starts from
    the constructor. *)
Lemma run_from_new fuel concurrency g f0 evs c :
  Fibers_new concurrency g = inr f0 ->
  run fuel evs (idle f0) = Some c ->
  Accounted (engine c) /\
  fault (_fibersPromise (engine c)) = None /\
  InProgress (engine c) /\
  TornDown (engine c) /\
  hasDispose (_generator (engine c)) = hasDispose g.
Proof.
  intros New Run.
  pose proof (Accounted_new _ _ New) as A0.
  apply Fibers_new_level in New. destruct New as [_ E0].
  destruct (run_once _ _ _ Run A0) as [A _].
  destruct (run_tidy _ _ _ Run) as [HD [Fa [_ TD]]].
  pose proof (run_live _ _ _ Run) as L.
  simpl in *. subst f0.
  split; [exact A|]. split; [rewrite Fa; reflexivity|].
  split; [apply L; unfold InProgress; simpl; auto|].
  split; [apply TD; unfold TornDown; simpl; discriminate|].
  rewrite HD. reflexivity.
Qed.





(** ** [Fibers.delay] *)

Lemma delay_released hasDOM milliseconds ac :
  Delay.Released (Delay.delay hasDOM milliseconds ac).
Proof.
  unfold Delay.Released, Delay.delay.
  destruct ac as [[|]|]; simpl; intros H; auto; contradiction.
Qed.

Lemma delay_step_released hasDOM ev w w1 :
  Delay.step hasDOM ev w = Some w1 ->
  Delay.Released w ->
  Delay.Released w1 /\
  (forall o, Delay.promise w = Some o -> Delay.promise w1 = Some o).
Proof.
  unfold Delay.Released. destruct ev; simpl.
  - unfold Delay.fire. destruct (Delay.timer w); [|discriminate].
    intros H; inversion H; subst; simpl. intros _. split; [auto|].
    intros o ->. reflexivity.
  - unfold Delay.abort.
    destruct (Delay.signalAborted w) as [[|]|]; try discriminate.
    + intros H; inversion H; subst. auto.
    + destruct (Delay.listening w) eqn:L; intros H; inversion H; subst; simpl.
      * intros _. split; [auto|]. intros o ->. reflexivity.
      * intros R. split; [|auto].
        intros P. destruct (R P) as [T _]. auto.
Qed.

Lemma delay_run_released hasDOM : forall evs w w1,
  Delay.run hasDOM evs w = Some w1 ->
  Delay.Released w ->
  Delay.Released w1 /\
  (forall o, Delay.promise w = Some o -> Delay.promise w1 = Some o).
Proof.
  induction evs as [|ev evs IH]; intros w w1 H R; simpl in H.
  - inversion H; subst. auto.
  - destruct (Delay.step hasDOM ev w) as [w2|] eqn:E; [|discriminate].
    destruct (@delay_step_released _ _ _ _ E R) as [R2 K2].
    destruct (IH _ _ H R2) as [R1 K1]. split; [exact R1|].
    intros o P. apply K1, K2, P.
Qed.

Lemma delay_run_idle hasDOM : forall evs w w1,
  Delay.run hasDOM evs w = Some w1 ->
  Delay.timer w = None ->
  Delay.setTimeoutCalls w1 = Delay.setTimeoutCalls w /\ Delay.timer w1 = None.
Proof.
  induction evs as [|ev evs IH]; intros w w1 H T; simpl in H.
  - inversion H; subst. auto.
  - destruct (Delay.step hasDOM ev w) as [w2|] eqn:E; [|discriminate].
    assert (S2 : Delay.setTimeoutCalls w2 = Delay.setTimeoutCalls w /\ Delay.timer w2 = None).
    { destruct ev; simpl in E.
      - unfold Delay.fire in E. rewrite T in E. discriminate.
      - unfold Delay.abort in E.
        destruct (Delay.signalAborted w) as [[|]|]; try discriminate.
        + inversion E; subst; auto.
        + destruct (Delay.listening w); inversion E; subst; simpl; auto. }
    destruct S2 as [S2 T2]. destruct (IH _ _ H T2) as [S1 T1].
    split; [congruence|exact T1].
Qed.

(** C9: [delay(milliseconds, ac)].
    - With a controller whose signal is aborted at the call, the promise is
      rejected by the call itself with the abort error, [setTimeout] has not
      been called, and whatever happens later it is never called and the
      promise keeps that rejection.
    - With a controller aborted during the wait, [ac.abort()] rejects the
      promise with the abort error, clears the timer and removes the
      listener.
    - When the timer fires first, the promise is resolved and the timer is
      cleared.
    - Whatever the order of the two events, once the promise has settled no
      timer is pending and no listener is left. *)
Theorem delay_rejects_on_abort_and_releases_the_timer :
  forall hasDOM milliseconds,
    (Delay.promise (Delay.delay hasDOM milliseconds (Some true))
       = Some (Delay.Aborted (Delay._createAbortError hasDOM)) /\
     forall evs w,
       Delay.run hasDOM evs (Delay.delay hasDOM milliseconds (Some true)) = Some w ->
       Delay.setTimeoutCalls w = 0%nat /\ Delay.timer w = None /\
       Delay.promise w = Some (Delay.Aborted (Delay._createAbortError hasDOM))) /\
    (exists w,
       Delay.abort hasDOM (Delay.delay hasDOM milliseconds (Some false)) = Some w /\
       Delay.promise w = Some (Delay.Aborted (Delay._createAbortError hasDOM)) /\
       Delay.timer w = None /\ Delay.clearTimeoutCalls w = 1%nat /\
       Delay.listening w = false) /\
    (forall ac, ac <> Some true ->
       exists w,
         Delay.fire (Delay.delay hasDOM milliseconds ac) = Some w /\
         Delay.promise w = Some Delay.Elapsed /\
         Delay.timer w = None /\ Delay.clearTimeoutCalls w = 1%nat) /\
    (forall ac evs w,
       Delay.run hasDOM evs (Delay.delay hasDOM milliseconds ac) = Some w ->
       Delay.promise w <> None ->
       Delay.timer w = None /\ Delay.listening w = false).
Proof.
  intros hasDOM milliseconds. split; [|split; [|split]].
  - split; [reflexivity|]. intros evs w H.
    destruct (@delay_run_idle _ _ _ _ H eq_refl) as [S T].
    destruct (@delay_run_released _ _ _ _ H (delay_released _ _ _)) as [_ K].
    split; [exact S|]. split; [exact T|]. apply K. reflexivity.
  - eexists. split; [reflexivity|]. simpl. auto.
  - intros ac N. destruct ac as [[|]|]; [contradiction| |];
      (eexists; split; [reflexivity|]; simpl; auto).
  - intros ac evs w H.
    destruct (@delay_run_released _ _ _ _ H (delay_released _ _ _)) as [R _].
    exact R.
Qed.

(** ** [start] during an iteration *)

Lemma finally_block_keeps activeTask f :
  finally_block activeTask false f
  = (fst (finally_block activeTask false f), None) /\
  _isGeneratorConsuming (fst (finally_block activeTask false f))
  = _isGeneratorConsuming f.
Proof. unfold finally_block. destruct activeTask; simpl; auto. Qed.

(** A segment of [next] that yields a value or suspends leaves the consuming
    flag as it was. *)
Lemma next_keeps_iteration_open fuel : forall stage f f' st,
  next fuel stage f = (f', st) ->
  goes_on st ->
  _isGeneratorConsuming f' = _isGeneratorConsuming f.
Proof.
  induction fuel as [|fuel IH]; intros stage f f' st N G;
    rewrite next_unfold in N;
    destruct (try_block stage f) as [[f1 a] out] eqn:T;
    destruct (try_block_shape _ _ T) as [S _];
    assert (C1 : _isGeneratorConsuming f1 = _isGeneratorConsuming f)
      by (rewrite S; reflexivity);
    unfold after_try in N;
    destruct (finally_block_keeps a f1) as [K1 K2];
    (destruct out as [aw|v| |e];
     [ inversion N; subst; exact C1
     | rewrite K1 in N; inversion N; subst; congruence
     | destruct (finally_block a true f1) as [f2 [x|]]; inversion N; subst; contradiction
     | destruct (consult f1 e);
       [ destruct (finally_block a true f1) as [f2 [x|]]; inversion N; subst; contradiction
       | rewrite K1 in N
       | destruct (finally_block a false (fst (_raiseErrorAndCleanup e f1)));
         inversion N; subst; contradiction ] ]).
  - inversion N; subst. congruence.
  - rewrite (IH _ _ _ _ N G). congruence.
Qed.

(** What [start] does while an iteration is open -- [[Symbol.asyncIterator]]
    has set the consuming flag, and the steps taken since have yielded
    values or are suspended: it throws the usage error at once and changes
    nothing, so that no job is recorded and the steps of the iteration go on
    as if [start] had not been called.  (C1 says that [start] returns and
    that the next step fails; see [start_inside_iteration_throws_at_once].) *)
Theorem start_is_refused_while_iterating :
  forall fuel c,
    _isGeneratorConsuming (engine c) = true ->
    start fuel c = Some (c, StartThrows (FiberError CannotStartWhileIterating)) /\
    (forall evs, run fuel (CallStart :: evs) c = run fuel evs c) /\
    (forall stage f' st,
        next fuel stage (engine c) = (f', st) -> goes_on st ->
        forall ps rs,
          start fuel {| engine := f'; parked := ps; results := rs |}
          = Some ({| engine := f'; parked := ps; results := rs |},
                  StartThrows (FiberError CannotStartWhileIterating))).
Proof.
  intros fuel c Co.
  assert (S : start fuel c = Some (c, StartThrows (FiberError CannotStartWhileIterating)))
    by (unfold start; rewrite Co; reflexivity).
  split; [exact S|]. split.
  - intros evs. simpl. rewrite S. reflexivity.
  - intros stage f' st N G ps rs.
    unfold start; simpl. rewrite (next_keeps_iteration_open _ _ _ N G), Co. reflexivity.
Qed.

(** ** Concrete runs *)

(** C1, where the code departs from it: an iteration over
    [Fibers.forEach(1, [10, 20, 30], doubles)] is open and has yielded its
    first value, and the body of the loop calls [start].  The call throws
    the usage error at once, the engine is left as it was, with no job
    recorded ([started] is false), and the next step of the iteration yields
    the second value instead of failing. *)
Lemma start_inside_iteration_throws_at_once :
  exists c c',
    Fibers_forEach true 1 [10; 20; 30] doubles = inr three_items /\
    run 0 [CallIterator; CallNext; Settle 0; Resume 0; Resume 0] (idle three_items)
      = Some c /\
    results c = [Value 20] /\
    _isGeneratorConsuming (engine c) = true /\
    start 0 c = Some (c, StartThrows (FiberError CannotStartWhileIterating)) /\
    started (engine c) = false /\
    run 0 [CallStart; CallNext; Settle 1; Resume 0; Resume 0] c = Some c' /\
    results c' = [Value 20; Value 40].
Proof.
  do 2 eexists.
  split; [reflexivity|]. split; [vm_compute; reflexivity|].
  split; [reflexivity|]. split; [reflexivity|]. split; [reflexivity|].
  split; [reflexivity|].
  split; [vm_compute; reflexivity|]. reflexivity.
Qed.

(** [start_is_refused_while_iterating] on [three_items], right after the
    iteration has been opened. *)
Lemma start_is_refused_while_iterating_witness :
  asyncIterator three_items = inr (with_consuming true three_items) /\
  _isGeneratorConsuming (engine (idle (with_consuming true three_items))) = true /\
  start 0 (idle (with_consuming true three_items))
  = Some (idle (with_consuming true three_items),
          StartThrows (FiberError CannotStartWhileIterating)).
Proof.
  split; [reflexivity|]. split; [reflexivity|].
  exact (proj1 (@start_is_refused_while_iterating
                  0 (idle (with_consuming true three_items)) eq_refl)).
Defined.



(** [lifecycle_settles_at_most_once] on a run of [first_fails] that ends with
    the rejection of the lifecycle promise. *)
Lemma lifecycle_settles_at_most_once_witness :
  Fibers_new 1 {| body := _iterator [7; 8] (fails_at 7); hasDispose := true |}
    = inr first_fails /\
  exists c,
    run 0 [CallIterator; CallNext; Settle 0; Resume 0] (idle first_fails) = Some c /\
    (length (calls (_fibersPromise (engine c))) <= 1)%nat.
Proof.
  split; [reflexivity|].
  destruct (run 0 [CallIterator; CallNext; Settle 0; Resume 0] (idle first_fails))
    as [c|] eqn:E; [|vm_compute in E; discriminate].
  exists c. split; [reflexivity|].
  exact (proj1 (@lifecycle_settles_at_most_once
                  0 1 {| body := _iterator [7; 8] (fails_at 7); hasDispose := true |}
                  first_fails _ c eq_refl E)).
Defined.





(** The [finally] block removes [activeTask] from both pools. *)
Lemma pool_delete_has t pool : pool_has t (pool_delete t pool) = false.
Proof.
  unfold pool_has, pool_delete. induction pool as [|u pool IH]; simpl; [reflexivity|].
  destruct (same_task t u) eqn:E; simpl; [exact IH|]. rewrite E. exact IH.
Qed.

Lemma finally_block_deletes_active t f :
  pool_has t (_runningTaskPool (fst (finally_block (Some t) false f))) = false /\
  pool_has t (_finishedTaskPool (fst (finally_block (Some t) false f))) = false.
Proof. simpl. split; apply pool_delete_has. Qed.

(** C6 on [Fibers.forEach(2, [0, 1], fails_at 0)] with a handler answering
    ['skip']: the step starts both units, the race is lost to the rejection
    of unit 0, and the [finally] block deletes [activeTask], which is unit
    1, the last unit started.  The errored unit 0 stays in both pools, the
    unit 1, still in flight, is in neither; and the call of [next] that
    follows finds the rejection of unit 0 again, so that continuing the
    suspended call leads back to the same configuration. *)
Theorem skip_keeps_the_errored_unit_in_both_pools :
  exists c,
    Fibers_forEach true 2 [0; 1] (fails_at 0) = inr two_items /\
    run 1 [CallIterator; CallNext; Settle 0; Resume 0] (idle first_of_two_fails) = Some c /\
    task_result unit0 = Rejected (Failure 0) /\
    _runningTaskPool (engine c) = [unit0] /\
    _finishedTaskPool (engine c) = [unit0] /\
    inflight (engine c) = [unit1] /\
    results c = [] /\
    step 1 (Resume 0) c = Some c.
Proof.
  eexists. split; [reflexivity|]. split; [vm_compute; reflexivity|].
  repeat split; reflexivity.
Qed.


(** On a host whose generators cannot be disposed of, a completed engine
    whose source has items left runs their factories when stepped again:
    [first_fails_undisposable] is completed by the ['stop'] verdict on its
    first item, and the next call of [next] calls the factory of the
    second. *)
Lemma undisposed_source_is_pulled_again :
  exists c c',
    run 0 [CallIterator; CallNext; Settle 0; Resume 0] (idle first_fails_undisposable)
      = Some c /\
    completed (engine c) = true /\ invoked (engine c) = [7] /\
    run 0 [CallNext] c = Some c' /\
    invoked (engine c') = [7; 8].
Proof.
  do 2 eexists. split; [vm_compute; reflexivity|].
  split; [reflexivity|]. split; [reflexivity|].
  split; [vm_compute; reflexivity|]. reflexivity.
Qed.


(** [delay_rejects_on_abort_and_releases_the_timer] on a delay of one second
    whose controller is aborted twice during the wait. *)
Lemma delay_rejects_on_abort_and_releases_the_timer_witness :
  exists w,
    Delay.run true [Delay.AbortCalled; Delay.AbortCalled]
      (Delay.delay true 1000 (Some false)) = Some w /\
    Delay.promise w <> None /\
    Delay.timer w = None /\ Delay.listening w = false.
Proof.
  eexists. split; [reflexivity|].
  split; [discriminate|].
  apply (proj2 (proj2 (proj2 (delay_rejects_on_abort_and_releases_the_timer true 1000)))
           (Some false) [Delay.AbortCalled; Delay.AbortCalled]);
    [reflexivity|discriminate].
Defined.


(** * Further properties of the engine *)

(** ** Every event is a move *)

Lemma land_engine who ps rs st c :
  land who ps rs st = Some c -> engine c = fst st.
Proof.
  unfold land. destruct (snd st) as [r|a|]; [destruct who| |];
    intros H; inversion H; reflexivity.
Qed.

Lemma runInBackground_move fuel ps rs f c :
  _runInBackground fuel ps rs f = Some c -> Move fuel f (engine c).
Proof.
  unfold _runInBackground.
  destruct (_allowBackgroundJobRunning f && negb (_isFailed f) && negb (_isCompleted f)).
  - intros H. apply land_engine in H. rewrite H.
    destruct (next fuel Enter f) as [f1 st] eqn:N. simpl. eapply MoveNext; eauto.
  - intros H; inversion H; subst; simpl. apply MoveJobEnds.
Qed.

Lemma start_move fuel c c1 s :
  start fuel c = Some (c1, s) -> Move fuel (engine c) (engine c1).
Proof.
  unfold start.
  destruct (_isGeneratorConsuming (engine c)) eqn:Co;
    [intros H; inversion H; subst; apply MoveNone|].
  destruct (_isCompleted (engine c)) eqn:Cm;
    [intros H; inversion H; subst; apply MoveNone|].
  destruct (_isFailed (engine c)) eqn:Fd;
    [intros H; inversion H; subst; apply MoveNone|].
  simpl.
  destruct (_activeBackgroundJob (engine c)) eqn:J;
    [intros H; inversion H; subst; apply MoveNone|].
  unfold _runInBackground. simpl. rewrite Fd, Cm. simpl.
  destruct (next fuel Enter (with_background true false (engine c))) as [f1 st] eqn:N.
  destruct (land Background (parked c) (results c) (f1, st)) as [c2|] eqn:L; [|discriminate].
  intros H; inversion H; subst; simpl.
  apply land_engine in L. simpl in L. rewrite L.
  eapply MoveStart; eauto.
Qed.

Lemma step_move fuel ev c c1 :
  step fuel ev c = Some c1 -> Move fuel (engine c) (engine c1).
Proof.
  destruct ev; simpl.
  - intros H. apply land_engine in H. rewrite H.
    destruct (next fuel Enter (engine c)) as [f1 st] eqn:N. simpl. eapply MoveNext; eauto.
  - unfold asyncIterator. destruct (_activeBackgroundJob (engine c)) eqn:J;
      intros H; inversion H; subst; simpl; [apply MoveNone|apply MoveOpen; exact J].
  - destruct (start fuel c) as [[c2 s]|] eqn:S; [|discriminate].
    intros H; inversion H; subst. eapply start_move; eauto.
  - intros H; inversion H; subst; simpl. apply MoveStop.
  - unfold return_. destruct (_resolveIfNotFailedAndCleanup (engine c)) as [f1 bad] eqn:E.
    intros H; inversion H; subst; simpl.
    replace f1 with (fst (_resolveIfNotFailedAndCleanup (engine c))) by (rewrite E; reflexivity).
    apply MoveReturn.
  - unfold throw. destruct (_raiseErrorAndCleanup e (engine c)) as [f1 bad] eqn:E.
    intros H; inversion H; subst; simpl.
    replace f1 with (fst (_raiseErrorAndCleanup e (engine c))) by (rewrite E; reflexivity).
    apply MoveThrow.
  - intros H; inversion H; subst; simpl. apply MoveDispose.
  - unfold set_concurrency. destruct (value <=? 0) eqn:V;
      intros H; inversion H; subst; simpl; [apply MoveNone|].
    apply MoveLevel. apply Z.leb_gt in V. exact V.
  - intros H; inversion H; subst; simpl. apply MoveHandler.
  - destruct (find (fun t => Nat.eqb (task_id t) id) (inflight (engine c))) as [t|] eqn:F;
      [|discriminate].
    intros H; inversion H; subst; simpl.
    apply MoveSettle. apply find_some in F. apply F.
  - destruct (nth_error (parked c) k) as [[who [snap [w|] act|act|t]|[v| |e]]|];
      try discriminate.
    + intros H. apply land_engine in H. rewrite H.
      destruct (next fuel (AfterRace w act) (engine c)) as [f1 st] eqn:N.
      simpl. eapply MoveNext; eauto.
    + intros H. apply land_engine in H. rewrite H.
      destruct (next fuel (AfterYield act) (engine c)) as [f1 st] eqn:N.
      simpl. eapply MoveNext; eauto.
    + intros H. apply land_engine in H. rewrite H.
      destruct (next fuel (AfterTask t) (engine c)) as [f1 st] eqn:N.
      simpl. eapply MoveNext; eauto.
    + apply runInBackground_move.
    + intros H; inversion H; subst; simpl. apply MoveJobEnds.
    + intros H; inversion H; subst; simpl. apply MoveJobEnds.
Qed.

(** What every move keeps holds along every run. *)
Lemma run_keeps (Inv : Fibers -> Prop) fuel :
  (forall f f', Inv f -> Move fuel f f' -> Inv f') ->
  forall evs c c1, Inv (engine c) -> run fuel evs c = Some c1 -> Inv (engine c1).
Proof.
  intros K. induction evs as [|ev evs IH]; intros c c1 I H; simpl in H.
  - inversion H; subst; exact I.
  - destruct (step fuel ev c) as [c2|] eqn:E; [|discriminate].
    apply (IH c2 c1); [|exact H]. eapply K; [exact I|]. eapply step_move; eauto.
Qed.

(** ** The concurrency level *)

Lemma run_level fuel : forall evs c c1,
  run fuel evs c = Some c1 ->
  0 < b_concurrency (engine c) ->
  b_concurrency (engine c1) = level_after (b_concurrency (engine c)) evs /\
  0 < b_concurrency (engine c1).
Proof.
  induction evs as [|ev evs IH]; intros c c1 H P; simpl in H.
  - inversion H; subst. simpl. auto.
  - destruct (step fuel ev c) as [c2|] eqn:E; [|discriminate].
    assert (D : (exists value, ev = SetConcurrency value) \/
                (forall value, ev <> SetConcurrency value))
      by (destruct ev; try (right; intros; discriminate); left; eauto).
    destruct D as [[value ->]|NS].
    + apply step_set_concurrency in E. destruct E as [_ E2]. simpl.
      rewrite <- E2. apply (IH c2 c1 H).
      rewrite E2. destruct (value <=? 0) eqn:V; [exact P|]. apply Z.leb_gt in V. exact V.
    + pose proof (step_bounded _ _ NS E) as [B1 _].
      assert (L : level_after (b_concurrency (engine c)) (ev :: evs)
                  = level_after (b_concurrency (engine c)) evs)
        by (destruct ev; try reflexivity; exfalso; eapply NS; reflexivity).
      rewrite L, <- B1. apply (IH c2 c1 H). rewrite B1. exact P.
Qed.

(** X1: along every run of an engine built by the constructor, the
    concurrency level is positive, and it is the value of the last accepted
    assignment to [concurrency] (the constructor's argument when there was
    none): no step, no settlement and no refused assignment changes it. *)
Theorem level_is_the_last_accepted_one :
  forall fuel concurrency g f0 evs c,
    Fibers_new concurrency g = inr f0 ->
    run fuel evs (idle f0) = Some c ->
    b_concurrency (engine c) = level_after concurrency evs /\
    0 < b_concurrency (engine c).
Proof.
  intros fuel concurrency g f0 evs c New Run.
  apply Fibers_new_level in New. destruct New as [Pos ->].
  apply (@run_level fuel evs _ c Run). simpl. exact Pos.
Qed.

(** ** The two consumption protocols exclude each other *)

Lemma KeepsProtocol_same f f' :
  _isGeneratorConsuming f' = _isGeneratorConsuming f ->
  _activeBackgroundJob f' = _activeBackgroundJob f ->
  KeepsProtocol f f'.
Proof. unfold KeepsProtocol. auto. Qed.

Lemma KeepsProtocol_trans f g h :
  KeepsProtocol f g -> KeepsProtocol g h -> KeepsProtocol f h.
Proof.
  unfold KeepsProtocol. intros [[A B]|[A B]] [[C D]|[C D]]; rewrite ?C, ?D, ?A, ?B; auto.
Qed.

Lemma next_keeps_protocol fuel stage f f' st :
  next fuel stage f = (f', st) -> KeepsProtocol f f'.
Proof.
  apply next_moves.
  - intros x; apply KeepsProtocol_same; reflexivity.
  - apply KeepsProtocol_trans.
  - intros x.
    destruct (refill_shape (Z.to_nat (b_concurrency x)) (b_concurrency x) None x) as [S _].
    apply KeepsProtocol_same; rewrite S; reflexivity.
  - intros t x; apply KeepsProtocol_same; reflexivity.
  - intros x. right. unfold _resolveIfNotFailedAndCleanup.
    destruct (_isResolvedOrRejected x); simpl; auto.
  - intros e x. right. unfold _raiseErrorAndCleanup. simpl.
    destruct (_isResolvedOrRejected x); simpl; auto.
Qed.

Lemma move_keeps_exclusion fuel f f' :
  _isGeneratorConsuming f && _activeBackgroundJob f = false ->
  Move fuel f f' ->
  _isGeneratorConsuming f' && _activeBackgroundJob f' = false.
Proof.
  intros I M. destruct M; simpl; auto.
  - destruct (next_keeps_protocol _ _ _ H) as [[A B]|[A B]]; rewrite A, B; auto.
  - destruct (next_keeps_protocol _ _ _ H3) as [[A B]|[A B]]; simpl in *;
      rewrite A; try rewrite H; reflexivity.
  - unfold _resolveIfNotFailedAndCleanup. destruct (_isResolvedOrRejected f); reflexivity.
  - unfold _raiseErrorAndCleanup. simpl. destruct (_isResolvedOrRejected f); reflexivity.
  - apply andb_false_r.
Qed.

(** X2: along every run of an engine built by the constructor, an open
    iteration and a recorded background job never coexist: the consuming
    flag and [started] are never both set. *)
Theorem iteration_and_background_job_exclude_each_other :
  forall fuel concurrency g f0 evs c,
    Fibers_new concurrency g = inr f0 ->
    run fuel evs (idle f0) = Some c ->
    _isGeneratorConsuming (engine c) && started (engine c) = false.
Proof.
  intros fuel concurrency g f0 evs c New Run.
  apply Fibers_new_level in New. destruct New as [_ ->].
  unfold started.
  eapply (@run_keeps
            (fun f => _isGeneratorConsuming f && _activeBackgroundJob f = false) fuel
            (@move_keeps_exclusion fuel)); [|exact Run].
  reflexivity.
Qed.

(** ** [failed], [completed] and the lifecycle promise *)

Lemma Blamed_same f f' :
  Blamed f ->
  _isResolvedOrRejected f' = _isResolvedOrRejected f ->
  _fibersPromise f' = _fibersPromise f ->
  _isFailed f' = _isFailed f ->
  Blamed f'.
Proof.
  unfold Blamed, Accounted, promise. intros B -> -> ->. exact B.
Qed.

Lemma Blamed_cleanup f : Blamed f -> Blamed (_cleanup f).
Proof. intros B. apply (@Blamed_same _ _ B); reflexivity. Qed.

Lemma Blamed_resolve f : Blamed f -> Blamed (fst (_resolveIfNotFailedAndCleanup f)).
Proof.
  unfold _resolveIfNotFailedAndCleanup.
  destruct (_isResolvedOrRejected f) eqn:Fl; simpl.
  - apply Blamed_cleanup.
  - unfold Blamed, Accounted, promise. rewrite Fl. simpl. intros [[C O] _].
    rewrite C, O. split; [eexists; split; reflexivity|]. intros e H. discriminate.
Qed.

Lemma Blamed_raise e f : Blamed f -> Blamed (fst (_raiseErrorAndCleanup e f)).
Proof.
  unfold _raiseErrorAndCleanup. simpl.
  destruct (_isResolvedOrRejected f) eqn:Fl; simpl.
  - unfold Blamed, Accounted, promise. simpl. rewrite Fl. intros [A _]. auto.
  - unfold Blamed, Accounted, promise. rewrite Fl. simpl. intros [[C O] _].
    rewrite C, O. split; [eexists; split; reflexivity|]. auto.
Qed.

Lemma run_blamed fuel evs c c1 :
  run fuel evs c = Some c1 -> Blamed (engine c) -> Blamed (engine c1).
Proof.
  apply (@run_moves (fun f f' => Blamed f -> Blamed f')); cbv beta; auto.
  - intros x B.
    destruct (refill_shape (Z.to_nat (b_concurrency x)) (b_concurrency x) None x) as [S _].
    apply (@Blamed_same _ _ B); rewrite S; reflexivity.
  - apply Blamed_resolve.
  - apply Blamed_raise.
Qed.

Lemma run_failed_stays fuel evs c c1 :
  run fuel evs c = Some c1 -> _isFailed (engine c) = true -> _isFailed (engine c1) = true.
Proof.
  apply (@run_moves (fun f f' => _isFailed f = true -> _isFailed f' = true));
    cbv beta; auto.
  - intros x.
    destruct (refill_shape (Z.to_nat (b_concurrency x)) (b_concurrency x) None x) as [S _].
    rewrite S. auto.
  - intros x. unfold _resolveIfNotFailedAndCleanup.
    destruct (_isResolvedOrRejected x); simpl; auto.
  - intros e x. unfold _raiseErrorAndCleanup. simpl.
    destruct (_isResolvedOrRejected x); simpl; auto.
Qed.

(** X3: along every run of an engine built by the constructor, [failed]
    implies [completed]; a settled lifecycle promise implies [completed]; a
    rejected lifecycle promise implies [failed]; and [failed], once set,
    stays set whatever happens next. *)
Theorem failed_and_settled_imply_completed :
  forall fuel concurrency g f0 evs c,
    Fibers_new concurrency g = inr f0 ->
    run fuel evs (idle f0) = Some c ->
    (failed (engine c) = true -> completed (engine c) = true) /\
    (forall s, promise (engine c) = Some s -> completed (engine c) = true) /\
    (forall e, promise (engine c) = Some (RejectedWith e) -> failed (engine c) = true) /\
    (failed (engine c) = true ->
     forall evs' c', run fuel evs' c = Some c' -> failed (engine c') = true).
Proof.
  intros fuel concurrency g f0 evs c New Run.
  destruct (@run_from_new _ _ _ _ _ _ New Run) as [A [_ [I _]]].
  assert (B : Blamed (engine c)).
  { apply (@run_blamed fuel evs _ c Run).
    apply Fibers_new_level in New. destruct New as [_ ->].
    unfold Blamed, Accounted, promise; simpl. split; [auto|discriminate]. }
  unfold failed, completed, InProgress in *.
  split; [|split; [|split]].
  - intros Fd. destruct (_isCompleted (engine c)); [reflexivity|].
    destruct (I eq_refl) as [_ X]. congruence.
  - intros s P. destruct (_isCompleted (engine c)); [reflexivity|].
    destruct (I eq_refl) as [X _]. unfold Accounted, promise in *.
    rewrite X in A. destruct A as [_ O]. congruence.
  - apply B.
  - intros Fd evs' c' Run'. eapply run_failed_stays; eauto.
Qed.

(** ** The bookkeeping of the pools *)

Lemma same_task_refl t : same_task t t = true.
Proof. unfold same_task. apply Nat.eqb_refl. Qed.

Lemma same_task_sym a b : same_task a b = same_task b a.
Proof. unfold same_task. apply Nat.eqb_sym. Qed.

Lemma pool_has_true t pool :
  pool_has t pool = true <-> exists u, In u pool /\ task_id u = task_id t.
Proof.
  unfold pool_has. rewrite existsb_exists. split; intros [u [I E]]; exists u; split; auto.
  - unfold same_task in E. apply Nat.eqb_eq in E. auto.
  - unfold same_task. apply Nat.eqb_eq. auto.
Qed.

Lemma pool_has_false t pool :
  pool_has t pool = false <-> forall u, In u pool -> task_id u <> task_id t.
Proof.
  split.
  - intros H u I E.
    assert (T : pool_has t pool = true) by (apply pool_has_true; eauto). congruence.
  - intros H. destruct (pool_has t pool) eqn:E; [|reflexivity].
    apply pool_has_true in E. destruct E as [u [I E]]. exfalso. eapply H; eauto.
Qed.

Lemma pool_delete_In t u pool :
  In u (pool_delete t pool) <-> In u pool /\ task_id u <> task_id t.
Proof.
  unfold pool_delete. rewrite filter_In. unfold same_task.
  rewrite negb_true_iff, Nat.eqb_neq. intuition congruence.
Qed.

Lemma pool_add_In t u pool :
  In u (pool_add t pool) -> In u pool \/ u = t.
Proof.
  unfold pool_add. destruct (pool_has t pool); [auto|].
  rewrite in_app_iff. simpl. intuition.
Qed.

Lemma pool_add_has t pool : pool_has t (pool_add t pool) = true.
Proof.
  unfold pool_add. destruct (pool_has t pool) eqn:E; [exact E|].
  apply pool_has_true. exists t. split; [apply in_or_app; simpl; auto|reflexivity].
Qed.

Lemma pool_add_keeps t u pool : In u pool -> In u (pool_add t pool).
Proof.
  unfold pool_add. destruct (pool_has t pool); [auto|]. intros; apply in_or_app; auto.
Qed.

Lemma NoDup_map_filter {A B : Type} (g : A -> B) (p : A -> bool) (l : list A) :
  NoDup (map g l) -> NoDup (map g (filter p l)).
Proof.
  induction l as [|x l IH]; simpl; intros N; [constructor|].
  inversion N as [|y ys NI ND]; subst.
  destruct (p x); simpl; [|auto].
  constructor; [|auto].
  intros I. apply NI. apply in_map_iff in I. destruct I as [z [E I]].
  apply filter_In in I. apply in_map_iff. exists z. tauto.
Qed.

Lemma Tracked_same f f' :
  Tracked f ->
  _runningTaskPool f' = _runningTaskPool f ->
  _finishedTaskPool f' = _finishedTaskPool f ->
  inflight f' = inflight f ->
  invoked f' = invoked f ->
  Tracked f'.
Proof. unfold Tracked. intros T -> -> -> ->. exact T. Qed.

Lemma Tracked_cleared f f' :
  Tracked f ->
  _runningTaskPool f' = [] -> _finishedTaskPool f' = [] ->
  inflight f' = inflight f -> invoked f' = invoked f ->
  Tracked f'.
Proof.
  unfold Tracked. intros [_ [_ [T3 _]]] -> -> -> ->. simpl.
  split; [intros t []|]. split; [intros t []|]. split; [|constructor].
  intros t I. apply T3. apply in_or_app. right. apply in_or_app. right. exact I.
Qed.

Lemma Tracked_launched g o s f :
  Tracked f ->
  Tracked (with_launched g {| task_id := length (invoked f);
                              task_source := s; task_result := o |} f).
Proof.
  set (t := {| task_id := length (invoked f); task_source := s; task_result := o |}).
  unfold Tracked. simpl. intros [T1 [T2 [T3 T4]]].
  assert (Fresh : forall u, In u (_runningTaskPool f ++ _finishedTaskPool f ++ inflight f) ->
                            task_id u <> task_id t).
  { intros u I. apply T3 in I. simpl. lia. }
  split; [|split; [|split]].
  - intros u I. apply in_app_iff in I. destruct I as [I|[<-|[]]].
    + destruct (T1 u I) as [H|H]; [left|right; exact H].
      apply pool_has_true in H. destruct H as [w [Iw E]].
      apply pool_has_true. exists w. split; [apply in_or_app; auto|exact E].
    + left. apply pool_has_true. exists t. split; [apply in_or_app; simpl; auto|reflexivity].
  - intros u I. apply pool_has_false. intros w Iw E.
    apply in_app_iff in Iw. destruct Iw as [Iw|[<-|[]]].
    + pose proof (T2 u I) as H. rewrite pool_has_false in H. eapply H; eauto.
    + apply (Fresh u); [|auto]. apply in_or_app. right. apply in_or_app. auto.
  - intros u I. rewrite length_app. simpl.
    assert (D : In u (_runningTaskPool f ++ _finishedTaskPool f ++ inflight f) \/ u = t).
    { repeat rewrite in_app_iff in I. simpl in I. repeat rewrite in_app_iff. intuition. }
    destruct D as [D| ->]; [apply T3 in D; lia|simpl; lia].
  - rewrite map_app. simpl. apply NoDup_app; [exact T4|repeat constructor; auto|].
    intros i I [<-|[]]. apply in_map_iff in I. destruct I as [u [E I]].
    apply (Fresh u); [apply in_or_app; auto|exact E].
Qed.

Lemma Tracked_raised g s f : Tracked f -> Tracked (with_raised g s f).
Proof.
  unfold Tracked. simpl. intros [T1 [T2 [T3 T4]]].
  repeat split; auto. intros t I. apply T3 in I. rewrite length_app. simpl. lia.
Qed.

Lemma Tracked_refill fuel : forall taskSize activeTask f,
  Tracked f -> Tracked (fst (fst (refill fuel taskSize activeTask f))).
Proof.
  induction fuel as [|fuel IH]; intros taskSize activeTask f T; simpl; [exact T|].
  destruct (Z.of_nat (length (_runningTaskPool f)) <? taskSize); [|exact T].
  destruct (gen_next (_generator f)) as [[item|] g]; simpl.
  - destruct (factory item (source item)) as [e|o]; simpl.
    + apply Tracked_raised. exact T.
    + apply IH. apply Tracked_launched. exact T.
  - apply (@Tracked_same f); auto.
Qed.

Lemma Tracked_delete t f :
  Tracked f ->
  Tracked (with_pools (pool_delete t (_runningTaskPool f))
                      (pool_delete t (_finishedTaskPool f)) f).
Proof.
  unfold Tracked. simpl. intros [T1 [T2 [T3 T4]]].
  split; [|split; [|split]].
  - intros u I. apply pool_delete_In in I. destruct I as [I N].
    destruct (T1 u I) as [H|H]; [left; exact H|right].
    apply pool_has_true in H. destruct H as [w [Iw E]].
    apply pool_has_true. exists w. split; [|exact E].
    apply pool_delete_In. split; [exact Iw|congruence].
  - intros u I. apply pool_delete_In in I. apply T2. apply I.
  - intros u I. apply T3. repeat rewrite in_app_iff in *.
    repeat rewrite pool_delete_In in I. tauto.
  - apply NoDup_map_filter. exact T4.
Qed.

Lemma Tracked_settlement t f :
  In t (inflight f) -> Tracked f -> Tracked (with_settlement t f).
Proof.
  unfold Tracked. simpl. intros It [T1 [T2 [T3 T4]]].
  split; [|split; [|split]].
  - intros u I. destruct (Nat.eq_dec (task_id u) (task_id t)) as [E|N].
    + right. apply pool_has_true. exists t. split; [|auto].
      pose proof (pool_add_has t (_finishedTaskPool f)) as H.
      apply pool_has_true in H. destruct H as [w [Iw Ew]].
      unfold pool_add in *. destruct (pool_has t (_finishedTaskPool f)) eqn:P.
      * exfalso. apply pool_has_true in P. destruct P as [x [Ix Ex]].
        pose proof (T2 x Ix) as H. rewrite pool_has_false in H. apply (H t It). auto.
      * apply in_or_app. simpl. auto.
    + destruct (T1 u I) as [H|H].
      * left. apply pool_has_true in H. destruct H as [w [Iw E]].
        apply pool_has_true. exists w. split; [|exact E].
        apply pool_delete_In. split; [exact Iw|congruence].
      * right. apply pool_has_true in H. destruct H as [w [Iw E]].
        apply pool_has_true. exists w. split; [apply pool_add_keeps; exact Iw|exact E].
  - intros u I. apply pool_has_false. intros w Iw E.
    apply pool_delete_In in Iw. destruct Iw as [Iw N].
    apply pool_add_In in I. destruct I as [I| ->]; [|congruence].
    pose proof (T2 u I) as H. rewrite pool_has_false in H. eapply H; eauto.
  - intros u I. apply T3. repeat rewrite in_app_iff in *.
    destruct I as [I|[I|I]]; [auto| |].
    + apply pool_add_In in I. destruct I as [I| ->]; auto.
    + apply pool_delete_In in I. tauto.
  - exact T4.
Qed.

Lemma Tracked_resolve f : Tracked f -> Tracked (fst (_resolveIfNotFailedAndCleanup f)).
Proof.
  intros T. unfold _resolveIfNotFailedAndCleanup.
  destruct (_isResolvedOrRejected f); simpl; apply (@Tracked_cleared f); auto.
Qed.

Lemma Tracked_raise e f : Tracked f -> Tracked (fst (_raiseErrorAndCleanup e f)).
Proof.
  intros T. unfold _raiseErrorAndCleanup. simpl.
  destruct (_isResolvedOrRejected f); simpl; apply (@Tracked_cleared f); auto.
Qed.

Lemma next_tracked fuel stage f f' st :
  next fuel stage f = (f', st) -> Tracked f -> Tracked f'.
Proof.
  apply (@next_moves (fun x y => Tracked x -> Tracked y)); cbv beta; auto.
  - intros x. apply Tracked_refill.
  - intros t x. apply Tracked_delete.
  - apply Tracked_resolve.
  - apply Tracked_raise.
Qed.

Lemma move_tracked fuel f f' : Tracked f -> Move fuel f f' -> Tracked f'.
Proof.
  intros T M.
  destruct M as [f|stage f f' st N|f J|f f1 st Co Cm Fd J N|f|f|e f|f|value f P|h f|t f I|f];
    try (apply (@Tracked_same f); auto; reflexivity).
  - eapply next_tracked; eauto.
  - apply (@Tracked_same f1); try reflexivity.
    eapply next_tracked; [exact N|]. apply (@Tracked_same f); auto; reflexivity.
  - apply Tracked_resolve; auto.
  - apply Tracked_raise; auto.
  - apply (@Tracked_cleared f); auto; reflexivity.
  - apply Tracked_settlement; auto.
Qed.

(** X4: along every run of an engine built by the constructor, whatever
    the interleaving, the pools are consistent: every unit of the running
    pool is either still pending or present in the finished pool; the
    finished pool holds no pending unit; every unit of a pool comes from a
    factory call the engine has made; and no unit is in the running pool
    twice. *)
Theorem pools_track_their_units :
  forall fuel concurrency g f0 evs c,
    Fibers_new concurrency g = inr f0 ->
    run fuel evs (idle f0) = Some c ->
    (forall t, In t (_runningTaskPool (engine c)) ->
               pool_has t (inflight (engine c)) = true \/
               pool_has t (_finishedTaskPool (engine c)) = true) /\
    (forall t, In t (_finishedTaskPool (engine c)) ->
               pool_has t (inflight (engine c)) = false) /\
    (forall t, In t (_runningTaskPool (engine c) ++ _finishedTaskPool (engine c)
                       ++ inflight (engine c)) ->
               (task_id t < length (invoked (engine c)))%nat) /\
    NoDup (map task_id (_runningTaskPool (engine c))).
Proof.
  intros fuel concurrency g f0 evs c New Run.
  apply Fibers_new_level in New. destruct New as [_ ->].
  change (Tracked (engine c)).
  eapply (@run_keeps Tracked fuel (@move_tracked fuel)); [|exact Run].
  unfold Tracked; simpl. repeat split; try (intros t []). constructor.
Qed.

(** ** The order of the factory calls *)

Lemma PulledInOrder_same items fn f f' :
  PulledInOrder items fn f ->
  _generator f' = _generator f \/ _generator f' = gen_dispose (_generator f) ->
  invoked f' = invoked f ->
  PulledInOrder items fn f'.
Proof.
  unfold PulledInOrder. intros [rest [E B]] G I. exists rest. rewrite I.
  split; [exact E|].
  destruct G as [-> | ->]; [exact B|].
  unfold gen_dispose. destruct (hasDispose (_generator f)); [right; reflexivity|exact B].
Qed.

Lemma PulledInOrder_refill items fn fuel : forall taskSize activeTask f,
  PulledInOrder items fn f ->
  PulledInOrder items fn (fst (fst (refill fuel taskSize activeTask f))).
Proof.
  induction fuel as [|fuel IH]; intros taskSize activeTask f P; simpl; [exact P|].
  destruct (Z.of_nat (length (_runningTaskPool f)) <? taskSize); [|exact P].
  destruct P as [rest [E B]].
  unfold gen_next. destruct B as [B|B]; rewrite B.
  - destruct rest as [|x rest]; simpl.
    + exists []. simpl. split; [exact E|right; reflexivity].
    + assert (P' : forall f', invoked f' = invoked f ++ [x] ->
                              body (_generator f') = Iterator rest fn ->
                              PulledInOrder items fn f').
      { intros f' I G. exists rest. rewrite I, <- app_assoc. simpl. auto. }
      destruct (fn x) as [e|o]; simpl.
      * apply P'; reflexivity.
      * apply IH. apply P'; reflexivity.
  - simpl. exists rest. simpl. auto.
Qed.

Lemma run_pulled_in_order items fn fuel evs c c1 :
  run fuel evs c = Some c1 ->
  PulledInOrder items fn (engine c) -> PulledInOrder items fn (engine c1).
Proof.
  apply (@run_moves (fun f f' => PulledInOrder items fn f -> PulledInOrder items fn f'));
    cbv beta; auto.
  - intros x. apply PulledInOrder_refill.
  - intros x P. unfold _resolveIfNotFailedAndCleanup.
    destruct (_isResolvedOrRejected x); simpl;
      apply (@PulledInOrder_same items fn x); auto.
  - intros e x P. unfold _raiseErrorAndCleanup. simpl.
    destruct (_isResolvedOrRejected x); simpl;
      apply (@PulledInOrder_same items fn x); auto.
  - intros x P. apply (@PulledInOrder_same items fn x); auto.
Qed.

(** X5: along every run of an engine made by [Fibers.forEach] over [items],
    whatever the interleaving of steps, [start], [stop], settlements and
    handler verdicts, the factory has been called on a prefix of [items], in
    their order and once per position; the generator holds exactly the
    remaining items unless it is closed. *)
Theorem forEach_calls_the_factory_in_order :
  forall fuel dispose concurrency items fn f0 evs c,
    Fibers_forEach dispose concurrency items fn = inr f0 ->
    run fuel evs (idle f0) = Some c ->
    exists rest,
      items = invoked (engine c) ++ rest /\
      (body (_generator (engine c)) = Iterator rest fn \/
       body (_generator (engine c)) = Closed).
Proof.
  intros fuel dispose concurrency items fn f0 evs c New Run.
  apply Fibers_new_level in New. destruct New as [_ ->].
  change (PulledInOrder items fn (engine c)).
  eapply run_pulled_in_order; [exact Run|].
  exists items. simpl. auto.
Qed.

Lemma CountedInOrder_same start end_ step fn f f' :
  CountedInOrder start end_ step fn f ->
  _generator f' = _generator f \/ _generator f' = gen_dispose (_generator f) ->
  invoked f' = invoked f ->
  CountedInOrder start end_ step fn f'.
Proof.
  unfold CountedInOrder. intros [E [L B]] G I. rewrite I.
  split; [exact E|]. split; [exact L|].
  destruct G as [-> | ->]; [exact B|].
  unfold gen_dispose. destruct (hasDispose (_generator f)); [right; reflexivity|exact B].
Qed.

(** Within the integers up to [2^53] the host adds exactly. *)
Lemma number_add_exact a b :
  - 2 ^ 53 <= a + b <= 2 ^ 53 -> number_add a b = a + b.
Proof.
  intros H. unfold number_add, number_round.
  destruct (Z.abs (a + b) <=? 2 ^ 53) eqn:T; [reflexivity|].
  apply Z.leb_gt in T. lia.
Qed.

Lemma CountedInOrder_refill start end_ step fn fuel :
  ExactRange start end_ step ->
  forall taskSize activeTask f,
  CountedInOrder start end_ step fn f ->
  CountedInOrder start end_ step fn (fst (fst (refill fuel taskSize activeTask f))).
Proof.
  intros [Lo [Pos Hi]].
  induction fuel as [|fuel IH]; intros taskSize activeTask f P; simpl; [exact P|].
  destruct (Z.of_nat (length (_runningTaskPool f)) <? taskSize); [|exact P].
  destruct P as [E [L B]].
  unfold gen_next. destruct B as [B|B]; rewrite B.
  - set (i := start + Z.of_nat (length (invoked f)) * step).
    destruct (i <? end_) eqn:T; simpl.
    + apply Z.ltb_lt in T.
      assert (X : number_add i step = i + step)
        by (apply number_add_exact; unfold i in *; nia).
      rewrite X.
      assert (P' : forall f', invoked f' = invoked f ++ [i] ->
                              body (_generator f') = Sequence (i + step) end_ step fn ->
                              CountedInOrder start end_ step fn f').
      { intros f' I G. unfold CountedInOrder. rewrite I, G, length_app.
        change (length [i]) with 1%nat.
        rewrite Nat.add_1_r, seq_S, map_app. cbn [map Nat.add].
        split; [rewrite <- E; reflexivity|]. split.
        - intros s Is. apply in_app_iff in Is. destruct Is as [Is|[<-|[]]]; auto.
        - left. f_equal. unfold i. rewrite Nat2Z.inj_succ. ring. }
      destruct (fn i) as [e|o]; simpl.
      * apply P'; reflexivity.
      * apply IH. apply P'; reflexivity.
    + split; [exact E|]. split; [exact L|]. right. reflexivity.
  - simpl. split; [exact E|]. split; [exact L|]. right. exact B.
Qed.

Lemma run_counted_in_order start end_ step fn fuel evs c c1 :
  ExactRange start end_ step ->
  run fuel evs c = Some c1 ->
  CountedInOrder start end_ step fn (engine c) ->
  CountedInOrder start end_ step fn (engine c1).
Proof.
  intros X.
  apply (@run_moves (fun f f' => CountedInOrder start end_ step fn f ->
                                  CountedInOrder start end_ step fn f'));
    cbv beta; auto.
  - intros x. apply CountedInOrder_refill. exact X.
  - intros x P. unfold _resolveIfNotFailedAndCleanup.
    destruct (_isResolvedOrRejected x); simpl;
      apply (@CountedInOrder_same start end_ step fn x); auto.
  - intros e x P. unfold _raiseErrorAndCleanup. simpl.
    destruct (_isResolvedOrRejected x); simpl;
      apply (@CountedInOrder_same start end_ step fn x); auto.
  - intros x P. apply (@CountedInOrder_same start end_ step fn x); auto.
Qed.

(** X6: take integer indices within the range the host adds exactly: a step
    that is not negative, [-2^53 <= start] and [end + step <= 2^53].  Along
    every run of an engine made by [Fibers.for], whatever the interleaving,
    the [k]-th factory call has been made on the index [start + k * step],
    every index the factory was called on is below [end], and the generator
    stands at the next index unless it is closed. *)
Theorem for_calls_the_factory_on_successive_indices :
  forall fuel dispose concurrency start end_ step fn f0 evs c,
    ExactRange start end_ step ->
    Fibers_for dispose concurrency start end_ step fn = inr f0 ->
    run fuel evs (idle f0) = Some c ->
    invoked (engine c)
      = map (fun k => start + Z.of_nat k * step) (seq 0 (length (invoked (engine c)))) /\
    (forall s, In s (invoked (engine c)) -> s < end_) /\
    (body (_generator (engine c))
       = Sequence (start + Z.of_nat (length (invoked (engine c))) * step) end_ step fn \/
     body (_generator (engine c)) = Closed).
Proof.
  intros fuel dispose concurrency start end_ step fn f0 evs c X New Run.
  apply Fibers_new_level in New. destruct New as [_ ->].
  change (CountedInOrder start end_ step fn (engine c)).
  eapply run_counted_in_order; [exact X|exact Run|].
  unfold CountedInOrder; simpl. split; [reflexivity|]. split; [intros s []|].
  left. unfold _sequence. rewrite Z.add_0_r. reflexivity.
Qed.

(** ** What the sequence generator yields *)





(** ** [start] and [stop] *)

Lemma start_with_job fuel c :
  _activeBackgroundJob (engine c) = true ->
  exists s, start fuel c = Some (c, s).
Proof.
  intros J. unfold start.
  destruct (_isGeneratorConsuming (engine c)); [eauto|].
  destruct (_isCompleted (engine c) || _isFailed (engine c)); [eauto|].
  rewrite J. eauto.
Qed.

(** X8: [start()] is idempotent: once a call of [start] has been made,
    a second call changes nothing -- it starts no second job and calls no
    factory -- whether the first one started the job, found one running,
    returned at once on a completed or failed engine, or threw during an
    iteration. *)
Theorem start_twice_is_start_once :
  forall fuel c c1,
    step fuel CallStart c = Some c1 ->
    step fuel CallStart c1 = Some c1 /\
    forall evs, run fuel (CallStart :: CallStart :: evs) c = run fuel (CallStart :: evs) c.
Proof.
  intros fuel c c1 S.
  assert (S1 : step fuel CallStart c1 = Some c1).
  { simpl in *. destruct (start fuel c) as [[c2 s]|] eqn:E; [|discriminate].
    inversion S; subst. clear S. unfold start in E.
    destruct (_isGeneratorConsuming (engine c)) eqn:Co.
    { inversion E; subst. unfold start. rewrite Co. reflexivity. }
    destruct (_isCompleted (engine c) || _isFailed (engine c)) eqn:Cf.
    { inversion E; subst. unfold start. rewrite Co, Cf. reflexivity. }
    destruct (_activeBackgroundJob (engine c)) eqn:J.
    { inversion E; subst. unfold start. rewrite Co, Cf, J. reflexivity. }
    destruct (_runInBackground fuel (parked c) (results c)
                (with_background true false (engine c))) as [c2|]; [|discriminate].
    inversion E; subst.
    destruct (@start_with_job fuel
                (with_engine
                   (with_background (_allowBackgroundJobRunning (engine c2)) true (engine c2))
                   c2) eq_refl) as [s' ->].
    reflexivity. }
  split; [exact S1|].
  intros evs. cbn [run]. rewrite S, S1. reflexivity.
Qed.

(** X9: [stop()] is not undone by a [start()] made while the job is still
    recorded.  With the job waiting on a step that has yielded a value,
    [stop(); start()] leaves the allow flag clear, and when the job
    continues it ends ([started] is cleared) without calling [next]: no
    factory is called and the pools are left as they are. *)
Theorem start_does_not_undo_stop :
  forall fuel c k v,
    started (engine c) = true ->
    nth_error (parked c) k = Some (InBackground (Value v)) ->
    exists c',
      run fuel [CallStop; CallStart; Resume k] c = Some c' /\
      engine c' = with_background false false (engine c) /\
      started (engine c') = false /\
      invoked (engine c') = invoked (engine c) /\
      _runningTaskPool (engine c') = _runningTaskPool (engine c) /\
      parked c' = drop_nth k (parked c).
Proof.
  intros fuel c k v J P. unfold started in J.
  cbn [run]. cbn [step].
  destruct (@start_with_job fuel (with_engine (stop (engine c)) c)) as [s ->];
    [simpl; exact J|].
  cbn [step]. simpl parked. rewrite P.
  unfold _runInBackground. simpl.
  eexists. split; [reflexivity|]. simpl. repeat split; reflexivity.
Qed.

(** ** Teardown composes *)

Lemma gen_dispose_twice g : gen_dispose (gen_dispose g) = gen_dispose g.
Proof. unfold gen_dispose. destruct (hasDispose g) eqn:D; simpl; [reflexivity|rewrite D; reflexivity]. Qed.

Lemma cleanup_twice f : _cleanup (_cleanup f) = _cleanup f.
Proof. unfold _cleanup. simpl. rewrite gen_dispose_twice. reflexivity. Qed.

Lemma return_settles f : _isResolvedOrRejected (fst (return_ f)) = true.
Proof.
  unfold return_, _resolveIfNotFailedAndCleanup.
  destruct (_isResolvedOrRejected f) eqn:Fl; simpl; [exact Fl|reflexivity].
Qed.

Lemma return_is_cleanup f :
  exists x, fst (return_ f) = _cleanup x.
Proof.
  unfold return_, _resolveIfNotFailedAndCleanup.
  destruct (_isResolvedOrRejected f); simpl; eauto.
Qed.

Lemma throw_is_cleanup e f :
  exists x, fst (throw e f) = _cleanup x /\ _isFailed x = true /\
            _isResolvedOrRejected (_cleanup x) = true.
Proof.
  unfold throw, _raiseErrorAndCleanup. simpl.
  destruct (_isResolvedOrRejected f) eqn:Fl; simpl; eexists; split; try reflexivity; simpl; auto.
Qed.

(** X10: the closing methods compose.  After [return()], a further
    [return()] or [[Symbol.asyncDispose]()] changes nothing, and [throw(e)]
    changes only [failed], which it sets: the lifecycle promise keeps the
    outcome it had.  After [throw(e)], a further [return()], disposal or
    [throw(e')] changes nothing at all: the first error stays. *)
Theorem closing_methods_compose :
  forall f e e',
    (fst (return_ (fst (return_ f))) = fst (return_ f) /\
     asyncDispose (fst (return_ f)) = fst (return_ f) /\
     fst (throw e (fst (return_ f))) = with_failed (fst (return_ f)) /\
     promise (fst (throw e (fst (return_ f)))) = promise (fst (return_ f))) /\
    (fst (return_ (fst (throw e f))) = fst (throw e f) /\
     asyncDispose (fst (throw e f)) = fst (throw e f) /\
     fst (throw e' (fst (throw e f))) = fst (throw e f)).
Proof.
  intros f e e'. split.
  - pose proof (return_settles f) as Fl.
    destruct (return_is_cleanup f) as [x E]. rewrite E in *.
    assert (T : fst (throw e (_cleanup x)) = with_failed (_cleanup x)).
    { unfold throw, _raiseErrorAndCleanup. simpl in *. rewrite Fl. simpl.
      unfold _cleanup, with_failed. simpl. rewrite gen_dispose_twice. reflexivity. }
    split; [|split; [|split]].
    + unfold return_, _resolveIfNotFailedAndCleanup. rewrite Fl. simpl.
      apply cleanup_twice.
    + apply cleanup_twice.
    + exact T.
    + rewrite T. reflexivity.
  - destruct (throw_is_cleanup e f) as [x [E [Fd Fl]]]. rewrite E.
    split; [|split].
    + unfold return_, _resolveIfNotFailedAndCleanup. rewrite Fl. simpl.
      apply cleanup_twice.
    + apply cleanup_twice.
    + unfold throw, _raiseErrorAndCleanup. simpl in *. rewrite Fl. simpl.
      unfold _cleanup, with_failed. simpl. rewrite gen_dispose_twice, Fd. reflexivity.
Qed.

(** ** [Fibers.delay] settles once *)

Lemma delay_count hasDOM milliseconds ac :
  let w := Delay.delay hasDOM milliseconds ac in
  (Delay.setTimeoutCalls w <= 1)%nat /\
  (Delay.clearTimeoutCalls w = 0)%nat /\
  (Delay.promise w = None -> Delay.timer w <> None).
Proof. destruct ac as [[|]|]; simpl; repeat split; auto; discriminate. Qed.

Lemma delay_step_count hasDOM ev w w1 :
  Delay.step hasDOM ev w = Some w1 ->
  ((Delay.clearTimeoutCalls w = 0)%nat /\ (Delay.promise w = None -> Delay.timer w <> None)
   \/ (Delay.clearTimeoutCalls w = 1)%nat /\ Delay.timer w = None /\
      Delay.listening w = false /\ Delay.promise w <> None) ->
  Delay.setTimeoutCalls w1 = Delay.setTimeoutCalls w /\
  ((Delay.clearTimeoutCalls w1 = 0)%nat /\ (Delay.promise w1 = None -> Delay.timer w1 <> None)
   \/ (Delay.clearTimeoutCalls w1 = 1)%nat /\ Delay.timer w1 = None /\
      Delay.listening w1 = false /\ Delay.promise w1 <> None).
Proof.
  destruct ev; simpl.
  - unfold Delay.fire. destruct (Delay.timer w) eqn:T; [|discriminate].
    intros H; inversion H; subst; simpl. intros [[C _]|[_ [T' _]]]; [|congruence].
    split; [reflexivity|]. right. rewrite C.
    repeat split; auto. destruct (Delay.promise w); discriminate.
  - unfold Delay.abort.
    destruct (Delay.signalAborted w) as [[|]|]; try discriminate.
    + intros H; inversion H; subst. auto.
    + destruct (Delay.listening w) eqn:L; intros H; inversion H; subst; simpl.
      * intros [[C _]|[_ [_ [L' _]]]]; [|congruence].
        split; [reflexivity|]. right. rewrite C.
        repeat split; auto. destruct (Delay.promise w); discriminate.
      * auto.
Qed.

(** X11: one call of [delay], whatever the order and number of timer and
    abort events after it: [setTimeout] has been called at most once and
    [clearTimeout] at most once, and once the promise has settled it keeps
    its outcome -- an abort after the delay has elapsed does not reject it,
    and the timer callback cannot run after an abort. *)
Theorem delay_settles_once :
  forall hasDOM milliseconds ac evs w,
    Delay.run hasDOM evs (Delay.delay hasDOM milliseconds ac) = Some w ->
    (Delay.setTimeoutCalls w <= 1)%nat /\
    (Delay.clearTimeoutCalls w <= 1)%nat /\
    (forall o, Delay.promise w = Some o ->
       forall evs' w', Delay.run hasDOM evs' w = Some w' -> Delay.promise w' = Some o) /\
    (forall error, Delay.promise w = Some (Delay.Aborted error) ->
       Delay.step hasDOM Delay.TimerFires w = None).
Proof.
  intros hasDOM milliseconds ac evs w Run.
  assert (G : forall evs w0 w1,
             Delay.run hasDOM evs w0 = Some w1 ->
             ((Delay.clearTimeoutCalls w0 = 0)%nat /\
              (Delay.promise w0 = None -> Delay.timer w0 <> None)
              \/ (Delay.clearTimeoutCalls w0 = 1)%nat /\ Delay.timer w0 = None /\
                 Delay.listening w0 = false /\ Delay.promise w0 <> None) ->
             Delay.setTimeoutCalls w1 = Delay.setTimeoutCalls w0 /\
             ((Delay.clearTimeoutCalls w1 = 0)%nat /\
              (Delay.promise w1 = None -> Delay.timer w1 <> None)
              \/ (Delay.clearTimeoutCalls w1 = 1)%nat /\ Delay.timer w1 = None /\
                 Delay.listening w1 = false /\ Delay.promise w1 <> None)).
  { clear. induction evs as [|ev evs IH]; intros w0 w1 H I; simpl in H.
    - inversion H; subst. auto.
    - destruct (Delay.step hasDOM ev w0) as [w2|] eqn:E; [|discriminate].
      destruct (@delay_step_count _ _ _ _ E I) as [S2 I2].
      destruct (IH _ _ H I2) as [S1 I1]. split; [congruence|exact I1]. }
  destruct (delay_count hasDOM milliseconds ac) as [S0 [C0 T0]].
  destruct (G _ _ _ Run (or_introl (conj C0 T0))) as [S I].
  pose proof (@delay_run_released _ _ _ _ Run (delay_released _ _ _)) as [Rel _].
  split; [rewrite S; exact S0|]. split; [destruct I as [[C _]|[C _]]; rewrite C; lia|].
  split.
  - intros o P evs' w' Run'.
    destruct (@delay_run_released _ _ _ _ Run' Rel) as [_ K]. apply K. exact P.
  - intros error P. simpl. unfold Delay.fire.
    destruct (Rel ltac:(rewrite P; discriminate)) as [T _]. rewrite T. reflexivity.
Qed.

(** ** One unit at a time *)

Lemma host_turns_settled n fuel c : parked c = [] -> host_turns n fuel c = Some c.
Proof.
  intros P. induction n as [|n IH]; [reflexivity|].
  simpl. unfold host_turn. rewrite P. exact IH.
Qed.

Lemma host_turns_turn n fuel c c' :
  host_turn fuel c = Some c' ->
  host_turns (S n) fuel c = host_turns n fuel c'.
Proof. intros H. simpl. rewrite H. reflexivity. Qed.

Lemma await_call_turn loop n fuel c c' :
  host_turn fuel c = Some c' ->
  await_call loop (S n) fuel c = await_call loop n fuel c'.
Proof. intros H. unfold await_call. simpl. rewrite H. reflexivity. Qed.

Lemma await_call_settled loop n fuel c :
  parked c = [] ->
  await_call loop n fuel c =
  match last (results c) Done with
  | Value _ => loop c
  | _ => Some c
  end.
Proof.
  intros P. unfold await_call. rewrite host_turns_settled by exact P.
  rewrite P. reflexivity.
Qed.

Lemma sequential_last fn h rs items :
  last (rs ++ sequential fn h items) Done = last (sequential fn h items) Done.
Proof.
  assert (N : sequential fn h items <> []).
  { induction items as [|x rest IH]; simpl; [discriminate|].
    destruct (fn x) as [e|[v|e]]; try discriminate;
      destruct (verdict h e); auto; discriminate. }
  revert N. generalize (sequential fn h items). intros l N.
  induction rs as [|r rs IH]; [reflexivity|].
  simpl. destruct (rs ++ l) eqn:E; [|exact IH].
  destruct rs; simpl in E; [contradiction|discriminate].
Qed.

Lemma yields_iterator fn dispose items :
  yields fn items {| body := _iterator items fn; hasDispose := dispose |}.
Proof.
  unfold _iterator. induction items as [|x rest IH]; simpl; [reflexivity|].
  eexists. split; [reflexivity|]. exact IH.
Qed.

Lemma yields_sequence fn dispose end_ step : forall k i,
  - 2 ^ 53 <= i -> 0 <= step -> end_ + step <= 2 ^ 53 ->
  (forall j, (j < k)%nat -> i + Z.of_nat j * step < end_) ->
  end_ <= i + Z.of_nat k * step ->
  yields fn (map (fun j => i + Z.of_nat j * step) (seq 0 k))
         {| body := Sequence i end_ step fn; hasDispose := dispose |}.
Proof.
  induction k as [|k IH]; intros i Lo Pos Hi Below Above.
  - simpl. unfold gen_next; simpl.
    destruct (i <? end_) eqn:T; [apply Z.ltb_lt in T; simpl in Above; lia|reflexivity].
  - cbn [seq map yields]. unfold gen_next. cbn [body hasDispose].
    assert (B0 : i + Z.of_nat 0 * step < end_) by (apply Below; lia).
    destruct (i <? end_) eqn:T; [|apply Z.ltb_ge in T; simpl in B0; lia].
    apply Z.ltb_lt in T.
    rewrite number_add_exact by lia.
    eexists. split; [f_equal; f_equal; f_equal; simpl; lia|].
    rewrite <- seq_shift, map_map.
    rewrite (map_ext _ (fun j => (i + step) + Z.of_nat j * step))
      by (intros j; rewrite Nat2Z.inj_succ; ring).
    apply IH; [lia|lia|lia| |].
    + intros j L. specialize (Below (S j)). rewrite Nat2Z.inj_succ in Below.
      assert (B : i + Z.succ (Z.of_nat j) * step < end_) by (apply Below; lia).
      replace (i + step + Z.of_nat j * step) with (i + Z.succ (Z.of_nat j) * step) by ring.
      exact B.
    + rewrite Nat2Z.inj_succ in Above.
      replace (i + step + Z.of_nat k * step) with (i + Z.succ (Z.of_nat k) * step) by ring.
      exact Above.
Qed.

Lemma yields_indices fn dispose start end_ step :
  0 < step ->
  ExactRange start end_ step ->
  yields fn (indices start end_ step)
         {| body := _sequence start end_ step fn; hasDispose := dispose |}.
Proof.
  intros Pos [Lo [_ Hi]]. unfold indices, _sequence.
  set (q := (end_ - start + step - 1) / step).
  assert (Lq : step * q <= end_ - start + step - 1)
    by (apply Z.mul_div_le; exact Pos).
  assert (Hq : end_ - start + step - 1 < step * Z.succ q)
    by (apply Z.mul_succ_div_gt; exact Pos).
  apply yields_sequence; [lia|lia|lia| |].
  - intros j L. assert (J : Z.of_nat j < q) by lia. nia.
  - destruct (Z.le_gt_cases 0 q) as [Q|Q].
    + rewrite Z2Nat.id by exact Q. nia.
    + replace (Z.to_nat q) with 0%nat by lia. simpl. nia.
Qed.

Section Single.
Variable fn : Src -> Launch.
Variable h : option FiberErrorHandler.
Variables cons allow job : bool.

(** The segments of [next] at level 1, from an engine between two units. *)
Lemma enter_done fuel g inv :
  fst (gen_next g) = None ->
  exists f',
    next fuel Enter (single g h cons allow job [] [] [] inv) = (f', Settles Done) /\
    started f' = false /\ _isGeneratorConsuming f' = false /\ Ended f' Done inv.
Proof.
  intros G. rewrite next_unfold. unfold try_block. simpl.
  destruct (gen_next g) as [o g1]. simpl in G. subst o. simpl.
  eexists. split; [reflexivity|]. unfold Ended. simpl. repeat split; reflexivity.
Qed.

Lemma try_raises g g' x e inv :
  gen_next g = (Some {| source := x; factory := fn |}, g') ->
  fn x = Raises e ->
  try_block Enter (single g h cons allow job [] [] [] inv)
  = (single g' h cons allow job [] [] [] (inv ++ [x]), None, Raised e).
Proof.
  intros G F. unfold try_block. simpl. rewrite G. simpl. rewrite F. reflexivity.
Qed.

Lemma enter_raises_skip fuel g g' x e inv :
  gen_next g = (Some {| source := x; factory := fn |}, g') ->
  fn x = Raises e ->
  verdict h e = Skip ->
  next (S fuel) Enter (single g h cons allow job [] [] [] inv)
  = next fuel Enter (single g' h cons allow job [] [] [] (inv ++ [x])).
Proof.
  intros G F V. rewrite next_unfold. rewrite (@try_raises g g' x e inv G F).
  unfold after_try. unfold consult. cbn [single b_errorHandler]. fold (verdict h e).
  rewrite V. reflexivity.
Qed.

Lemma enter_raises_ends fuel g g' x e inv :
  gen_next g = (Some {| source := x; factory := fn |}, g') ->
  fn x = Raises e ->
  verdict h e <> Skip ->
  exists f',
    next fuel Enter (single g h cons allow job [] [] [] inv)
    = (f', Settles (match verdict h e with Stop => Done | _ => Throws e end)) /\
    started f' = false /\ _isGeneratorConsuming f' = false /\
    Ended f' (match verdict h e with Stop => Done | _ => Throws e end) (inv ++ [x]).
Proof.
  intros G F V. rewrite next_unfold. rewrite (@try_raises g g' x e inv G F).
  unfold after_try. unfold consult. cbn [single b_errorHandler]. fold (verdict h e).
  destruct (verdict h e); [|congruence|]; simpl;
    (eexists; split; [reflexivity|]); unfold Ended; simpl; repeat split; reflexivity.
Qed.

Lemma enter_promises fuel g g' x o inv :
  gen_next g = (Some {| source := x; factory := fn |}, g') ->
  fn x = Promises o ->
  next fuel Enter (single g h cons allow job [] [] [] inv)
  = (single g' h cons allow job [unit_of inv x o] [] [unit_of inv x o] (inv ++ [x]),
     Parks (AwaitRace [unit_of inv x o] None (Some (unit_of inv x o)))).
Proof.
  intros G F. rewrite next_unfold. unfold try_block. simpl. rewrite G. simpl.
  rewrite F. simpl.
  unfold already_settled, pool_has, same_task. simpl. rewrite Nat.eqb_refl. reflexivity.
Qed.

Lemma finally_unit g inv x o inv' :
  finally_block (Some (unit_of inv x o)) false
    (single g h cons allow job [unit_of inv x o] [unit_of inv x o] [] inv')
  = (single g h cons allow job [] [] [] inv', None).
Proof.
  unfold finally_block, pool_delete, same_task, with_pools, single. simpl.
  rewrite Nat.eqb_refl. reflexivity.
Qed.

(** The turns of the host while a call waits for its unit. *)
Lemma settle_turn fuel g inv x o rs who :
  host_turn fuel
    {| engine := single g h cons allow job [unit_of inv x o] [] [unit_of inv x o] (inv ++ [x]);
       parked := [InNext who (AwaitRace [unit_of inv x o] None (Some (unit_of inv x o)))];
       results := rs |}
  = Some {| engine := single g h cons allow job [unit_of inv x o] [unit_of inv x o] []
                        (inv ++ [x]);
            parked := [InNext who (AwaitRace [unit_of inv x o]
                                     (Some (unit_of inv x o)) (Some (unit_of inv x o)))];
            results := rs |}.
Proof.
  unfold host_turn. simpl. rewrite Nat.eqb_refl. simpl.
  unfold with_settlement, single, pool_add, pool_delete, pool_has, same_task. simpl.
  rewrite Nat.eqb_refl. simpl. reflexivity.
Qed.

Lemma race_turn_fulfilled fuel g inv x v rs who :
  host_turn fuel
    {| engine := single g h cons allow job [unit_of inv x (Fulfilled v)]
                   [unit_of inv x (Fulfilled v)] [] (inv ++ [x]);
       parked := [InNext who (AwaitRace [unit_of inv x (Fulfilled v)]
                                (Some (unit_of inv x (Fulfilled v)))
                                (Some (unit_of inv x (Fulfilled v))))];
       results := rs |}
  = Some {| engine := single g h cons allow job [unit_of inv x (Fulfilled v)]
                        [unit_of inv x (Fulfilled v)] [] (inv ++ [x]);
            parked := [InNext who (AwaitTask (unit_of inv x (Fulfilled v)))];
            results := rs |}.
Proof. unfold host_turn. simpl. rewrite next_unfold. reflexivity. Qed.

Lemma task_turn_fulfilled fuel g inv x v rs who :
  host_turn fuel
    {| engine := single g h cons allow job [unit_of inv x (Fulfilled v)]
                   [unit_of inv x (Fulfilled v)] [] (inv ++ [x]);
       parked := [InNext who (AwaitTask (unit_of inv x (Fulfilled v)))];
       results := rs |}
  = land who [] rs (single g h cons allow job [] [] [] (inv ++ [x]), Settles (Value v)).
Proof.
  unfold host_turn. cbn [parked step nth_error drop_nth engine results].
  rewrite next_unfold. cbn [try_block unit_of task_result].
  unfold after_try. fold (unit_of inv x (Fulfilled v)). rewrite finally_unit. reflexivity.
Qed.

Lemma race_turn_skip fuel g inv x e rs who :
  verdict h e = Skip ->
  host_turn (S fuel)
    {| engine := single g h cons allow job [unit_of inv x (Rejected e)]
                   [unit_of inv x (Rejected e)] [] (inv ++ [x]);
       parked := [InNext who (AwaitRace [unit_of inv x (Rejected e)]
                                (Some (unit_of inv x (Rejected e)))
                                (Some (unit_of inv x (Rejected e))))];
       results := rs |}
  = land who [] rs (next fuel Enter (single g h cons allow job [] [] [] (inv ++ [x]))).
Proof.
  intros V. unfold host_turn. cbn [parked step nth_error drop_nth engine results].
  rewrite next_unfold. cbn [try_block unit_of task_result].
  unfold after_try. unfold consult. cbn [single b_errorHandler]. fold (verdict h e).
  rewrite V. fold (unit_of inv x (Rejected e)).
  fold (single g h cons allow job [unit_of inv x (Rejected e)]
          [unit_of inv x (Rejected e)] [] (inv ++ [x])).
  rewrite finally_unit. reflexivity.
Qed.

Lemma race_turn_ends fuel g inv x e rs who :
  verdict h e <> Skip ->
  exists f',
    host_turn fuel
      {| engine := single g h cons allow job [unit_of inv x (Rejected e)]
                     [unit_of inv x (Rejected e)] [] (inv ++ [x]);
         parked := [InNext who (AwaitRace [unit_of inv x (Rejected e)]
                                  (Some (unit_of inv x (Rejected e)))
                                  (Some (unit_of inv x (Rejected e))))];
         results := rs |}
    = land who [] rs
        (f', Settles (match verdict h e with Stop => Done | _ => Throws e end)) /\
    started f' = false /\ _isGeneratorConsuming f' = false /\
    Ended f' (match verdict h e with Stop => Done | _ => Throws e end) (inv ++ [x]).
Proof.
  intros V. unfold host_turn. cbn [parked step nth_error drop_nth engine results].
  rewrite next_unfold. cbn [try_block unit_of task_result].
  unfold after_try. unfold consult. cbn [single b_errorHandler]. fold (verdict h e).
  destruct (verdict h e); [|congruence|]; simpl;
    (eexists; split; [reflexivity|]); unfold Ended; simpl; repeat split; reflexivity.
Qed.

End Single.

Section Loop.
Variable fn : Src -> Launch.
Variable h : option FiberErrorHandler.

Lemma for_await_pending r turns fuel c :
  parked c = [] ->
  for_await (S r) turns fuel c
  = pending (for_await r turns fuel) turns fuel fuel (results c) (engine c).
Proof. intros P. simpl. unfold pending. rewrite P. reflexivity. Qed.

Lemma Over_intro f rs r called :
  _isGeneratorConsuming f = false ->
  Ended f r called ->
  Over {| engine := f; parked := []; results := rs ++ [r] |} (rs ++ [r]) called.
Proof.
  intros Co E. unfold Over. simpl. rewrite last_last. auto.
Qed.

Lemma await_call_over loop n fuel f rs r called :
  (forall v, r <> Value v) ->
  _isGeneratorConsuming f = false ->
  Ended f r called ->
  exists c,
    match land Consumer [] rs (f, Settles r) with
    | Some c1 => await_call loop n fuel c1
    | None => None
    end = Some c /\
    Over c (rs ++ [r]) called.
Proof.
  intros NV Co E. simpl. rewrite await_call_settled by reflexivity.
  simpl. rewrite last_last.
  eexists. split; [|apply Over_intro; eassumption].
  destruct r; try reflexivity. destruct (NV v eq_refl).
Qed.

Lemma closing_no_value (w : Verdict) (e : Err) v :
  match w with Stop => Done | _ => Throws e end <> Value v.
Proof. destruct w; discriminate. Qed.

(** The loop, from a call of [next] made between two units. *)
Lemma loop_is_sequential :
  forall items g inv rs r turns tr fuel fuel',
    yields fn items g ->
    (length items <= r)%nat ->
    (3 * length items <= turns)%nat ->
    (3 * length items <= tr)%nat ->
    (length items <= fuel)%nat ->
    (length items <= fuel')%nat ->
    exists c,
      pending (for_await r turns fuel) tr fuel fuel' rs
        (single g h true false false [] [] [] inv) = Some c /\
      Over c (rs ++ sequential fn h items) (inv ++ visited fn h items).
Proof.
  induction items as [|x rest IH]; intros g inv rs r turns tr fuel fuel' Y Hr Ht Htr Hf Hf'.
  - simpl in *. rewrite app_nil_r. unfold pending.
    destruct (@enter_done h true false false fuel' g inv Y) as [f' [E [_ [Co En]]]].
    rewrite E. apply await_call_over; [discriminate|exact Co|exact En].
  - destruct Y as [g' [G Y]]. cbn [length] in *. cbn [sequential visited].
    destruct (fn x) as [e|[v|e]] eqn:F.
    + destruct (verdict h e) eqn:V.
      * destruct (@enter_raises_ends fn h true false false fuel' g g' x e inv G F)
          as [f' [E [_ [Co En]]]]; [congruence|].
        unfold pending. rewrite E. rewrite V in *.
        apply await_call_over; [discriminate|exact Co|exact En].
      * destruct fuel' as [|fuel']; [lia|].
        unfold pending.
        rewrite (@enter_raises_skip fn h true false false fuel' g g' x e inv G F V).
        destruct (IH g' (inv ++ [x]) rs r turns tr fuel fuel' Y) as [c [E O]]; try lia.
        exists c. split; [exact E|]. rewrite <- app_assoc in O. exact O.
      * destruct (@enter_raises_ends fn h true false false fuel' g g' x e inv G F)
          as [f' [E [_ [Co En]]]]; [congruence|].
        unfold pending. rewrite E. rewrite V in *.
        apply await_call_over; [discriminate|exact Co|exact En].
    + unfold pending.
      rewrite (@enter_promises fn h true false false fuel' g g' x _ inv G F).
      cbn [land snd fst app].
      destruct tr as [|[|[|tr]]]; try lia.
      erewrite await_call_turn by apply settle_turn.
      erewrite await_call_turn by apply race_turn_fulfilled.
      erewrite await_call_turn by (rewrite task_turn_fulfilled; reflexivity).
      rewrite await_call_settled by reflexivity.
      cbn [results app]. rewrite last_last.
      destruct r as [|r]; [lia|].
      rewrite for_await_pending by reflexivity. cbn [results engine].
      destruct (IH g' (inv ++ [x]) (rs ++ [Value v]) r turns turns fuel fuel Y)
        as [c [E O]]; try lia.
      exists c. split; [exact E|]. rewrite <- !app_assoc in O. exact O.
    + unfold pending.
      rewrite (@enter_promises fn h true false false fuel' g g' x _ inv G F).
      cbn [land snd fst app].
      destruct tr as [|[|tr]]; try lia.
      erewrite await_call_turn by apply settle_turn.
      destruct (verdict h e) eqn:V.
      * destruct (@race_turn_ends h true false false fuel g' inv x e rs Consumer)
          as [f' [E [_ [Co En]]]]; [congruence|].
        rewrite V in *.
        destruct (@await_call_over (for_await r turns fuel) tr fuel f' rs Done (inv ++ [x]))
          as [c [E' O]]; [discriminate|exact Co|exact En|].
        exists c. split; [|exact O].
        rewrite <- E'. unfold await_call. cbn [host_turns]. rewrite E. reflexivity.
      * destruct fuel as [|fuel]; [lia|].
        destruct (IH g' (inv ++ [x]) rs r turns tr (S fuel) fuel Y) as [c [E O]]; try lia.
        exists c. split; [|rewrite <- app_assoc in O; exact O].
        rewrite <- E. unfold pending, await_call. cbn [host_turns].
        rewrite (@race_turn_skip h true false false fuel g' inv x e rs Consumer V).
        destruct (land Consumer [] rs
                    (next fuel Enter (single g' h true false false [] [] [] (inv ++ [x]))));
          reflexivity.
      * destruct (@race_turn_ends h true false false fuel g' inv x e rs Consumer)
          as [f' [E [_ [Co En]]]]; [congruence|].
        rewrite V in *.
        destruct (@await_call_over (for_await r turns fuel) tr fuel f' rs (Throws e) (inv ++ [x]))
          as [c [E' O]]; [discriminate|exact Co|exact En|].
        exists c. split; [|exact O].
        rewrite <- E'. unfold await_call. cbn [host_turns]. rewrite E. reflexivity.
Qed.

(** [for await] over a new engine at level 1. *)
Lemma new_is_sequential g items f0 rounds turns fuel :
  Fibers_new 1 g = inr f0 ->
  yields fn items g ->
  (length items < rounds)%nat ->
  (3 * length items <= turns)%nat ->
  (length items <= fuel)%nat ->
  exists c,
    forAwait rounds turns fuel (setErrorHandler h f0) = Some c /\
    Over c (sequential fn h items) (visited fn h items).
Proof.
  intros New Y Hr Ht Hf. unfold Fibers_new, set_concurrency in New. simpl in New.
  inversion New; subst f0. clear New.
  unfold forAwait, asyncIterator. simpl.
  destruct rounds as [|r]; [lia|].
  rewrite for_await_pending by reflexivity.
  apply (@loop_is_sequential items g [] [] r turns turns fuel fuel Y); lia.
Qed.

End Loop.

Section Job.
Variable fn : Src -> Launch.
Variable h : option FiberErrorHandler.

Lemma job_ends (first : bool) n fuel f r called :
  (forall v, r <> Value v) ->
  Ended f r called ->
  exists c,
    match land Background [] [] (f, Settles r) with
    | Some c1 => host_turns (S n) fuel (if first then job_stored c1 else c1)
    | None => None
    end = Some c /\
    JobOver c r called.
Proof.
  intros NV [I [Co [R [Fi [P Fa]]]]].
  cbn [land snd fst app].
  assert (T : forall f1, invoked f1 = invoked f -> completed f1 = completed f ->
                _runningTaskPool f1 = _runningTaskPool f ->
                _finishedTaskPool f1 = _finishedTaskPool f ->
                promise f1 = promise f -> failed f1 = failed f ->
                exists c,
                  host_turns (S n) fuel
                    {| engine := f1; parked := [InBackground r]; results := [] |} = Some c /\
                  JobOver c r called).
  { intros f1 I1 Co1 R1 Fi1 P1 Fa1.
    exists {| engine := with_background false false f1; parked := []; results := [] |}.
    split.
    - erewrite host_turns_turn; [apply host_turns_settled; reflexivity|].
      unfold host_turn. cbn [parked step nth_error drop_nth engine results].
      destruct r; try reflexivity. destruct (NV v eq_refl).
    - unfold JobOver, Ended. simpl.
      unfold completed, promise, failed in *. simpl.
      rewrite I1, Co1, R1, Fi1, P1, Fa1. auto 10. }
  destruct first; apply T; reflexivity.
Qed.

Lemma job_turn n fuel g inv v :
  host_turns (S n) fuel
    {| engine := single g h false true true [] [] [] inv;
       parked := [InBackground (Value v)]; results := [] |}
  = pending_job false n fuel fuel (single g h false true true [] [] [] inv).
Proof.
  cbn [host_turns]. unfold host_turn. cbn [parked step nth_error drop_nth engine results].
  unfold _runInBackground, pending_job. cbn [single _allowBackgroundJobRunning _isFailed
    _isCompleted andb negb].
  reflexivity.
Qed.

(** The background job, from a call of [next] made between two units. *)
Lemma job_is_sequential :
  forall items g inv first tr fuel fuel',
    yields fn items g ->
    (4 * length items + 1 <= tr)%nat ->
    (length items <= fuel)%nat ->
    (length items <= fuel')%nat ->
    exists c,
      pending_job first tr fuel fuel' (single g h false true (negb first) [] [] [] inv)
      = Some c /\
      JobOver c (last (sequential fn h items) Done) (inv ++ visited fn h items).
Proof.
  induction items as [|x rest IH]; intros g inv first tr fuel fuel' Y Htr Hf Hf'.
  - simpl in *. rewrite app_nil_r. unfold pending_job.
    destruct (@enter_done h false true (negb first) fuel' g inv Y) as [f' [E [_ [_ En]]]].
    rewrite E. destruct tr as [|tr]; [lia|].
    apply job_ends; [discriminate|exact En].
  - destruct Y as [g' [G Y]]. cbn [length] in *. cbn [sequential visited].
    destruct (fn x) as [e|[v|e]] eqn:F.
    + destruct (verdict h e) eqn:V.
      * destruct (@enter_raises_ends fn h false true (negb first) fuel' g g' x e inv G F)
          as [f' [E [_ [_ En]]]]; [congruence|].
        unfold pending_job. rewrite E. rewrite V in *. destruct tr as [|tr]; [lia|].
        apply job_ends; [discriminate|exact En].
      * destruct fuel' as [|fuel']; [lia|].
        unfold pending_job.
        rewrite (@enter_raises_skip fn h false true (negb first) fuel' g g' x e inv G F V).
        destruct (IH g' (inv ++ [x]) first tr fuel fuel' Y) as [c [E O]]; try lia.
        exists c. split; [exact E|]. rewrite <- app_assoc in O. exact O.
      * destruct (@enter_raises_ends fn h false true (negb first) fuel' g g' x e inv G F)
          as [f' [E [_ [_ En]]]]; [congruence|].
        unfold pending_job. rewrite E. rewrite V in *. destruct tr as [|tr]; [lia|].
        apply job_ends; [discriminate|exact En].
    + unfold pending_job.
      rewrite (@enter_promises fn h false true (negb first) fuel' g g' x _ inv G F).
      cbn [land snd fst app].
      replace (if first
               then job_stored
                      {| engine := single g' h false true (negb first)
                                     [unit_of inv x (Fulfilled v)] []
                                     [unit_of inv x (Fulfilled v)] (inv ++ [x]);
                         parked := [InNext Background
                                      (AwaitRace [unit_of inv x (Fulfilled v)] None
                                         (Some (unit_of inv x (Fulfilled v))))];
                         results := [] |}
               else {| engine := single g' h false true (negb first)
                                   [unit_of inv x (Fulfilled v)] []
                                   [unit_of inv x (Fulfilled v)] (inv ++ [x]);
                       parked := [InNext Background
                                    (AwaitRace [unit_of inv x (Fulfilled v)] None
                                       (Some (unit_of inv x (Fulfilled v))))];
                       results := [] |})
        with {| engine := single g' h false true true
                            [unit_of inv x (Fulfilled v)] []
                            [unit_of inv x (Fulfilled v)] (inv ++ [x]);
                parked := [InNext Background
                             (AwaitRace [unit_of inv x (Fulfilled v)] None
                                (Some (unit_of inv x (Fulfilled v))))];
                results := [] |}
        by (destruct first; reflexivity).
      destruct tr as [|[|[|[|tr]]]]; try lia.
      erewrite host_turns_turn by apply settle_turn.
      erewrite host_turns_turn by apply race_turn_fulfilled.
      erewrite host_turns_turn by (rewrite task_turn_fulfilled; reflexivity).
      cbn [fst snd app]. rewrite job_turn.
      replace (last (Value v :: sequential fn h rest) Done)
        with (last (sequential fn h rest) Done)
        by (symmetry; apply (sequential_last fn h [Value v] rest)).
      destruct (IH g' (inv ++ [x]) false tr fuel fuel Y) as [c [E O]]; try lia.
      exists c. split; [exact E|]. rewrite <- !app_assoc in O. exact O.
    + unfold pending_job.
      rewrite (@enter_promises fn h false true (negb first) fuel' g g' x _ inv G F).
      cbn [land snd fst app].
      replace (if first
               then job_stored
                      {| engine := single g' h false true (negb first)
                                     [unit_of inv x (Rejected e)] []
                                     [unit_of inv x (Rejected e)] (inv ++ [x]);
                         parked := [InNext Background
                                      (AwaitRace [unit_of inv x (Rejected e)] None
                                         (Some (unit_of inv x (Rejected e))))];
                         results := [] |}
               else {| engine := single g' h false true (negb first)
                                   [unit_of inv x (Rejected e)] []
                                   [unit_of inv x (Rejected e)] (inv ++ [x]);
                       parked := [InNext Background
                                    (AwaitRace [unit_of inv x (Rejected e)] None
                                       (Some (unit_of inv x (Rejected e))))];
                       results := [] |})
        with {| engine := single g' h false true true
                            [unit_of inv x (Rejected e)] []
                            [unit_of inv x (Rejected e)] (inv ++ [x]);
                parked := [InNext Background
                             (AwaitRace [unit_of inv x (Rejected e)] None
                                (Some (unit_of inv x (Rejected e))))];
                results := [] |}
        by (destruct first; reflexivity).
      destruct tr as [|[|[|tr]]]; try lia.
      erewrite host_turns_turn by apply settle_turn.
      destruct (verdict h e) eqn:V.
      * destruct (@race_turn_ends h false true true fuel g' inv x e [] Background)
          as [f' [E [_ [_ En]]]]; [congruence|].
        rewrite V in *.
        destruct (@job_ends false tr fuel f' Done (inv ++ [x])) as [c [E' O]];
          [discriminate|exact En|].
        exists c. split; [|exact O].
        rewrite <- E'. cbn [host_turns]. rewrite E. reflexivity.
      * destruct fuel as [|fuel]; [lia|].
        destruct (IH g' (inv ++ [x]) false (S tr) (S fuel) fuel Y) as [c [E O]]; try lia.
        exists c. split; [|rewrite <- app_assoc in O; exact O].
        rewrite <- E. unfold pending_job. cbn [host_turns negb].
        rewrite (@race_turn_skip h false true true fuel g' inv x e [] Background V).
        destruct (land Background [] []
                    (next fuel Enter (single g' h false true true [] [] [] (inv ++ [x]))));
          reflexivity.
      * destruct (@race_turn_ends h false true true fuel g' inv x e [] Background)
          as [f' [E [_ [_ En]]]]; [congruence|].
        rewrite V in *.
        destruct (@job_ends false tr fuel f' (Throws e) (inv ++ [x])) as [c [E' O]];
          [discriminate|exact En|].
        exists c. split; [|exact O].
        rewrite <- E'. cbn [host_turns]. rewrite E. reflexivity.
Qed.

(** [start()] on a new engine at level 1. *)
Lemma new_job_is_sequential g items f0 turns fuel :
  Fibers_new 1 g = inr f0 ->
  yields fn items g ->
  (4 * length items + 1 <= turns)%nat ->
  (length items <= fuel)%nat ->
  exists c,
    inBackground turns fuel (setErrorHandler h f0) = Some c /\
    JobOver c (last (sequential fn h items) Done) (visited fn h items).
Proof.
  intros New Y Ht Hf. unfold Fibers_new, set_concurrency in New. simpl in New.
  inversion New; subst f0. clear New.
  destruct (@job_is_sequential items g [] true turns fuel fuel Y) as [c [E O]]; try lia.
  exists c. split; [|exact O].
  rewrite <- E. unfold inBackground, pending_job.
  cbn [step]. unfold start. simpl. unfold _runInBackground. simpl.
  destruct (land Background [] [] _); reflexivity.
Qed.

End Job.

(** X12: at concurrency level 1, [for await (const value of fibers) { }]
    over a new engine made by [Fibers.forEach] is the plain sequential loop
    over the items.  The consumer sees the values of the fulfilled units in
    the order of the items; an error the handler answers with 'skip' is
    passed over, 'stop' ends the loop with done, and any other error (or
    none set) is thrown to the consumer.  The factory is called on the items
    up to the one that ends the loop and on no later one, and the lifecycle
    promise is rejected with that error and [failed] set exactly when the
    loop ended by a throw, and resolved otherwise. *)
Theorem forEach_one_at_a_time_is_the_plain_loop :
  forall dispose items fn h f0 rounds turns fuel,
    Fibers_forEach dispose 1 items fn = inr f0 ->
    (length items < rounds)%nat ->
    (3 * length items <= turns)%nat ->
    (length items <= fuel)%nat ->
    exists c,
      forAwait rounds turns fuel (setErrorHandler h f0) = Some c /\
      Over c (sequential fn h items) (visited fn h items).
Proof.
  intros dispose items fn h f0 rounds turns fuel New Hr Ht Hf.
  apply (@new_is_sequential fn h _ items f0 rounds turns fuel New); try assumption.
  apply yields_iterator.
Qed.

(** X13: at concurrency level 1, [start()] on a new engine made by
    [Fibers.forEach], followed by enough turns of the host, runs the plain
    sequential loop in the background: the factory is called on the same
    items in the same order, the lifecycle promise ends as the loop ends,
    the consumer is handed nothing, and the job has ended ([started] is
    false again). *)
Theorem forEach_background_job_is_the_plain_loop :
  forall dispose items fn h f0 turns fuel,
    Fibers_forEach dispose 1 items fn = inr f0 ->
    (4 * length items + 1 <= turns)%nat ->
    (length items <= fuel)%nat ->
    exists c,
      inBackground turns fuel (setErrorHandler h f0) = Some c /\
      JobOver c (last (sequential fn h items) Done) (visited fn h items).
Proof.
  intros dispose items fn h f0 turns fuel New Ht Hf.
  apply (@new_job_is_sequential fn h _ items f0 turns fuel New); try assumption.
  apply yields_iterator.
Qed.

(** X14: take integer indices with a positive step within the range the
    host adds exactly ([-2^53 <= start] and [end + step <= 2^53]).  An
    engine made by [Fibers.for(1, start, end, step, factory)] behaves as the
    one made by [Fibers.forEach] over the indices [start, start + step, ...]
    below [end]: both [for await] and a background run are the plain
    sequential loop over these indices. *)
Theorem for_one_at_a_time_is_the_plain_loop_over_the_indices :
  forall dispose start end_ step fn h f0 rounds turns fuel,
    0 < step ->
    ExactRange start end_ step ->
    Fibers_for dispose 1 start end_ step fn = inr f0 ->
    (length (indices start end_ step) < rounds)%nat ->
    (4 * length (indices start end_ step) + 1 <= turns)%nat ->
    (length (indices start end_ step) <= fuel)%nat ->
    (exists c,
       forAwait rounds turns fuel (setErrorHandler h f0) = Some c /\
       Over c (sequential fn h (indices start end_ step))
              (visited fn h (indices start end_ step))) /\
    (exists c,
       inBackground turns fuel (setErrorHandler h f0) = Some c /\
       JobOver c (last (sequential fn h (indices start end_ step)) Done)
               (visited fn h (indices start end_ step))).
Proof.
  intros dispose start end_ step fn h f0 rounds turns fuel Pos X New Hr Ht Hf.
  pose proof (yields_indices fn dispose Pos X) as Y.
  split.
  - apply (@new_is_sequential fn h _ _ f0 rounds turns fuel New Y); lia.
  - apply (@new_job_is_sequential fn h _ _ f0 turns fuel New Y); lia.
Qed.

(** ** The refill loop tops the pool up *)

Lemma gen_next_done_stays g g' :
  gen_next g = (None, g') -> fst (gen_next g') = None.
Proof.
  unfold gen_next. destruct (body g) as [i end_ step fn|[|x rest] fn|] eqn:B.
  - destruct (i <? end_); intros H; inversion H; subst. reflexivity.
  - intros H; inversion H; subst. reflexivity.
  - discriminate.
  - intros H; inversion H; subst. rewrite B. reflexivity.
Qed.

Lemma refill_tops_up fuel : forall taskSize activeTask f f1 a1,
  refill fuel taskSize activeTask f = (f1, a1, None) ->
  taskSize - poolSize f <= Z.of_nat fuel ->
  (poolSize f1 = Z.max (poolSize f) taskSize \/
   fst (gen_next (_generator f1)) = None /\ poolSize f <= poolSize f1) /\
  Z.of_nat (length (invoked f1)) - Z.of_nat (length (invoked f))
  = poolSize f1 - poolSize f.
Proof.
  induction fuel as [|fuel IH]; intros taskSize activeTask f f1 a1 H L.
  - simpl in H. inversion H; subst. split; [left; simpl in L; lia|lia].
  - simpl in H.
    destruct (Z.of_nat (length (_runningTaskPool f)) <? taskSize) eqn:T.
    + apply Z.ltb_lt in T.
      destruct (gen_next (_generator f)) as [[item|] g] eqn:G.
      * destruct (factory item (source item)) as [e|o]; [discriminate|].
        apply IH in H; [|unfold poolSize in *; simpl; rewrite length_app; simpl; lia].
        unfold poolSize in *. simpl in H. rewrite !length_app in H. simpl in H.
        destruct H as [[H|[H1 H2]] N].
        -- split; [left; lia|lia].
        -- split; [right; split; [exact H1|lia]|lia].
      * inversion H; subst. unfold poolSize; simpl.
        split; [right; split; [eapply gen_next_done_stays; exact G|lia]|lia].
    + apply Z.ltb_ge in T. inversion H; subst. unfold poolSize.
      split; [left; lia|lia].
Qed.

(** X15: the first segment of an advance step tops the running pool up.
    Unless a factory throws, when the step goes on to wait (or to finish)
    the pool holds as many units as the concurrency level -- or as many as
    it held, if that was more -- or else the source has run out; and the
    factory has been called exactly once for each unit added.  The step
    finishes the loop exactly when the pool is empty then. *)
Theorem advance_step_tops_the_pool_up :
  forall f f1 activeTask out,
    0 < b_concurrency f ->
    try_block Enter f = (f1, activeTask, out) ->
    (forall e, out <> Raised e) ->
    (poolSize f1 = Z.max (poolSize f) (b_concurrency f) \/
     fst (gen_next (_generator f1)) = None /\ poolSize f <= poolSize f1) /\
    Z.of_nat (length (invoked f1)) - Z.of_nat (length (invoked f))
    = poolSize f1 - poolSize f /\
    (out = LoopFinished <-> _runningTaskPool f1 = []) /\
    (out <> LoopFinished ->
     exists winner, out = Suspends (AwaitRace (_runningTaskPool f1) winner activeTask)).
Proof.
  intros f f1 activeTask out Pos H NR. unfold try_block in H.
  destruct (refill (Z.to_nat (b_concurrency f)) (b_concurrency f) None f)
    as [[f0 a0] thrown] eqn:R.
  destruct thrown as [e|].
  { inversion H; subst. destruct (NR e eq_refl). }
  assert (E : f1 = f0) by (destruct (_runningTaskPool f0); inversion H; reflexivity).
  subst f0.
  apply refill_tops_up in R.
  2:{ rewrite Z2Nat.id by lia. unfold poolSize. lia. }
  destruct R as [T N]. split; [exact T|]. split; [exact N|].
  destruct (_runningTaskPool f1) as [|t pool]; inversion H; subst.
  - split; [split; reflexivity|]. intros X. destruct (X eq_refl).
  - split; [split; discriminate|]. intros _. eexists. reflexivity.
Qed.

(** ** Every value is the result of a unit *)

Section Honesty.
Variable fn : Src -> Launch.

Lemma MadeBy_incl called called' t :
  incl called called' -> MadeBy fn called t -> MadeBy fn called' t.
Proof. intros I [A B]. split; [apply I; exact A|exact B]. Qed.

Lemma HonestResult_incl called called' r :
  incl called called' -> HonestResult fn called r -> HonestResult fn called' r.
Proof.
  intros I. destruct r; simpl; auto. intros [x [A B]]. exists x. split; [apply I; exact A|exact B].
Qed.

Lemma HonestParked_incl called called' p :
  incl called called' -> HonestParked fn called p -> HonestParked fn called' p.
Proof.
  intros I. destruct p as [who a|r]; simpl.
  - intros H t T. eapply MadeBy_incl; [exact I|]. apply H; exact T.
  - apply HonestResult_incl; exact I.
Qed.

Lemma gen_next_from_factory g :
  FromFactory fn g ->
  FromFactory fn (snd (gen_next g)) /\
  forall item, fst (gen_next g) = Some item -> factory item = fn.
Proof.
  unfold FromFactory, gen_next.
  destruct (body g) as [i end_ step f|[|x rest] f|] eqn:B; intros F.
  - destruct (i <? end_); simpl; split; auto; try discriminate.
    intros item H; inversion H; subst; reflexivity.
  - simpl. split; [exact I|discriminate].
  - simpl. split; [exact F|]. intros item H; inversion H; subst; reflexivity.
  - simpl. rewrite B. split; [exact I|discriminate].
Qed.

Lemma gen_dispose_from_factory g :
  FromFactory fn g -> FromFactory fn (gen_dispose g).
Proof. unfold gen_dispose. destruct (hasDispose g); [intros _; exact I|auto]. Qed.

Lemma HonestEngine_same f f' :
  HonestEngine fn f ->
  _generator f' = _generator f \/ _generator f' = gen_dispose (_generator f) ->
  incl (_runningTaskPool f') (_runningTaskPool f) ->
  incl (_finishedTaskPool f') (_finishedTaskPool f ++ inflight f) ->
  incl (inflight f') (inflight f) ->
  invoked f' = invoked f ->
  HonestEngine fn f'.
Proof.
  intros [G P] Hg Hr Hf Hi Hv. split.
  - destruct Hg as [->| ->]; [exact G|apply gen_dispose_from_factory; exact G].
  - intros t T. rewrite Hv. apply P.
    rewrite !in_app_iff in *. destruct T as [T|[T|T]].
    + left. apply Hr; exact T.
    + apply Hf in T. rewrite in_app_iff in T. tauto.
    + right. right. apply Hi; exact T.
Qed.

Lemma HonestEngine_cleanup f : HonestEngine fn f -> HonestEngine fn (_cleanup f).
Proof.
  intros H. apply (@HonestEngine_same f _ H); simpl; auto using incl_refl; intros t [].
Qed.

Lemma HonestEngine_resolve f :
  HonestEngine fn f -> HonestEngine fn (fst (_resolveIfNotFailedAndCleanup f)).
Proof.
  intros H. unfold _resolveIfNotFailedAndCleanup.
  destruct (_isResolvedOrRejected f); simpl;
    apply (@HonestEngine_same f _ H); simpl; auto using incl_refl; intros t [].
Qed.

Lemma HonestEngine_raise e f :
  HonestEngine fn f -> HonestEngine fn (fst (_raiseErrorAndCleanup e f)).
Proof.
  intros H. unfold _raiseErrorAndCleanup. simpl.
  destruct (_isResolvedOrRejected f); simpl;
    apply (@HonestEngine_same f _ H); simpl; auto using incl_refl; intros t [].
Qed.

Lemma incl_filter {A : Type} (p : A -> bool) (l : list A) : incl (filter p l) l.
Proof. intros x H. apply filter_In in H. tauto. Qed.

Lemma refill_honest fuel : forall taskSize activeTask f f1 a1 thrown,
  refill fuel taskSize activeTask f = (f1, a1, thrown) ->
  HonestEngine fn f ->
  (forall t, In t (option_tasks activeTask) -> MadeBy fn (invoked f) t) ->
  HonestEngine fn f1 /\ incl (invoked f) (invoked f1) /\
  (forall t, In t (option_tasks a1) -> MadeBy fn (invoked f1) t).
Proof.
  induction fuel as [|fuel IH]; intros taskSize activeTask f f1 a1 thrown H E A.
  - simpl in H. inversion H; subst. auto using incl_refl.
  - simpl in H.
    destruct (Z.of_nat (length (_runningTaskPool f)) <? taskSize).
    + destruct (@gen_next_from_factory (_generator f) (proj1 E)) as [G' Fa].
      destruct (gen_next (_generator f)) as [[item|] g]; simpl in G', Fa.
      * destruct (factory item (source item)) as [e|o] eqn:L.
        -- inversion H; subst. split; [|split].
           ++ split; [exact G'|]. simpl. intros t T.
              eapply MadeBy_incl; [|apply (proj2 E); exact T].
              apply incl_appl, incl_refl.
           ++ simpl. apply incl_appl, incl_refl.
           ++ intros t T. eapply MadeBy_incl; [|apply A; exact T].
              simpl. apply incl_appl, incl_refl.
        -- apply IH in H.
           ++ destruct H as [E1 [I1 A1]]. split; [exact E1|]. split; [|exact A1].
              intros x X. apply I1. simpl. apply in_or_app. left; exact X.
           ++ split; [exact G'|]. simpl. intros t T.
              assert (N : MadeBy fn (invoked f ++ [source item])
                            {| task_id := length (invoked f);
                               task_source := source item; task_result := o |}).
              { split; simpl; [apply in_or_app; right; left; reflexivity|].
                rewrite <- (Fa item eq_refl). exact L. }
              rewrite !in_app_iff in T. simpl in T.
              destruct T as [[T|[T|[]]]|[T|[T|[T|[]]]]]; subst; try exact N;
                (eapply MadeBy_incl; [apply incl_appl, incl_refl|]);
                apply (proj2 E); rewrite !in_app_iff; tauto.
           ++ simpl. intros t [T|[]]. subst.
              split; simpl; [apply in_or_app; right; left; reflexivity|].
              rewrite <- (Fa item eq_refl). exact L.
      * inversion H; subst. split; [|split; [apply incl_refl|exact A]].
        split; [exact G'|exact (proj2 E)].
    + inversion H; subst. auto using incl_refl.
Qed.

Lemma try_block_honest stage f f1 a out :
  try_block stage f = (f1, a, out) ->
  HonestEngine fn f ->
  (forall t, In t (stage_tasks stage) -> MadeBy fn (invoked f) t) ->
  HonestEngine fn f1 /\ incl (invoked f) (invoked f1) /\
  (forall t, In t (option_tasks a) -> MadeBy fn (invoked f1) t) /\
  match out with
  | Suspends aw => forall t, In t (await_tasks aw) -> MadeBy fn (invoked f1) t
  | Returns v => HonestResult fn (invoked f1) (Value v)
  | _ => True
  end.
Proof.
  intros H E S. destruct stage as [|w act|act|u]; unfold try_block in H.
  - destruct (refill (Z.to_nat (b_concurrency f)) (b_concurrency f) None f)
      as [[f0 a0] thrown] eqn:R.
    apply refill_honest in R; [|exact E|intros t []].
    destruct R as [E0 [I0 A0]].
    destruct thrown as [e|].
    + inversion H; subst. auto.
    + destruct (_runningTaskPool f0) as [|t0 pool] eqn:P; inversion H; subst; clear H.
      * auto.
      * split; [exact E0|]. split; [exact I0|]. split; [exact A0|].
        intros t T. unfold await_tasks in T. rewrite !in_app_iff in T.
        assert (Hp : forall u, In u (t0 :: pool) -> MadeBy fn (invoked f1) u).
        { intros u U. apply (proj2 E0). rewrite P. apply in_or_app. left; exact U. }
        destruct T as [T|[T|T]].
        -- apply Hp. exact T.
        -- change (if already_settled f1 t0 then Some t0 else find (already_settled f1) pool)
             with (find (already_settled f1) (t0 :: pool)) in T.
           destruct (find (already_settled f1) (t0 :: pool)) as [w|] eqn:Fi; [|destruct T].
           apply find_some in Fi. destruct T as [T|[]]. rewrite <- T. apply Hp. tauto.
        -- apply A0; exact T.
  - assert (C : forall f2 a2 out2, claim act f = (f2, a2, out2) ->
                HonestEngine fn f2 /\ incl (invoked f) (invoked f2) /\
                (forall t, In t (option_tasks a2) -> MadeBy fn (invoked f2) t) /\
                match out2 with
                | Suspends aw => forall t, In t (await_tasks aw) -> MadeBy fn (invoked f2) t
                | Returns v => HonestResult fn (invoked f2) (Value v)
                | _ => True
                end).
    { intros f2 a2 out2. unfold claim.
      destruct (_finishedTaskPool f) as [|ft rest] eqn:Fp; intros X; inversion X; subst.
      - split; [exact E|]. split; [apply incl_refl|].
        split; intros t T; apply S; simpl; right; exact T.
      - assert (M : MadeBy fn (invoked f2) ft).
        { apply (proj2 E). rewrite Fp. apply in_or_app. right. left; reflexivity. }
        split; [exact E|]. split; [apply incl_refl|].
        split; intros t [T|[]]; subst; exact M. }
    destruct (task_result w).
    + apply C; exact H.
    + inversion H; subst. split; [exact E|]. split; [apply incl_refl|].
      split; [|exact I]. intros t T. apply S. simpl. right; exact T.
  - unfold claim in H.
    destruct (_finishedTaskPool f) as [|ft rest] eqn:Fp; inversion H; subst.
    + split; [exact E|]. split; [apply incl_refl|].
      split; intros t T; apply S; simpl; exact T.
    + assert (M : MadeBy fn (invoked f1) ft).
      { apply (proj2 E). rewrite Fp. apply in_or_app. right. left; reflexivity. }
      split; [exact E|]. split; [apply incl_refl|].
      split; intros t [T|[]]; subst; exact M.
  - assert (M : MadeBy fn (invoked f) u) by (apply S; left; reflexivity).
    destruct (task_result u) as [v|e] eqn:Tr; inversion H; subst.
    + split; [exact E|]. split; [apply incl_refl|].
      split; [intros t [T|[]]; subst; exact M|].
      simpl. exists (task_source u). destruct M as [M1 M2]. rewrite Tr in M2. auto.
    + split; [exact E|]. split; [apply incl_refl|].
      split; [intros t [T|[]]; subst; exact M|exact I].
Qed.

Lemma finally_block_honest activeTask loopFinished f f1 bad :
  finally_block activeTask loopFinished f = (f1, bad) ->
  HonestEngine fn f ->
  HonestEngine fn f1 /\ invoked f1 = invoked f.
Proof.
  unfold finally_block. intros H E.
  set (f0 := match activeTask with
             | Some t => with_pools (pool_delete t (_runningTaskPool f))
                                    (pool_delete t (_finishedTaskPool f)) f
             | None => f
             end) in *.
  assert (E0 : HonestEngine fn f0 /\ invoked f0 = invoked f).
  { subst f0. destruct activeTask as [t|]; [|auto].
    split; [|reflexivity].
    apply (@HonestEngine_same f _ E); simpl; auto using incl_refl.
    - apply incl_filter.
    - apply incl_appl. apply incl_filter. }
  destruct E0 as [E0 I0].
  destruct loopFinished.
  - pose proof (@HonestEngine_resolve f0 E0) as E1. rewrite H in E1. simpl in E1.
    split; [exact E1|]. rewrite <- I0.
    replace f1 with (fst (_resolveIfNotFailedAndCleanup f0)) by (rewrite H; reflexivity).
    unfold _resolveIfNotFailedAndCleanup.
    destruct (_isResolvedOrRejected f0); reflexivity.
  - inversion H; subst. auto.
Qed.

Lemma next_honest fuel : forall stage f f' st,
  next fuel stage f = (f', st) ->
  HonestEngine fn f ->
  (forall t, In t (stage_tasks stage) -> MadeBy fn (invoked f) t) ->
  HonestEngine fn f' /\ incl (invoked f) (invoked f') /\
  HonestStatus fn (invoked f') st.
Proof.
  induction fuel as [|fuel IH]; intros stage f f' st H E S;
    rewrite next_unfold in H;
    destruct (try_block stage f) as [[f1 a] out] eqn:T;
    destruct (@try_block_honest stage f f1 a out T E S) as [E1 [I1 [A1 O1]]];
    unfold after_try in H;
    (destruct out as [aw|v| |e];
     [ inversion H; subst; auto
     | destruct (finally_block a false f1) as [f2 bad] eqn:Fb;
       destruct (@finally_block_honest _ _ _ _ _ Fb E1) as [E2 I2];
       inversion H; subst; split; [exact E2|]; rewrite I2;
       split; [exact I1|]; destruct bad; [exact I|exact O1]
     | destruct (finally_block a true f1) as [f2 bad] eqn:Fb;
       destruct (@finally_block_honest _ _ _ _ _ Fb E1) as [E2 I2];
       inversion H; subst; split; [exact E2|]; rewrite I2;
       split; [exact I1|]; destruct bad; exact I
     | destruct (consult f1 e);
       [ destruct (finally_block a true f1) as [f2 bad] eqn:Fb;
         destruct (@finally_block_honest _ _ _ _ _ Fb E1) as [E2 I2];
         inversion H; subst; split; [exact E2|]; rewrite I2;
         split; [exact I1|]; destruct bad; exact I
       | destruct (finally_block a false f1) as [f2 bad] eqn:Fb;
         destruct (@finally_block_honest _ _ _ _ _ Fb E1) as [E2 I2]
       | pose proof (@HonestEngine_raise e f1 E1) as Er;
         assert (Ir : invoked (fst (_raiseErrorAndCleanup e f1)) = invoked f1)
           by (unfold _raiseErrorAndCleanup; simpl;
               destruct (_isResolvedOrRejected f1); reflexivity);
         destruct (finally_block a false (fst (_raiseErrorAndCleanup e f1)))
           as [f3 bad] eqn:Fb;
         destruct (@finally_block_honest _ _ _ _ _ Fb Er) as [E3 I3];
         inversion H; subst; split; [exact E3|]; rewrite I3, Ir;
         split; [exact I1|exact I] ] ]).
  - inversion H; subst. split; [exact E2|]. rewrite I2. split; [exact I1|exact I].
  - apply IH in H; [|exact E2|intros t []].
    destruct H as [E3 [I3 S3]]. split; [exact E3|]. split; [|exact S3].
    intros x X. apply I3. rewrite I2. apply I1. exact X.
Qed.

Lemma Forall_drop_nth {A : Type} (P : A -> Prop) k : forall l,
  Forall P l -> Forall P (drop_nth k l).
Proof.
  induction k as [|k IH]; intros [|x l] H; simpl; auto; inversion H; subst; auto.
Qed.

Lemma Honest_intro f ps rs called :
  HonestEngine fn f ->
  incl called (invoked f) ->
  Forall (HonestParked fn called) ps ->
  Forall (HonestResult fn called) rs ->
  Honest fn {| engine := f; parked := ps; results := rs |}.
Proof.
  intros E I P R. split; [exact E|]. simpl. split.
  - eapply Forall_impl; [|exact P]. intros p. apply HonestParked_incl; exact I.
  - eapply Forall_impl; [|exact R]. intros r. apply HonestResult_incl; exact I.
Qed.

Lemma land_honest who ps rs f st c called :
  land who ps rs (f, st) = Some c ->
  HonestEngine fn f ->
  incl called (invoked f) ->
  Forall (HonestParked fn called) ps ->
  Forall (HonestResult fn called) rs ->
  HonestStatus fn (invoked f) st ->
  Honest fn c.
Proof.
  intros H E I P R S. unfold land in H. simpl in H.
  assert (P' : Forall (HonestParked fn (invoked f)) ps).
  { eapply Forall_impl; [|exact P]. intros p. apply HonestParked_incl; exact I. }
  assert (R' : Forall (HonestResult fn (invoked f)) rs).
  { eapply Forall_impl; [|exact R]. intros r. apply HonestResult_incl; exact I. }
  destruct st as [r|a|]; [destruct who| |discriminate]; inversion H; subst;
    (split; [exact E|]); simpl; split; auto;
    apply Forall_app; split; auto.
Qed.

Ltac honest_same E :=
  apply (@HonestEngine_same _ _ _ E); simpl; auto using incl_refl;
  try (apply incl_appl, incl_refl).

Ltac honest_intro called E :=
  apply (@Honest_intro _ _ _ called); auto;
  try (simpl; apply incl_refl); try honest_same E.

Lemma runInBackground_honest fuel ps rs f c called :
  _runInBackground fuel ps rs f = Some c ->
  HonestEngine fn f ->
  incl called (invoked f) ->
  Forall (HonestParked fn called) ps ->
  Forall (HonestResult fn called) rs ->
  Honest fn c.
Proof.
  unfold _runInBackground. intros H E I P R.
  destruct (_allowBackgroundJobRunning f && negb (_isFailed f) && negb (_isCompleted f)).
  - destruct (next fuel Enter f) as [f' st] eqn:N.
    destruct (@next_honest fuel Enter f f' st N E) as [E' [I' S']]; [intros t []|].
    apply (@land_honest Background ps rs f' st c called H E'); auto.
    intros x X. apply I', I, X.
  - inversion H; subst. honest_intro called E.
Qed.

Lemma step_honest fuel ev c c1 :
  step fuel ev c = Some c1 -> Honest fn c -> Honest fn c1.
Proof.
  intros H [E [P R]].
  assert (Flags : forall f', _generator f' = _generator (engine c) ->
                    _runningTaskPool f' = _runningTaskPool (engine c) ->
                    _finishedTaskPool f' = _finishedTaskPool (engine c) ->
                    inflight f' = inflight (engine c) ->
                    invoked f' = invoked (engine c) ->
                    Honest fn (with_engine f' c)).
  { intros f' Hg Hr Hf Hi Hv. unfold with_engine.
    apply (@Honest_intro f' _ _ (invoked (engine c))); auto.
    - apply (@HonestEngine_same (engine c) _ E); auto.
      + rewrite Hr. apply incl_refl.
      + rewrite Hf. apply incl_appl, incl_refl.
      + rewrite Hi. apply incl_refl.
    - rewrite Hv. apply incl_refl. }
  assert (Same : Honest fn c) by (split; [exact E|split; assumption]).
  destruct ev as [| | | | |e| |value|h|id|k]; simpl in H.
  - destruct (next fuel Enter (engine c)) as [f' st] eqn:N.
    destruct (@next_honest fuel Enter (engine c) f' st N E) as [E' [I' S']]; [intros t []|].
    apply (@land_honest Consumer (parked c) (results c) f' st c1 (invoked (engine c)) H E');
      auto.
  - unfold asyncIterator in H. destruct (_activeBackgroundJob (engine c));
      inversion H; subst; [exact Same|]. apply Flags; reflexivity.
  - destruct (start fuel c) as [[c2 s]|] eqn:St; [|discriminate].
    inversion H; subst. clear H. unfold start in St.
    destruct (_isGeneratorConsuming (engine c)); [inversion St; subst; exact Same|].
    destruct (_isCompleted (engine c) || _isFailed (engine c));
      [inversion St; subst; exact Same|].
    destruct (_activeBackgroundJob (engine c)); [inversion St; subst; exact Same|].
    destruct (_runInBackground fuel (parked c) (results c)
                (with_background true false (engine c))) as [c2|] eqn:Rb; [|discriminate].
    inversion St; subst. clear St.
    assert (H2 : Honest fn c2).
    { apply (@runInBackground_honest fuel (parked c) (results c) _ c2
               (invoked (engine c)) Rb); auto; try (simpl; apply incl_refl);
        try honest_same E. }
    destruct H2 as [E2 [P2 R2]]. unfold with_engine.
    honest_intro (invoked (engine c2)) E2.
  - inversion H; subst. apply Flags; reflexivity.
  - pose proof (@HonestEngine_resolve (engine c) E) as E1.
    assert (I1 : invoked (fst (_resolveIfNotFailedAndCleanup (engine c))) = invoked (engine c))
      by (unfold _resolveIfNotFailedAndCleanup;
          destruct (_isResolvedOrRejected (engine c)); reflexivity).
    unfold return_ in H.
    destruct (_resolveIfNotFailedAndCleanup (engine c)) as [f1 bad]. simpl in E1, I1.
    inversion H; subst.
    apply (@Honest_intro _ _ _ (invoked (engine c))); auto.
    + rewrite I1. apply incl_refl.
    + apply Forall_app. split; [exact R|]. constructor; [|constructor].
      destruct bad; exact I.
  - pose proof (@HonestEngine_raise e (engine c) E) as E1.
    assert (I1 : invoked (fst (_raiseErrorAndCleanup e (engine c))) = invoked (engine c))
      by (unfold _raiseErrorAndCleanup; simpl;
          destruct (_isResolvedOrRejected (engine c)); reflexivity).
    unfold throw in H.
    destruct (_raiseErrorAndCleanup e (engine c)) as [f1 bad]. simpl in E1, I1.
    inversion H; subst.
    apply (@Honest_intro _ _ _ (invoked (engine c))); auto.
    + rewrite I1. apply incl_refl.
    + apply Forall_app. split; [exact R|]. constructor; [|constructor]. exact I.
  - inversion H; subst. unfold with_engine.
    apply (@Honest_intro _ _ _ (invoked (engine c))); auto;
      try (simpl; apply incl_refl).
    apply HonestEngine_cleanup. exact E.
  - unfold set_concurrency in H. destruct (value <=? 0); inversion H; subst;
      [exact Same|]. apply Flags; reflexivity.
  - inversion H; subst. apply Flags; reflexivity.
  - destruct (find (fun t => Nat.eqb (task_id t) id) (inflight (engine c))) as [t|] eqn:Fi;
      [|discriminate].
    apply find_some in Fi. destruct Fi as [Ti _].
    assert (M : MadeBy fn (invoked (engine c)) t).
    { apply (proj2 E). rewrite !in_app_iff. tauto. }
    inversion H; subst. clear H.
    apply (@Honest_intro _ _ _ (invoked (engine c))).
    + apply (@HonestEngine_same (engine c) _ E); simpl; auto using incl_refl.
      * unfold pool_add. destruct (pool_has t (_finishedTaskPool (engine c))).
        -- apply incl_appl, incl_refl.
        -- intros x X. rewrite in_app_iff in *. destruct X as [X|[X|[]]]; [tauto|].
           subst. tauto.
      * apply incl_filter.
    + simpl. apply incl_refl.
    + rewrite Forall_forall in *. intros p Hp. apply in_map_iff in Hp.
      destruct Hp as [q [Q Hq]]. specialize (P q Hq). subst p.
      destruct q as [who [snapshot [w|] act| |]|r]; simpl; try exact P.
      destruct (pool_has t snapshot); [|exact P].
      simpl in *. intros u U. rewrite !in_app_iff in U. simpl in U.
      destruct U as [U|[U|U]].
      * apply P. rewrite !in_app_iff. tauto.
      * rewrite <- U. exact M.
      * apply P. rewrite !in_app_iff. tauto.
    + exact R.
  - destruct (nth_error (parked c) k) as [p|] eqn:Nth; [|discriminate].
    assert (Hp : HonestParked fn (invoked (engine c)) p).
    { rewrite Forall_forall in P. apply P. eapply nth_error_In; exact Nth. }
    assert (Pr : Forall (HonestParked fn (invoked (engine c))) (drop_nth k (parked c)))
      by (apply Forall_drop_nth; exact P).
    assert (Seg : forall who stage,
               (forall t, In t (stage_tasks stage) -> MadeBy fn (invoked (engine c)) t) ->
               land who (drop_nth k (parked c)) (results c) (next fuel stage (engine c))
               = Some c1 ->
               Honest fn c1).
    { intros who stage St L.
      destruct (next fuel stage (engine c)) as [f' st] eqn:N.
      destruct (@next_honest fuel stage (engine c) f' st N E St) as [E' [I' S']].
      apply (@land_honest who _ _ f' st c1 (invoked (engine c)) L E'); auto. }
    destruct p as [who [snapshot [w|] act|act|u]|[v| |e]]; simpl in Hp.
    + apply (Seg who (AfterRace w act)); [|exact H].
      intros t T. apply Hp. simpl in T. rewrite !in_app_iff. simpl. tauto.
    + discriminate.
    + apply (Seg who (AfterYield act)); [|exact H]. exact Hp.
    + apply (Seg who (AfterTask u)); [|exact H]. exact Hp.
    + apply (@runInBackground_honest fuel _ _ _ c1 (invoked (engine c)) H); auto.
      apply incl_refl.
    + inversion H; subst. honest_intro (invoked (engine c)) E.
    + inversion H; subst. honest_intro (invoked (engine c)) E.
Qed.

Lemma run_honest fuel : forall evs c c1,
  run fuel evs c = Some c1 -> Honest fn c -> Honest fn c1.
Proof.
  induction evs as [|ev evs IH]; intros c c1 H Hc; simpl in H.
  - inversion H; subst; exact Hc.
  - destruct (step fuel ev c) as [c2|] eqn:E; [|discriminate].
    apply (IH c2 c1 H). eapply step_honest; eauto.
Qed.

End Honesty.

(** X16: the engine hands out nothing but results of its units.  In every
    run of an engine made by [Fibers.for] or [Fibers.forEach] with the
    factory [fn], at any concurrency level and under any interleaving of
    calls, settlements and resumptions, every value a call of [next] has
    yielded is the value the promise [fn x] fulfilled with, for a source [x]
    the factory has been called on; and every unit in the pools is the
    promise the factory returned for such a source. *)
Theorem every_value_is_the_result_of_a_unit :
  forall fuel concurrency g fn f0 evs c,
    Fibers_new concurrency g = inr f0 ->
    FromFactory fn g ->
    run fuel evs (idle f0) = Some c ->
    (forall v, In (Value v) (results c) ->
       exists x, In x (invoked (engine c)) /\ fn x = Promises (Fulfilled v)) /\
    (forall t, In t (_runningTaskPool (engine c) ++ _finishedTaskPool (engine c)) ->
       In (task_source t) (invoked (engine c)) /\
       fn (task_source t) = Promises (task_result t)).
Proof.
  intros fuel concurrency g fn f0 evs c New G Run.
  apply Fibers_new_level in New. destruct New as [_ ->].
  assert (H : Honest fn c).
  { apply (@run_honest fn fuel evs _ c Run).
    split; [|split; constructor].
    split; [exact G|]. simpl. intros t []. }
  destruct H as [E [_ R]]. split.
  - intros v V. rewrite Forall_forall in R. exact (R _ V).
  - intros t T. apply (proj2 E). rewrite !in_app_iff in *. tauto.
Qed.

(** ** Pausing and resuming *)

Section Pause.
Variable fn : Src -> Launch.
Variable h : option FiberErrorHandler.

Lemma visited_fulfilled pre post :
  Forall (fulfils fn) pre -> visited fn h (pre ++ post) = pre ++ visited fn h post.
Proof.
  induction 1 as [|x pre [v F] _ IH]; [reflexivity|].
  simpl. rewrite F, IH. reflexivity.
Qed.

Lemma sequential_fulfilled pre post :
  Forall (fulfils fn) pre ->
  last (sequential fn h (pre ++ post)) Done = last (sequential fn h post) Done.
Proof.
  induction 1 as [|x pre [v F] _ IH]; [reflexivity|].
  cbn [app sequential]. rewrite F.
  rewrite <- IH. apply (sequential_last fn h [Value v]).
Qed.

(** The job after [x] and the items of [pre], all fulfilled: it waits on the
    step that has yielded the last of them. *)
Lemma job_progress : forall pre x post g inv first fuel fuel',
  yields fn (x :: pre ++ post) g ->
  Forall (fulfils fn) (x :: pre) ->
  exists g' v,
    pending_job first (4 * length pre + 3) fuel fuel'
      (single g h false true (negb first) [] [] [] inv)
    = Some {| engine := single g' h false true true [] [] [] (inv ++ x :: pre);
              parked := [InBackground (Value v)]; results := [] |} /\
    yields fn post g'.
Proof.
  induction pre as [|y pre IH]; intros x post g inv first fuel fuel' Y F.
  - destruct Y as [g' [G Y]]. inversion F as [|? ? [v Fx] _]; subst.
    exists g', v. split; [|exact Y].
    unfold pending_job.
    rewrite (@enter_promises fn h false true (negb first) fuel' g g' x _ inv G Fx).
    cbn [land snd fst app length Nat.mul Nat.add].
    replace (if first
             then job_stored
                    {| engine := single g' h false true (negb first)
                                   [unit_of inv x (Fulfilled v)] []
                                   [unit_of inv x (Fulfilled v)] (inv ++ [x]);
                       parked := [InNext Background
                                    (AwaitRace [unit_of inv x (Fulfilled v)] None
                                       (Some (unit_of inv x (Fulfilled v))))];
                       results := [] |}
             else {| engine := single g' h false true (negb first)
                                 [unit_of inv x (Fulfilled v)] []
                                 [unit_of inv x (Fulfilled v)] (inv ++ [x]);
                     parked := [InNext Background
                                  (AwaitRace [unit_of inv x (Fulfilled v)] None
                                     (Some (unit_of inv x (Fulfilled v))))];
                     results := [] |})
      with {| engine := single g' h false true true
                          [unit_of inv x (Fulfilled v)] []
                          [unit_of inv x (Fulfilled v)] (inv ++ [x]);
              parked := [InNext Background
                           (AwaitRace [unit_of inv x (Fulfilled v)] None
                              (Some (unit_of inv x (Fulfilled v))))];
              results := [] |}
      by (destruct first; reflexivity).
    erewrite host_turns_turn by apply settle_turn.
    erewrite host_turns_turn by apply race_turn_fulfilled.
    erewrite host_turns_turn by (rewrite task_turn_fulfilled; reflexivity).
    reflexivity.
  - destruct Y as [g1 [G Y]]. inversion F as [|? ? [v Fx] F']; subst.
    destruct (IH y post g1 (inv ++ [x]) false fuel fuel Y F') as [g' [w [E Y']]].
    exists g', w. split; [|exact Y'].
    unfold pending_job.
    rewrite (@enter_promises fn h false true (negb first) fuel' g g1 x _ inv G Fx).
    cbn [land snd fst app].
    replace (if first
             then job_stored
                    {| engine := single g1 h false true (negb first)
                                   [unit_of inv x (Fulfilled v)] []
                                   [unit_of inv x (Fulfilled v)] (inv ++ [x]);
                       parked := [InNext Background
                                    (AwaitRace [unit_of inv x (Fulfilled v)] None
                                       (Some (unit_of inv x (Fulfilled v))))];
                       results := [] |}
             else {| engine := single g1 h false true (negb first)
                                 [unit_of inv x (Fulfilled v)] []
                                 [unit_of inv x (Fulfilled v)] (inv ++ [x]);
                     parked := [InNext Background
                                  (AwaitRace [unit_of inv x (Fulfilled v)] None
                                     (Some (unit_of inv x (Fulfilled v))))];
                     results := [] |})
      with {| engine := single g1 h false true true
                          [unit_of inv x (Fulfilled v)] []
                          [unit_of inv x (Fulfilled v)] (inv ++ [x]);
              parked := [InNext Background
                           (AwaitRace [unit_of inv x (Fulfilled v)] None
                              (Some (unit_of inv x (Fulfilled v))))];
              results := [] |}
      by (destruct first; reflexivity).
    replace (4 * length (y :: pre) + 3)%nat
      with (S (S (S (S (4 * length pre + 3))))) by (simpl; lia).
    erewrite host_turns_turn by apply settle_turn.
    erewrite host_turns_turn by apply race_turn_fulfilled.
    erewrite host_turns_turn by (rewrite task_turn_fulfilled; reflexivity).
    cbn [fst snd app]. rewrite job_turn.
    rewrite <- app_assoc in E. exact E.
Qed.

End Pause.

(** X17: pausing and resuming at concurrency level 1.  A background run of
    an engine made by [Fibers.forEach] is stopped with [stop()] once the
    first units, all fulfilled, are through: the job ends at its next turn
    without starting a further unit, and the engine is neither started nor
    completed.  A later [start()] finishes the run exactly as an
    uninterrupted run would: the factory has been called once on each item
    the plain loop visits, in order, and the lifecycle promise ends as the
    plain loop ends. *)
Theorem stop_and_start_resume_the_run :
  forall dispose x pre post fn h f0 turns fuel,
    Fibers_forEach dispose 1 (x :: pre ++ post) fn = inr f0 ->
    Forall (fulfils fn) (x :: pre) ->
    (4 * length post + 1 <= turns)%nat ->
    (length post <= fuel)%nat ->
    exists c1 c2 c,
      inBackground (4 * length pre + 3) fuel (setErrorHandler h f0) = Some c1 /\
      run fuel [CallStop; Resume 0] c1 = Some c2 /\
      c2 = idle (engine c2) /\
      started (engine c2) = false /\
      completed (engine c2) = false /\
      invoked (engine c2) = x :: pre /\
      inBackground turns fuel (engine c2) = Some c /\
      JobOver c (last (sequential fn h (x :: pre ++ post)) Done)
              (visited fn h (x :: pre ++ post)).
Proof.
  intros dispose x pre post fn h f0 turns fuel New F Ht Hf.
  unfold Fibers_forEach, Fibers_new, set_concurrency in New. simpl in New.
  inversion New; subst f0. clear New.
  destruct (@job_progress fn h pre x post _ [] true fuel fuel
              (yields_iterator fn dispose (x :: pre ++ post)) F) as [g' [v [E Y]]].
  destruct (@job_is_sequential fn h post g' (x :: pre) true turns fuel fuel Y)
    as [c [Ec O]]; try lia.
  eexists. eexists. exists c.
  split.
  { unfold inBackground. cbn [step]. unfold start. simpl. unfold _runInBackground. simpl.
    unfold pending_job in E. simpl in E.
    destruct (land Background [] [] _) as [c0|]; [|discriminate]. exact E. }
  split; [reflexivity|].
  split; [reflexivity|]. split; [reflexivity|]. split; [reflexivity|].
  split; [reflexivity|].
  split.
  { rewrite <- Ec. unfold inBackground, pending_job.
    cbn [step]. unfold start. simpl. unfold _runInBackground. simpl.
    destruct (land Background [] [] _); reflexivity. }
  change (x :: pre ++ post) with ((x :: pre) ++ post).
  rewrite (@sequential_fulfilled fn h (x :: pre) post F).
  rewrite (@visited_fulfilled fn h (x :: pre) post F).
  exact O.
Qed.

(** * The further properties on the example engines *)

(** [level_is_the_last_accepted_one] on [three_items]: the level is set to
    4, an assignment of 0 is refused, and the level stays 4. *)
Lemma level_is_the_last_accepted_one_witness :
  Fibers_new 1 {| body := _iterator [10; 20; 30] doubles; hasDispose := true |}
    = inr three_items /\
  exists c,
    run 0 [SetConcurrency 4; SetConcurrency 0; CallIterator] (idle three_items) = Some c /\
    b_concurrency (engine c) = 4.
Proof.
  split; [reflexivity|].
  destruct (run 0 [SetConcurrency 4; SetConcurrency 0; CallIterator] (idle three_items))
    as [c|] eqn:E; [|vm_compute in E; discriminate].
  exists c. split; [reflexivity|].
  exact (proj1 (@level_is_the_last_accepted_one
                  0 1 {| body := _iterator [10; 20; 30] doubles; hasDispose := true |}
                  three_items _ c eq_refl E)).
Defined.

(** [iteration_and_background_job_exclude_each_other] on [three_items],
    where [start()] is called inside an open iteration. *)
Lemma iteration_and_background_job_exclude_each_other_witness :
  Fibers_new 1 {| body := _iterator [10; 20; 30] doubles; hasDispose := true |}
    = inr three_items /\
  exists c,
    run 0 [CallIterator; CallStart; CallNext] (idle three_items) = Some c /\
    _isGeneratorConsuming (engine c) && started (engine c) = false.
Proof.
  split; [reflexivity|].
  destruct (run 0 [CallIterator; CallStart; CallNext] (idle three_items))
    as [c|] eqn:E; [|vm_compute in E; discriminate].
  exists c. split; [reflexivity|].
  exact (@iteration_and_background_job_exclude_each_other
           0 1 {| body := _iterator [10; 20; 30] doubles; hasDispose := true |}
           three_items _ c eq_refl E).
Defined.

(** [failed_and_settled_imply_completed] on the run of [first_fails] that
    ends with the rejection of its first unit. *)
Lemma failed_and_settled_imply_completed_witness :
  Fibers_new 1 {| body := _iterator [7; 8] (fails_at 7); hasDispose := true |}
    = inr first_fails /\
  exists c,
    run 0 [CallIterator; CallNext; Settle 0; Resume 0] (idle first_fails) = Some c /\
    (failed (engine c) = true -> completed (engine c) = true).
Proof.
  split; [reflexivity|].
  destruct (run 0 [CallIterator; CallNext; Settle 0; Resume 0] (idle first_fails))
    as [c|] eqn:E; [|vm_compute in E; discriminate].
  exists c. split; [reflexivity|].
  exact (proj1 (@failed_and_settled_imply_completed
                  0 1 {| body := _iterator [7; 8] (fails_at 7); hasDispose := true |}
                  first_fails _ c eq_refl E)).
Defined.

(** [pools_track_their_units] on [five_items_three_wide] after the second
    of its three units has settled. *)
Lemma pools_track_their_units_witness :
  Fibers_new 3 {| body := _sequence 0 5 1 doubles; hasDispose := true |}
    = inr five_items_three_wide /\
  exists c,
    run 0 [CallIterator; CallNext; Settle 1] (idle five_items_three_wide) = Some c /\
    NoDup (map task_id (_runningTaskPool (engine c))).
Proof.
  split; [reflexivity|].
  destruct (run 0 [CallIterator; CallNext; Settle 1] (idle five_items_three_wide))
    as [c|] eqn:E; [|vm_compute in E; discriminate].
  exists c. split; [reflexivity|].
  exact (proj2 (proj2 (proj2 (@pools_track_their_units
                  0 3 {| body := _sequence 0 5 1 doubles; hasDispose := true |}
                  five_items_three_wide _ c eq_refl E)))).
Defined.

(** [forEach_calls_the_factory_in_order] on [three_items] once the second
    step has been asked for. *)
Lemma forEach_calls_the_factory_in_order_witness :
  Fibers_forEach true 1 [10; 20; 30] doubles = inr three_items /\
  exists c,
    run 0 [CallIterator; CallNext; Settle 0; Resume 0; Resume 0; CallNext]
        (idle three_items) = Some c /\
    exists rest,
      [10; 20; 30] = invoked (engine c) ++ rest /\
      (body (_generator (engine c)) = Iterator rest doubles \/
       body (_generator (engine c)) = Closed).
Proof.
  split; [reflexivity|].
  destruct (run 0 [CallIterator; CallNext; Settle 0; Resume 0; Resume 0; CallNext]
                (idle three_items)) as [c|] eqn:E; [|vm_compute in E; discriminate].
  exists c. split; [reflexivity|].
  exact (@forEach_calls_the_factory_in_order
           0 true 1 [10; 20; 30] doubles three_items _ c eq_refl E).
Defined.

(** [for_calls_the_factory_on_successive_indices] on
    [five_items_three_wide] after its first step has started three units. *)
Lemma for_calls_the_factory_on_successive_indices_witness :
  Fibers_for true 3 0 5 1 doubles = inr five_items_three_wide /\
  exists c,
    run 0 [CallIterator; CallNext] (idle five_items_three_wide) = Some c /\
    forall s, In s (invoked (engine c)) -> s < 5.
Proof.
  split; [reflexivity|].
  destruct (run 0 [CallIterator; CallNext] (idle five_items_three_wide))
    as [c|] eqn:E; [|vm_compute in E; discriminate].
  exists c. split; [reflexivity|].
  exact (proj1 (proj2 (@for_calls_the_factory_on_successive_indices
                         0 true 3 0 5 1 doubles five_items_three_wide _ c
                         ltac:(unfold ExactRange; lia) eq_refl E))).
Defined.


(** [start_twice_is_start_once] on [three_items]. *)
Lemma start_twice_is_start_once_witness :
  exists c1,
    step 0 CallStart (idle three_items) = Some c1 /\
    step 0 CallStart c1 = Some c1.
Proof.
  destruct (step 0 CallStart (idle three_items)) as [c1|] eqn:E;
    [|vm_compute in E; discriminate].
  exists c1. split; [reflexivity|].
  exact (proj1 (@start_twice_is_start_once 0 (idle three_items) c1 E)).
Defined.

(** [start_does_not_undo_stop] on [three_items], whose background job waits
    on the first step, which has yielded 20. *)
Lemma start_does_not_undo_stop_witness :
  exists c c',
    run 0 [CallStart; Settle 0; Resume 0; Resume 0] (idle three_items) = Some c /\
    started (engine c) = true /\
    nth_error (parked c) 0 = Some (InBackground (Value 20)) /\
    run 0 [CallStop; CallStart; Resume 0] c = Some c' /\
    started (engine c') = false /\
    invoked (engine c') = invoked (engine c).
Proof.
  destruct (run 0 [CallStart; Settle 0; Resume 0; Resume 0] (idle three_items))
    as [c|] eqn:E; [|vm_compute in E; discriminate].
  assert (Ec : Some c = run 0 [CallStart; Settle 0; Resume 0; Resume 0] (idle three_items))
    by (symmetry; exact E).
  vm_compute in Ec. inversion Ec as [Hc].
  destruct (@start_does_not_undo_stop 0 c 0%nat 20) as [c' [R [_ [S [I _]]]]];
    try (rewrite Hc; reflexivity).
  exists c, c'. split; [exact E|].
  split; [rewrite Hc; reflexivity|]. split; [rewrite Hc; reflexivity|].
  split; [exact R|]. split; [exact S|exact I].
Defined.

(** [delay_settles_once] on a delay that elapses before [abort()] is
    called. *)
Lemma delay_settles_once_witness :
  exists w,
    Delay.run true [Delay.TimerFires; Delay.AbortCalled] (Delay.delay true 100 (Some false))
      = Some w /\
    (Delay.clearTimeoutCalls w <= 1)%nat.
Proof.
  destruct (Delay.run true [Delay.TimerFires; Delay.AbortCalled]
              (Delay.delay true 100 (Some false))) as [w|] eqn:E;
    [|vm_compute in E; discriminate].
  exists w. split; [reflexivity|].
  exact (proj1 (proj2 (@delay_settles_once true 100 (Some false) _ w E))).
Defined.

(** [forEach_one_at_a_time_is_the_plain_loop] on
    [Fibers.forEach(1, [7, 8], fails_at 7)] with a handler that answers
    'skip': the loop yields 8 and is done. *)
Lemma forEach_one_at_a_time_is_the_plain_loop_witness :
  Fibers_forEach true 1 [7; 8] (fails_at 7) = inr first_fails /\
  exists c,
    forAwait 3 6 2 (setErrorHandler (Some (fun _ => Skip)) first_fails) = Some c /\
    Over c [Value 8; Done] [7; 8].
Proof.
  split; [reflexivity|].
  apply (@forEach_one_at_a_time_is_the_plain_loop
           true [7; 8] (fails_at 7) (Some (fun _ => Skip)) first_fails 3 6 2 eq_refl);
    simpl; lia.
Defined.

(** [forEach_background_job_is_the_plain_loop] on [first_fails] without a
    handler: the job calls the factory on 7 only and the run fails. *)
Lemma forEach_background_job_is_the_plain_loop_witness :
  Fibers_forEach true 1 [7; 8] (fails_at 7) = inr first_fails /\
  exists c,
    inBackground 9 2 (setErrorHandler None first_fails) = Some c /\
    JobOver c (Throws (Failure 7)) [7].
Proof.
  split; [reflexivity|].
  apply (@forEach_background_job_is_the_plain_loop
           true [7; 8] (fails_at 7) None first_fails 9 2 eq_refl);
    simpl; lia.
Defined.

(** [for_one_at_a_time_is_the_plain_loop_over_the_indices] on
    [Fibers.for(1, 0, 5, 2, doubles)], whose indices are 0, 2 and 4. *)
Lemma for_one_at_a_time_is_the_plain_loop_over_the_indices_witness :
  0 < 2 /\
  exists c,
    forAwait 4 13 3
      (setErrorHandler None
         (with_concurrency 1
            (blank {| body := _sequence 0 5 2 doubles; hasDispose := true |}))) = Some c /\
    Over c [Value 0; Value 4; Value 8; Done] [0; 2; 4].
Proof.
  split; [reflexivity|].
  apply (proj1 (@for_one_at_a_time_is_the_plain_loop_over_the_indices
                  true 0 5 2 doubles None _ 4 13 3 eq_refl
                  ltac:(unfold ExactRange; lia) eq_refl
                  ltac:(vm_compute; lia) ltac:(vm_compute; lia) ltac:(vm_compute; lia))).
Defined.

(** [advance_step_tops_the_pool_up] on the first step of
    [five_items_three_wide]: three units are started. *)
Lemma advance_step_tops_the_pool_up_witness :
  0 < b_concurrency five_items_three_wide /\
  exists f1 activeTask out,
    try_block Enter five_items_three_wide = (f1, activeTask, out) /\
    Z.of_nat (length (invoked f1)) - Z.of_nat (length (invoked five_items_three_wide))
    = poolSize f1 - poolSize five_items_three_wide.
Proof.
  split; [reflexivity|].
  destruct (try_block Enter five_items_three_wide) as [[f1 activeTask] out] eqn:E.
  assert (Ec : (f1, activeTask, out) = try_block Enter five_items_three_wide)
    by (symmetry; exact E).
  vm_compute in Ec. inversion Ec as [[Hf Ha Ho]].
  exists f1, activeTask, out. split; [exact E|].
  refine (proj1 (proj2 (@advance_step_tops_the_pool_up
                          five_items_three_wide f1 activeTask out eq_refl E _))).
  intros e. rewrite Ho. discriminate.
Defined.

(** [every_value_is_the_result_of_a_unit] on [three_items] after its first
    step has yielded 20. *)
Lemma every_value_is_the_result_of_a_unit_witness :
  Fibers_new 1 {| body := _iterator [10; 20; 30] doubles; hasDispose := true |}
    = inr three_items /\
  FromFactory doubles {| body := _iterator [10; 20; 30] doubles; hasDispose := true |} /\
  exists c,
    run 0 [CallIterator; CallNext; Settle 0; Resume 0; Resume 0] (idle three_items)
      = Some c /\
    forall v, In (Value v) (results c) ->
      exists x, In x (invoked (engine c)) /\ doubles x = Promises (Fulfilled v).
Proof.
  split; [reflexivity|]. split; [reflexivity|].
  destruct (run 0 [CallIterator; CallNext; Settle 0; Resume 0; Resume 0] (idle three_items))
    as [c|] eqn:E; [|vm_compute in E; discriminate].
  exists c. split; [reflexivity|].
  exact (proj1 (@every_value_is_the_result_of_a_unit
                  0 1 {| body := _iterator [10; 20; 30] doubles; hasDispose := true |}
                  doubles three_items _ c eq_refl eq_refl E)).
Defined.

(** [stop_and_start_resume_the_run] on [three_items], stopped when 10 and
    20 are through. *)
Lemma stop_and_start_resume_the_run_witness :
  Fibers_forEach true 1 [10; 20; 30] doubles = inr three_items /\
  Forall (fulfils doubles) [10; 20] /\
  exists c1 c2 c,
    inBackground 7 1 (setErrorHandler None three_items) = Some c1 /\
    run 1 [CallStop; Resume 0] c1 = Some c2 /\
    c2 = idle (engine c2) /\
    started (engine c2) = false /\
    completed (engine c2) = false /\
    invoked (engine c2) = [10; 20] /\
    inBackground 5 1 (engine c2) = Some c /\
    JobOver c (last (sequential doubles None [10; 20; 30]) Done)
            (visited doubles None [10; 20; 30]).
Proof.
  assert (F : Forall (fulfils doubles) [10; 20])
    by (repeat constructor; eexists; reflexivity).
  split; [reflexivity|]. split; [exact F|].
  apply (@stop_and_start_resume_the_run
           true 10 [20] [30] doubles None three_items 5 1 eq_refl F);
    simpl; lia.
Defined.
